(** * A transactional radix tree (RadixTree.hh), embedded in Rocq

    The tree of [RadixTree<K, V, KeyTransformer>] is modelled over an explicit
    store of heap cells: interior nodes ([tree_node]) and leaves
    ([versioned_value]) live at addresses, child slots hold addresses, and the
    operations thread the store through.  The per-transaction items of the
    transaction manager are kept in a finite map keyed by the address they
    were requested for.

    Version words are integers with the wrap-around of the machine word
    written out.  Transaction.hh and versioned_value.hh are not among the
    sources: the bit constants they declare are parameters of the
    development, and the few functions of theirs that the tree calls follow
    the design document of the tree.

    Threads are interleaved operation by operation ([run]).  Where a property
    depends on what another thread does inside an operation, the operation
    takes the store once for each place where it reads shared memory
    ([trans_get_at], [trans_remove_at]) or comes in two halves
    ([put_version_stored], [put_value_stored]). *)

From Stdlib Require Import ZArith Lia.
From stdpp Require Import base option list gmap.

Local Open Scope Z_scope.

(** ** Outcomes of an operation *)

(** An operation either returns, aborts the running transaction
    ([Sto::abort()]), waits forever on a version lock nobody releases
    ([Spin]), or leaves defined behaviour ([Fault]: a null or wrongly typed
    pointer is dereferenced, an array is indexed out of range). *)
Inductive res (A : Type) : Type :=
| Done (a : A)
| Abort
| Spin
| Fault.

Arguments Done {A} a.
Arguments Abort {A}.
Arguments Spin {A}.
Arguments Fault {A}.

#[global] Instance res_ret : MRet res := λ A a, Done a.
#[global] Instance res_bind : MBind res := λ A B f m,
  match m with
  | Done a => f a
  | Abort => Abort
  | Spin => Spin
  | Fault => Fault
  end.

(** [a[i]] on an array that is read in range only. *)
Definition index {A} (l : list A) (i : nat) : res A :=
  match l !! i with
  | Some x => Done x
  | None => Fault
  end.

(** ** The version-word convention of the transaction manager *)

(** The constants of [TransactionTid] and [TransItem] are declared in
    Transaction.hh, which is not part of the sources at hand; they are taken
    as parameters.  [tid_bits] is the width of [TransactionTid::type]. *)
Class StoConvention := {
  tid_bits : Z;
  valid_bit : Z;
  user_bit1 : Z;
  increment_value : Z;
  user0_bit : Z
}.

(** What the tree relies on: the flag bits are distinct single bits above the
    lock bit and below the increment, the increment is a single bit, and the
    word is wide enough for the version of a full interior node. *)
Record convention_ok `{StoConvention} : Prop := {
  valid_single : valid_bit = 2 ^ Z.log2 valid_bit;
  insert_single : user_bit1 = 2 ^ Z.log2 user_bit1;
  increment_single : increment_value = 2 ^ Z.log2 increment_value;
  user0_single : user0_bit = 2 ^ Z.log2 user0_bit;
  valid_pos : 1 ≤ Z.log2 valid_bit < Z.log2 increment_value;
  insert_pos : 1 ≤ Z.log2 user_bit1 < Z.log2 increment_value;
  valid_insert_distinct : Z.log2 valid_bit ≠ Z.log2 user_bit1;
  increment_pos : Z.log2 increment_value + 5 ≤ tid_bits
}.

(** The layout used by the transaction manager this tree was written for. *)
Definition sto_convention : StoConvention :=
  {| tid_bits := 64; valid_bit := 2; user_bit1 := 4;
     increment_value := 16; user0_bit := 256 |}.

Module TransactionTid.
Section tid.
Context `{StoConvention}.

Definition lock_bit : Z := 1.

(** Arithmetic on [type] is unsigned and wraps around. *)
Definition wrap (x : Z) : Z := x mod 2 ^ tid_bits.
Definition add (x y : Z) : Z := wrap (x + y).
(** [~m] *)
Definition compl (m : Z) : Z := wrap (Z.lnot m).

(** [v & lock_bit] used as a condition. *)
Definition is_locked (v : Z) : bool := negb (Z.land v lock_bit =? 0).

(** Modelled from the spec: [TransactionTid::lock] of Transaction.hh, a
    spin lock on the low bit of the version word.  Run on its own, it never
    returns when the bit is already set. *)
Definition lock (v : Z) : res Z :=
  if is_locked v then Spin else Done (Z.lor v lock_bit).

(** Modelled from the spec: [TransactionTid::unlock] of Transaction.hh
    releases the version lock. *)
Definition unlock (v : Z) : Z := Z.land v (compl lock_bit).

(** Modelled from the spec: [TransactionTid::set_version(w, v)] of
    Transaction.hh publishes [v] into the word [w]. *)
Definition set_version (w new_v : Z) : Z := new_v.

(** Modelled from the spec: [TransactionTid::same_version] of
    Transaction.hh, equality ignoring the lock bit. *)
Definition same_version (v1 v2 : Z) : bool :=
  Z.lor v1 lock_bit =? Z.lor v2 lock_bit.

(** The increment field of a version word. *)
Definition counter (v : Z) : Z := v / increment_value.
End tid.
End TransactionTid.

(** ** Key transformers *)

(** [span] and [fanout] of [RadixTree]. *)
Definition span : Z := 4.
Definition fanout : Z := Z.shiftl 1 span.

(** The interface of [DefaultKeyTransformer<K>]: [transform key buf] is the
    buffer after [transform(key, buf)]. *)
Class KeyTransformer (K : Type) := {
  buf_size : nat;
  transform : K → list Z → list Z
}.

(** The contract a transformer has to meet: it fills the whole buffer with
    child indices. *)
Class KeyTransformerOk (K : Type) `{KeyTransformer K} : Prop := {
  buf_size_pos : (0 < buf_size)%nat;
  transform_length : ∀ (k : K) buf,
    length buf = buf_size → length (transform k buf) = buf_size;
  transform_range : ∀ (k : K) buf x,
    length buf = buf_size → x ∈ transform k buf → 0 ≤ x < fanout
}.

(** [DefaultKeyTransformer<uint64_t>::transform]: the loop runs [i] from 0
    to [sizeof(key)*2 - 1] and stores a 4-bit group per round. *)
Definition sizeof_uint64 : nat := 8.

Definition transform_uint64 (key : Z) (buf : list Z) : list Z :=
  fold_left
    (λ buf i,
       <[(2 * sizeof_uint64 - i - 1)%nat :=
           Z.land (Z.shiftr key (4 * Z.of_nat i)) 15]> buf)
    (seq 0 (sizeof_uint64 * 2)) buf.

#[global] Instance DefaultKeyTransformer_uint64 : KeyTransformer Z :=
  {| buf_size := sizeof_uint64 * 2; transform := transform_uint64 |}.

(** The 4-bit groups of a key, most significant of [n] first. *)
Fixpoint groups (n : nat) (key : Z) : list Z :=
  match n with
  | O => []
  | S n' => Z.land (Z.shiftr key (4 * Z.of_nat n')) 15 :: groups n' key
  end.

(** Lexicographic order on index sequences. *)
Fixpoint lex_lt (xs ys : list Z) : Prop :=
  match xs, ys with
  | [], [] => False
  | [], _ :: _ => True
  | _ :: _, [] => False
  | x :: xs', y :: ys' => x < y ∨ (x = y ∧ lex_lt xs' ys')
  end.

(** ** Heap cells *)

(** Addresses; a child slot holds [None] for [nullptr]. *)
Definition ptr : Type := nat.

(** [struct tree_node]. *)
Record tree_node := mk_tree_node {
  children : list (option ptr);
  parent_index : Z;
  parent : option ptr;
  version : Z;
  value : option ptr
}.

(** Modelled from the spec: [versioned_value_struct<V>] of versioned_value.hh,
    which is not part of the sources at hand: a version word and a payload
    cell, read and written through [version()], [read_value()] and
    [writeable_value()]. *)
Record versioned_value (V : Type) := mk_versioned_value {
  vv_version : Z;
  vv_value : V
}.

Arguments mk_versioned_value {V} _ _.
Arguments vv_version {V} _.
Arguments vv_value {V} _.

Inductive cell (V : Type) : Type :=
| Node (n : tree_node)
| Leaf (vv : versioned_value V).

Arguments Node {V} n.
Arguments Leaf {V} vv.

(** What the payload type has to provide: the value a default-constructed
    [versioned_value] holds, and what [write_value<V>()] makes of an item
    whose staged write is the [bool] marker of [trans_remove]. *)
Class Payload (V : Type) := {
  default_value : V;
  from_marker : bool → V
}.

(** ** Transaction items *)

(** Modelled from the spec: [TransItem] of Transaction.hh, the per-(owner,
    key) record of a transaction: the key it was requested for, its flags,
    the recorded read and the staged write.  A staged write is type-erased:
    [trans_put] stages a [V], [trans_remove] stages [true]. *)
Inductive packed (V : Type) : Type :=
| PValue (v : V)
| PBool (b : bool).

Arguments PValue {V} v.
Arguments PBool {V} b.

Record TransItem (V : Type) := mk_TransItem {
  key : ptr;
  flags : Z;
  rdata : option Z;
  wdata : option (packed V)
}.

Arguments mk_TransItem {V} _ _ _ _.
Arguments key {V} _.
Arguments flags {V} _.
Arguments rdata {V} _.
Arguments wdata {V} _.

Section RadixTree.
Context `{StoConvention}.
Context {K V : Type} `{KeyTransformer K} `{Payload V}.

Abbreviation store := (gmap ptr (cell V)).
Abbreviation transaction := (gmap ptr (TransItem V)).

(** *** Item handles *)

(** Modelled from the spec: [Sto::item(owner, key)] returns the handle of the
    running transaction for [key], a fresh one on first use. *)
Definition Sto_item (txn : transaction) (p : ptr) : TransItem V :=
  default (mk_TransItem p 0 None None) (txn !! p).

(** The items of a transaction are filed under the key they were requested
    for. *)
Definition transaction_ok (txn : transaction) : Prop :=
  ∀ p it, txn !! p = Some it → key it = p.

(** Modelled from the spec: [has_read()] and [has_write()] of an item handle
    (Transaction.hh): whether a read is recorded, whether a write is staged. *)
Definition has_read (it : TransItem V) : bool := bool_decide (is_Some (rdata it)).
Definition has_write (it : TransItem V) : bool := bool_decide (is_Some (wdata it)).

(** Modelled from the spec: [read_value<version_t>()] of an item handle
    (Transaction.hh), the recorded read; there is nothing to hand out when no
    read was recorded. *)
Definition read_value (it : TransItem V) : res Z :=
  match rdata it with
  | Some v => Done v
  | None => Fault
  end.

(** Modelled from the spec: [write_value<V>()] of an item handle
    (Transaction.hh), the staged write read back as a [V]. *)
Definition write_value (it : TransItem V) : res V :=
  match wdata it with
  | Some (PValue v) => Done v
  | Some (PBool b) => Done (from_marker b)
  | None => Fault
  end.

(** Modelled from the spec: [add_read<version_t>(v)] of an item handle
    (Transaction.hh) records [v] as the read of the item. *)
Definition add_read (it : TransItem V) (v : Z) : TransItem V :=
  mk_TransItem (key it) (flags it) (Some v) (wdata it).

(** Modelled from the spec: [add_write(v)] of an item handle
    (Transaction.hh) stages [v] as the write of the item. *)
Definition add_write (it : TransItem V) (w : packed V) : TransItem V :=
  mk_TransItem (key it) (flags it) (rdata it) (Some w).

(** Modelled from the spec: [add_flags(mask)] of an item handle
    (Transaction.hh) sets the flag bits of [mask]. *)
Definition add_flags (it : TransItem V) (mask : Z) : TransItem V :=
  mk_TransItem (key it) (Z.lor (flags it) mask) (rdata it) (wdata it).

(** [flags & bit] used as a condition. *)
Definition has_flag (fl bit : Z) : bool := negb (Z.land fl bit =? 0).

(** *** Constants of the tree *)

Definition ver_insert_bit : Z := user_bit1.
Definition item_put_bit : Z := Z.shiftl user0_bit 0.
Definition item_remove_bit : Z := Z.shiftl user0_bit 1.
Definition item_empty_bit : Z := Z.shiftl user0_bit 2.

(** *** The store *)

(** The root is embedded in the tree object; [&root] is address 0. *)
Definition root_ptr : ptr := 0%nat.

(** [tree_node(parent, parent_index)]. *)
Definition new_tree_node (par : option ptr) (idx : Z) : tree_node :=
  mk_tree_node (replicate (Z.to_nat fanout) None) idx par increment_value None.

(** [RadixTree()]: the root is [tree_node()], that is [tree_node(nullptr, 0)]. *)
Definition empty_tree : store := {[ root_ptr := Node (new_tree_node None 0) ]}.

Definition as_node (h : store) (p : ptr) : res tree_node :=
  match h !! p with
  | Some (Node n) => Done n
  | _ => Fault
  end.

Definition as_leaf (h : store) (p : ptr) : res (versioned_value V) :=
  match h !! p with
  | Some (Leaf vv) => Done vv
  | _ => Fault
  end.

(** [new]: the cell is placed at an address not in use. *)
Definition alloc (c : cell V) (h : store) : ptr * store :=
  let p := fresh (dom h) in (p, <[p := c]> h).

Definition with_version (n : tree_node) (v : Z) : tree_node :=
  mk_tree_node (children n) (parent_index n) (parent n) v (value n).

Definition with_child (n : tree_node) (t : nat) (c : ptr) : tree_node :=
  mk_tree_node (<[t := Some c]> (children n)) (parent_index n) (parent n)
    (version n) (value n).

(** The buffer [uint8_t t_key[t_key_sz]] handed to the transformer. *)
Definition t_key_of (k : K) : list Z := transform k (replicate buf_size 0).

(** *** Descent *)

(** The loop of [get_value]; [n] rounds are left and [i] is the loop
    variable.  The result is [(is_vv, vv_or_node)]. *)
Fixpoint get_value_loop (n i : nat) (t_key : list Z) (cur : ptr) (h : store)
  : res (bool * ptr) :=
  match n with
  | O => Done (true, cur)
  | S n' =>
    node ← as_node h cur;
    t ← index t_key i;
    c ← index (children node) (Z.to_nat t);
    match c with
    | None => Done (false, cur)
    | Some c' => get_value_loop n' (S i) t_key c' h
    end
  end.

Definition get_value (k : K) (h : store) : res (bool * ptr) :=
  get_value_loop buf_size 0 (t_key_of k) root_ptr h.

(** [atomic_read]: sample the version, the value and the version again, and
    retry until both samples agree.  [fuel] bounds the number of rounds. *)
Fixpoint atomic_read (fuel : nat) (h : store) (vv : ptr) : res (V * Z) :=
  match fuel with
  | O => Spin
  | S fuel' =>
    l2 ← as_leaf h vv;
    let ver2 := vv_version l2 in
    l ← as_leaf h vv;
    let val := vv_value l in
    l1 ← as_leaf h vv;
    let ver := vv_version l1 in
    if ver =? ver2 then Done (val, ver) else atomic_read fuel' h vv
  end.

(** *** Growing the insert path *)

(** The cell built off-tree in round [i] of [insert_nodes]. *)
Definition new_node (i : nat) (node : ptr) (t : Z) : cell V :=
  if decide (i = (buf_size - 1)%nat)
  then Leaf (mk_versioned_value ver_insert_bit default_value)
  else Node (new_tree_node (Some node) t).

(** Lines 190-208: under the lock of [node], fill slot [t] with [new_ptr]
    and bump the version, or discard the cell if the slot was filled
    meanwhile. *)
Definition publish (node : ptr) (t : nat) (new_ptr : ptr) (h : store) : res store :=
  n ← as_node h node;
  v ← TransactionTid.lock (version n);
  let n := with_version n v in
  c ← index (children n) t;
  '(n, h) ← match c with
            | None =>
              let n := with_version n
                (TransactionTid.set_version (version n)
                   (TransactionTid.add (version n) increment_value)) in
              Done (with_child n t new_ptr, h)
            | Some _ => Done (n, delete new_ptr h)
            end;
  Done (<[node := Node (with_version n (TransactionTid.unlock (version n)))]> h).

(** The loop of [insert_nodes]. *)
Fixpoint insert_nodes_loop (n i : nat) (t_key : list Z) (cur : ptr) (h : store)
  : res (ptr * store) :=
  match n with
  | O => Done (cur, h)
  | S n' =>
    node ← as_node h cur;
    t ← index t_key i;
    c ← index (children node) (Z.to_nat t);
    h ← match c with
        | None =>
          let '(new_ptr, h) := alloc (new_node i cur t) h in
          publish cur (Z.to_nat t) new_ptr h
        | Some _ => Done h
        end;
    node ← as_node h cur;
    c ← index (children node) (Z.to_nat t);
    match c with
    | None => Fault
    | Some c' => insert_nodes_loop n' (S i) t_key c' h
    end
  end.

Definition insert_nodes (k : K) (h : store) : res (ptr * store) :=
  insert_nodes_loop buf_size 0 (t_key_of k) root_ptr h.

(** *** Version updates *)

(** [ver = old + increment_value; ver |= valid_bit; ver &= ~ver_insert_bit]
    (lines 156-158 of [put], lines 329 and 332-333 of [install]). *)
Definition put_version (old : Z) : Z :=
  let ver := TransactionTid.add old increment_value in
  let ver := Z.lor ver valid_bit in
  Z.land ver (TransactionTid.compl ver_insert_bit).

(** [ver = old + increment_value; ver &= ~(valid_bit | ver_insert_bit)]
    (lines 246-247 of [remove]). *)
Definition remove_version (old : Z) : Z :=
  let ver := TransactionTid.add old increment_value in
  Z.land ver (TransactionTid.compl (Z.lor valid_bit ver_insert_bit)).

(** [new_ver = old + increment_value; new_ver &= ~valid_bit;
    new_ver &= ~ver_insert_bit] (lines 329 and 336-337 of [install]). *)
Definition install_remove_version (old : Z) : Z :=
  let new_ver := TransactionTid.add old increment_value in
  let new_ver := Z.land new_ver (TransactionTid.compl valid_bit) in
  Z.land new_ver (TransactionTid.compl ver_insert_bit).

(** A version word with the lock bit ignored. *)
Definition unlocked (v : Z) : Z := Z.ldiff v TransactionTid.lock_bit.

(** *** Non-transactional operations *)

Definition put (k : K) (v : V) (h : store) : res store :=
  '(vv, h) ← insert_nodes k h;
  l ← as_leaf h vv;
  locked ← TransactionTid.lock (vv_version l);
  let ver := put_version locked in
  Done (<[vv := Leaf (mk_versioned_value (TransactionTid.unlock ver) v)]> h).

Definition remove (k : K) (h : store) : res store :=
  '(is_vv, vv) ← get_value k h;
  if negb is_vv then Done h
  else
    l ← as_leaf h vv;
    locked ← TransactionTid.lock (vv_version l);
    let ver := remove_version locked in
    Done (<[vv := Leaf (mk_versioned_value (TransactionTid.unlock ver) (vv_value l))]> h).

(** [get key value]: the result and the content of [value] afterwards. *)
Definition get (fuel : nat) (k : K) (out : V) (h : store) : res (bool * V) :=
  '(is_vv, vv) ← get_value k h;
  if negb is_vv then Done (false, out)
  else
    l ← as_leaf h vv;
    if negb (has_flag (vv_version l) valid_bit) then Done (false, out)
    else
      '(val, _) ← atomic_read fuel h vv;
      Done (true, val).

(** *** Transactional operations *)

Definition trans_get (fuel : nat) (k : K) (out : V) (h : store) (txn : transaction)
  : res (bool * V * transaction) :=
  '(is_vv, p) ← get_value k h;
  if negb is_vv then
    node ← as_node h p;
    let item := Sto_item txn p in
    let item := add_read item (version node) in
    let item := add_flags item item_empty_bit in
    Done (false, out, <[p := item]> txn)
  else
    let item := Sto_item txn p in
    if has_write item then
      w ← write_value item;
      Done (true, w, <[p := item]> txn)
    else
      l ← as_leaf h p;
      let ver := vv_version l in
      changed ← (if has_read item
                 then r ← read_value item;
                      Done (negb (TransactionTid.same_version r ver))
                 else Done false);
      if changed : bool then Abort
      else
        '(val, ver) ← atomic_read fuel h p;
        let item := add_read item ver in
        Done (has_flag ver valid_bit, val, <[p := item]> txn).

Definition trans_put (k : K) (v : V) (h : store) (txn : transaction)
  : res (store * transaction) :=
  '(vv, h) ← insert_nodes k h;
  let item := Sto_item txn vv in
  let item := add_write item (PValue v) in
  let item := add_flags item item_put_bit in
  Done (h, <[vv := item]> txn).

Definition trans_remove (k : K) (h : store) (txn : transaction) : res transaction :=
  '(is_vv, p) ← get_value k h;
  if negb is_vv then
    node ← as_node h p;
    let item := Sto_item txn p in
    let item := add_read item (version node) in
    let item := add_flags item item_empty_bit in
    Done (<[p := item]> txn)
  else
    let item := Sto_item txn p in
    let item := add_write item (PBool true) in
    let item := add_flags item item_remove_bit in
    Done (<[p := item]> txn).

(** *** Commit callbacks *)

Definition lock (item : TransItem V) (h : store) : res store :=
  vv ← as_leaf h (key item);
  v ← TransactionTid.lock (vv_version vv);
  Done (<[key item := Leaf (mk_versioned_value v (vv_value vv))]> h).

Definition check (item : TransItem V) (h : store) : res bool :=
  if has_flag (flags item) item_empty_bit then
    node ← as_node h (key item);
    r ← read_value item;
    Done (TransactionTid.same_version (version node) r)
  else
    vv ← as_leaf h (key item);
    r ← read_value item;
    Done (TransactionTid.same_version (vv_version vv) r).

Definition install (item : TransItem V) (h : store) : res store :=
  vv ← as_leaf h (key item);
  '(new_ver, val) ←
    (if has_flag (flags item) item_put_bit then
       w ← write_value item;
       Done (put_version (vv_version vv), w)
     else if has_flag (flags item) item_remove_bit then
       Done (install_remove_version (vv_version vv), vv_value vv)
     else
       Done (TransactionTid.add (vv_version vv) increment_value, vv_value vv));
  Done (<[key item :=
            Leaf (mk_versioned_value
                    (TransactionTid.set_version (vv_version vv) new_ver) val)]> h).

Definition unlock (item : TransItem V) (h : store) : res store :=
  vv ← as_leaf h (key item);
  Done (<[key item :=
            Leaf (mk_versioned_value (TransactionTid.unlock (vv_version vv))
                    (vv_value vv))]> h).

(** *** Histories *)

(** What threads do to the shared store.  Threads are interleaved operation
    by operation: each action runs from start to end on the store the
    previous one left.  [InsertNodes k] is the structural part of a
    [trans_put(k, _)]; [Lock], [Install] and [Unlock] are the commit callbacks
    of some transaction, each an action of its own, so that a store may be
    seen while leaf locks are held. *)
Inductive action : Type :=
| Put (k : K) (v : V)
| Remove (k : K)
| InsertNodes (k : K)
| Lock (item : TransItem V)
| Install (item : TransItem V)
| Unlock (item : TransItem V).

Definition step (a : action) (h : store) : res store :=
  match a with
  | Put k v => put k v h
  | Remove k => remove k h
  | InsertNodes k => '(_, h') ← insert_nodes k h; Done h'
  | Lock item => lock item h
  | Install item => install item h
  | Unlock item => unlock item h
  end.

Fixpoint run (acts : list action) (h : store) : res store :=
  match acts with
  | [] => Done h
  | a :: acts' => h' ← step a h; run acts' h'
  end.

(** The states a tree can be in. *)
Definition reachable (h : store) : Prop :=
  ∃ acts, run acts empty_tree = Done h.

(** No writer holds a leaf lock. *)
Definition quiescent (h : store) : Prop :=
  ∀ p vv, h !! p = Some (Leaf vv) → TransactionTid.is_locked (vv_version vv) = false.

(** *** Paths *)

(** The cell reached from [cur] along a sequence of child indices. *)
Fixpoint follow (h : store) (cur : ptr) (path : list nat) : option ptr :=
  match path with
  | [] => Some cur
  | t :: path' =>
    match h !! cur with
    | Some (Node n) =>
      match children n !! t with
      | Some (Some c) => follow h c path'
      | _ => None
      end
    | _ => None
    end
  end.

(** The number of filled child slots. *)
Definition filled (cs : list (option ptr)) : nat :=
  length (filter is_Some cs).

(** The two flag bits of a leaf are never set together. *)
Definition leaf_state_ok (v : Z) : Prop :=
  ¬ (has_flag v ver_insert_bit = true ∧ has_flag v valid_bit = true).

(** The shape every reachable store has. *)
Record tree_inv (h : store) : Prop := {
  inv_node : ∀ p n, h !! p = Some (Node n) →
    length (children n) = Z.to_nat fanout ∧
    version n = increment_value * (1 + Z.of_nat (filled (children n)));
  inv_leaf : ∀ p vv, h !! p = Some (Leaf vv) →
    0 ≤ vv_version vv < 2 ^ tid_bits ∧ leaf_state_ok (vv_version vv);
  inv_interior : ∀ path p, follow h root_ptr path = Some p →
    (length path < buf_size)%nat → ∃ n, h !! p = Some (Node n);
  inv_frontier : ∀ path p, follow h root_ptr path = Some p →
    length path = buf_size → ∃ vv, h !! p = Some (Leaf vv);
  inv_inj : ∀ path1 path2 p, follow h root_ptr path1 = Some p →
    follow h root_ptr path2 = Some p → path1 = path2
}.

(** One store extends another: cells stay where they are, nodes stay nodes,
    leaves stay leaves, and a filled slot keeps its child. *)
Definition extends (h h' : store) : Prop :=
  (∀ p n, h !! p = Some (Node n) →
     ∃ n', h' !! p = Some (Node n') ∧
       ∀ t c, children n !! t = Some (Some c) → children n' !! t = Some (Some c)) ∧
  (∀ p vv, h !! p = Some (Leaf vv) → ∃ vv', h' !! p = Some (Leaf vv')).

(** What [insert_nodes] does to a store: it extends it, keeps every leaf as
    it is, and adds leaves in the insert state only. *)
Definition grows (h h' : store) : Prop :=
  extends h h' ∧
  (∀ p vv, h !! p = Some (Leaf vv) → h' !! p = Some (Leaf vv)) ∧
  (∀ p vv, h' !! p = Some (Leaf vv) →
     h !! p = Some (Leaf vv) ∨
     (h !! p = None ∧ vv = mk_versioned_value ver_insert_bit default_value)).

(** The updates the operations make to the version word of a leaf: [put]
    and [remove] between their [lock] and [unlock], and the four commit
    callbacks. *)
Inductive version_step : Z → Z → Prop :=
| vs_put v :
    TransactionTid.is_locked v = false →
    version_step v
      (TransactionTid.unlock (put_version (Z.lor v TransactionTid.lock_bit)))
| vs_remove v :
    TransactionTid.is_locked v = false →
    version_step v
      (TransactionTid.unlock (remove_version (Z.lor v TransactionTid.lock_bit)))
| vs_lock v :
    TransactionTid.is_locked v = false →
    version_step v (Z.lor v TransactionTid.lock_bit)
| vs_install_put v :
    version_step v (TransactionTid.set_version v (put_version v))
| vs_install_remove v :
    version_step v (TransactionTid.set_version v (install_remove_version v))
| vs_install_other v :
    version_step v
      (TransactionTid.set_version v (TransactionTid.add v increment_value))
| vs_unlock v :
    version_step v (TransactionTid.unlock v).

(** Two cells that differ at most in the increment field of a leaf version. *)
Definition similar_cell (c c' : cell V) : Prop :=
  match c, c' with
  | Node n, Node n' => n = n'
  | Leaf l, Leaf l' =>
    vv_value l = vv_value l' ∧
    TransactionTid.is_locked (vv_version l) = TransactionTid.is_locked (vv_version l') ∧
    has_flag (vv_version l) valid_bit = has_flag (vv_version l') valid_bit ∧
    has_flag (vv_version l) ver_insert_bit = has_flag (vv_version l') ver_insert_bit
  | _, _ => False
  end.

(** Two stores with the same cells at the same addresses, up to the
    increment fields of the leaves. *)
Definition similar (h h' : store) : Prop :=
  ∀ p, match h !! p, h' !! p with
       | Some c, Some c' => similar_cell c c'
       | None, None => True
       | _, _ => False
       end.

(** The child indices [insert_nodes] and [get_value] walk along for a key. *)
Definition path_of (k : K) : list nat := map Z.to_nat (t_key_of k).

(** The writes to the leaf [p] of [k]: a [put], a [remove], or the [install]
    of some item of the leaf. *)
Definition writes_leaf (k : K) (p : ptr) (a : action) : Prop :=
  (∃ v, a = Put k v) ∨ a = Remove k ∨
  (∃ item : TransItem V, a = Install item ∧ key item = p).

(** *** Operations with the other threads in view *)

(** [trans_get] reads shared memory at three places, and other threads may
    run between them: [h0] is the store during the descent of line 60, [h1]
    the store when the version word is read (line 65 when there is no leaf,
    line 80 when there is one), [h2] the store during the snapshot of
    line 87.  With one store given three times this is [trans_get]. *)
Definition trans_get_at (fuel : nat) (k : K) (out : V) (h0 h1 h2 : store)
    (txn : transaction) : res (bool * V * transaction) :=
  '(is_vv, p) ← get_value k h0;
  if negb is_vv then
    node ← as_node h1 p;
    let item := Sto_item txn p in
    let item := add_read item (version node) in
    let item := add_flags item item_empty_bit in
    Done (false, out, <[p := item]> txn)
  else
    let item := Sto_item txn p in
    if has_write item then
      w ← write_value item;
      Done (true, w, <[p := item]> txn)
    else
      l ← as_leaf h1 p;
      let ver := vv_version l in
      changed ← (if has_read item
                 then r ← read_value item;
                      Done (negb (TransactionTid.same_version r ver))
                 else Done false);
      if changed : bool then Abort
      else
        '(val, ver) ← atomic_read fuel h2 p;
        let item := add_read item ver in
        Done (has_flag ver valid_bit, val, <[p := item]> txn).

(** [trans_remove] likewise: [h0] is the store during the descent of
    line 219, [h1] the store when line 225 reads the version of the node. *)
Definition trans_remove_at (k : K) (h0 h1 : store) (txn : transaction)
  : res transaction :=
  '(is_vv, p) ← get_value k h0;
  if negb is_vv then
    node ← as_node h1 p;
    let item := Sto_item txn p in
    let item := add_read item (version node) in
    let item := add_flags item item_empty_bit in
    Done (<[p := item]> txn)
  else
    let item := Sto_item txn p in
    let item := add_write item (PBool true) in
    let item := add_flags item item_remove_bit in
    Done (<[p := item]> txn).

(** [put] up to line 159: the leaf is there, its lock is held and it has its
    new version; the payload is still the old one. *)
Definition put_version_stored (k : K) (h : store) : res (ptr * store) :=
  '(vv, h) ← insert_nodes k h;
  l ← as_leaf h vv;
  locked ← TransactionTid.lock (vv_version l);
  let ver := put_version locked in
  Done (vv, <[vv := Leaf (mk_versioned_value ver (vv_value l))]> h).

(** Lines 160-162 of [put]: the payload is stored and the lock released. *)
Definition put_value_stored (vv : ptr) (v : V) (h : store) : res store :=
  l ← as_leaf h vv;
  Done (<[vv := Leaf (mk_versioned_value (TransactionTid.unlock (vv_version l)) v)]> h).

(** Modelled from the spec: the commit of the transaction manager
    (Transaction.hh) for a transaction of its own that ran [trans_put(k, v)]
    and nothing else: [lock], [install] and [unlock] on its one item, which
    recorded no read to check. *)
Definition committed_trans_put (k : K) (v : V) (h : store) : res store :=
  '(h, txn) ← trans_put k v h ∅;
  '(_, vv) ← get_value k h;
  let item := Sto_item txn vv in
  h ← lock item h;
  h ← install item h;
  unlock item h.

End RadixTree.

(** ** A sample instantiation *)

(** Integer payloads; the [bool] marker read back as an integer is 0 or 1. *)
Definition Z_payload : Payload Z :=
  {| default_value := 0; from_marker := λ b, if b then 1 else 0 |}.

(** The store a history leaves behind, starting from the empty tree. *)
Definition tree_after `{StoConvention} {K V : Type} `{KeyTransformer K} `{Payload V}
  (acts : list (action (K := K) (V := V))) : gmap ptr (cell V) :=
  match run acts empty_tree with
  | Done h => h
  | _ => empty_tree
  end.

(** The tree after [put(5, 42)]: sixteen interior nodes and the leaf. *)
Definition one_key : gmap ptr (cell Z) :=
  @tree_after sto_convention Z Z DefaultKeyTransformer_uint64 Z_payload [Put 5 42].

(** The same tree once the increment field of the leaf has reached its
    largest value. *)
Definition one_key_worn : gmap ptr (cell Z) :=
  <[16%nat := Leaf (mk_versioned_value (2 ^ 64 - 14) 42)]> one_key.

(** * Properties *)

(** ** The key transformer *)

Lemma group_div_mod key (m : nat) :
  Z.land (Z.shiftr key (4 * Z.of_nat m)) 15 = (key / 16 ^ Z.of_nat m) mod 16.
Proof.
  change 15 with (Z.ones 4). rewrite Z.land_ones by lia.
  rewrite Z.shiftr_div_pow2 by lia.
  rewrite Z.pow_mul_r by lia. reflexivity.
Qed.

Lemma transform_uint64_groups key buf :
  length buf = 16%nat → transform_uint64 key buf = groups 16 key.
Proof.
  intros Hlen.
  do 16 (destruct buf as [|? buf]; [discriminate Hlen|]).
  destruct buf; [|discriminate Hlen].
  cbv -[Z.land Z.shiftr]. reflexivity.
Qed.

Lemma groups_length n key : length (groups n key) = n.
Proof. induction n; simpl; congruence. Qed.

Lemma groups_range n key x : x ∈ groups n key → 0 ≤ x < 16.
Proof.
  induction n as [|n IH]; simpl; intros Hx.
  - inversion Hx.
  - apply elem_of_cons in Hx as [->|Hx]; [|auto].
    rewrite group_div_mod. apply Z.mod_pos_bound. lia.
Qed.

Lemma groups_lookup n key (j : nat) :
  (j < n)%nat →
  groups n key !! j = Some ((key / 16 ^ Z.of_nat (n - 1 - j)) mod 16).
Proof.
  revert j. induction n as [|n IH]; intros j Hj; [lia|].
  destruct j as [|j]; simpl.
  - rewrite group_div_mod, !Nat.sub_0_r. reflexivity.
  - rewrite IH by lia. rewrite Nat.sub_0_r.
    replace (n - S j)%nat with (n - 1 - j)%nat by lia. reflexivity.
Qed.

(** Numeric order on the low [4n] bits is lexicographic order on the groups. *)
Lemma groups_lex n a b :
  a mod 16 ^ Z.of_nat n < b mod 16 ^ Z.of_nat n →
  lex_lt (groups n a) (groups n b).
Proof.
  revert a b. induction n as [|n IH]; intros a b Hab.
  - simpl in Hab. rewrite !Z.mod_1_r in Hab. lia.
  - simpl groups. cbn [lex_lt]. rewrite !group_div_mod.
    assert (Hp : 0 < 16 ^ Z.of_nat n) by (apply Z.pow_pos_nonneg; lia).
    assert (Hsplit : ∀ x, x mod 16 ^ Z.of_nat (S n)
              = 16 ^ Z.of_nat n * ((x / 16 ^ Z.of_nat n) mod 16) + x mod 16 ^ Z.of_nat n).
    { intros x. replace (16 ^ Z.of_nat (S n)) with (16 ^ Z.of_nat n * 16).
      - rewrite Z.rem_mul_r by lia. lia.
      - rewrite Nat2Z.inj_succ, Z.pow_succ_r by lia. lia. }
    rewrite (Hsplit a), (Hsplit b) in Hab.
    pose proof (Z.mod_pos_bound a (16 ^ Z.of_nat n) Hp).
    pose proof (Z.mod_pos_bound b (16 ^ Z.of_nat n) Hp).
    destruct (Z.lt_trichotomy ((a / 16 ^ Z.of_nat n) mod 16)
                ((b / 16 ^ Z.of_nat n) mod 16)) as [Hlt|[Heq|Hgt]].
    + left. exact Hlt.
    + right. split; [exact Heq|]. apply IH. rewrite Heq in Hab. lia.
    + exfalso. nia.
Qed.

(** ** Tactics *)

(** Name the bit positions of the convention. *)
Ltac conv Hok :=
  pose proof (valid_single Hok) as Eva;
  pose proof (insert_single Hok) as Eins;
  pose proof (increment_single Hok) as Einc;
  pose proof (valid_pos Hok) as Ha;
  pose proof (insert_pos Hok) as Hb;
  pose proof (valid_insert_distinct Hok) as Hab;
  pose proof (increment_pos Hok) as Hc;
  unfold ver_insert_bit in *;
  change TransactionTid.lock_bit with (2 ^ 0) in *;
  set (a := Z.log2 valid_bit) in *;
  set (b := Z.log2 user_bit1) in *;
  set (c := Z.log2 increment_value) in *;
  clearbody a b c.

(** Discharge the premises of [Hx] that are among the hypotheses. *)
Ltac feed Hx :=
  repeat match type of Hx with
         | ?P → _ =>
           let HP := fresh in
           assert (HP : P) by assumption; specialize (Hx HP); clear HP
         end.

(** ** Version words *)

Section bits.

Lemma land_pow2 x i :
  0 ≤ i → Z.land x (2 ^ i) = if Z.testbit x i then 2 ^ i else 0.
Proof.
  intros Hi. apply Z.bits_inj'. intros n Hn.
  rewrite Z.land_spec, Z.pow2_bits_eqb by lia.
  destruct (Z.eqb_spec i n) as [->|Hne].
  - destruct (Z.testbit x n) eqn:E; simpl.
    + rewrite Z.pow2_bits_true by lia. reflexivity.
    + rewrite Z.bits_0. reflexivity.
  - rewrite andb_false_r. destruct (Z.testbit x i).
    + rewrite Z.pow2_bits_false by lia. reflexivity.
    + rewrite Z.bits_0. reflexivity.
Qed.

Lemma ldiff_land_sum x m : Z.ldiff x m + Z.land x m = x.
Proof.
  assert (Hdisj : Z.land (Z.ldiff x m) (Z.land x m) = 0).
  { apply Z.bits_inj'. intros n _.
    rewrite !Z.land_spec, Z.ldiff_spec, Z.bits_0.
    destruct (Z.testbit x n), (Z.testbit m n); reflexivity. }
  pose proof (Z.add_lor_land (Z.ldiff x m) (Z.land x m)) as Hs.
  rewrite Z.lor_ldiff_and, Hdisj in Hs. lia.
Qed.

Lemma ldiff_bounds x m : 0 ≤ x → 0 ≤ m → x - m ≤ Z.ldiff x m ≤ x.
Proof.
  intros Hx Hm. pose proof (ldiff_land_sum x m) as Hs.
  assert (0 ≤ Z.land x m) by (apply Z.land_nonneg; auto).
  assert (Z.land x m ≤ m).
  { pose proof (ldiff_land_sum m x) as Hs'. rewrite (Z.land_comm m x) in Hs'.
    assert (0 ≤ Z.ldiff m x) by (apply Z.ldiff_nonneg; auto). lia. }
  lia.
Qed.

Lemma lor_bounds x m : 0 ≤ x → 0 ≤ m → x ≤ Z.lor x m ≤ x + m.
Proof.
  intros Hx Hm. pose proof (Z.add_lor_land x m) as Hs.
  assert (0 ≤ Z.land x m) by (apply Z.land_nonneg; auto).
  assert (0 ≤ Z.ldiff m x) by (apply Z.ldiff_nonneg; auto).
  pose proof (ldiff_land_sum m x) as Hs'. rewrite (Z.land_comm m x) in Hs'.
  lia.
Qed.


Context `{StoConvention}.

Lemma wrap_range x : 0 ≤ tid_bits → 0 ≤ TransactionTid.wrap x < 2 ^ tid_bits.
Proof.
  intros Hb. unfold TransactionTid.wrap. apply Z.mod_pos_bound.
  apply Z.pow_pos_nonneg; lia.
Qed.

Lemma wrap_small x : 0 ≤ x < 2 ^ tid_bits → TransactionTid.wrap x = x.
Proof. intros Hx. unfold TransactionTid.wrap. apply Z.mod_small. exact Hx. Qed.

(** On a word, [x & ~m] clears the bits of [m]. *)
Lemma land_compl x m :
  0 ≤ tid_bits → 0 ≤ x < 2 ^ tid_bits →
  Z.land x (TransactionTid.compl m) = Z.ldiff x m.
Proof.
  intros Hb Hx. apply Z.bits_inj'. intros n Hn.
  rewrite Z.land_spec, Z.ldiff_spec.
  unfold TransactionTid.compl, TransactionTid.wrap.
  rewrite Z.testbit_mod_pow2 by lia.
  destruct (Z.ltb_spec n tid_bits) as [Hlt|Hge]; simpl.
  - rewrite Z.lnot_spec by lia. reflexivity.
  - rewrite <- (Z.mod_small x (2 ^ tid_bits)) by lia.
    rewrite Z.mod_pow2_bits_high by lia. reflexivity.
Qed.

Lemma lor_word x m :
  0 ≤ tid_bits → 0 ≤ x < 2 ^ tid_bits → 0 ≤ m < 2 ^ tid_bits →
  0 ≤ Z.lor x m < 2 ^ tid_bits.
Proof.
  intros Hb Hx Hm.
  rewrite <- (Z.mod_small x (2 ^ tid_bits)), <- (Z.mod_small m (2 ^ tid_bits)) by lia.
  rewrite <- !Z.land_ones, <- Z.land_lor_distr_l, Z.land_ones by lia.
  apply Z.mod_pos_bound. apply Z.pow_pos_nonneg; lia.
Qed.

Lemma ldiff_word x m :
  0 ≤ x < 2 ^ tid_bits → 0 ≤ m → 0 ≤ Z.ldiff x m < 2 ^ tid_bits.
Proof.
  intros Hx Hm. pose proof (ldiff_bounds x m (proj1 Hx) Hm).
  assert (0 ≤ Z.ldiff x m) by (apply Z.ldiff_nonneg; lia). lia.
Qed.

Lemma has_flag_testbit x i : 0 ≤ i → has_flag x (2 ^ i) = Z.testbit x i.
Proof.
  intros Hi. unfold has_flag. rewrite land_pow2 by lia.
  destruct (Z.testbit x i); simpl.
  - destruct (Z.eqb_spec (2 ^ i) 0) as [E|E]; [|reflexivity].
    pose proof (Z.pow_pos_nonneg 2 i). lia.
  - reflexivity.
Qed.

Lemma is_locked_testbit x : TransactionTid.is_locked x = Z.testbit x 0.
Proof. apply (has_flag_testbit x 0). lia. Qed.

Lemma testbit_lor_pow2 x i j :
  0 ≤ j → Z.testbit (Z.lor x (2 ^ j)) i = Z.testbit x i || (j =? i).
Proof. intros Hj. rewrite Z.lor_spec, Z.pow2_bits_eqb by lia. reflexivity. Qed.

Lemma testbit_ldiff_pow2 x i j :
  0 ≤ j → Z.testbit (Z.ldiff x (2 ^ j)) i = Z.testbit x i && negb (j =? i).
Proof. intros Hj. rewrite Z.ldiff_spec, Z.pow2_bits_eqb by lia. reflexivity. Qed.

(** Adding the increment leaves the bits below it alone. *)
Lemma testbit_add_pow2 x i c :
  0 ≤ i < c → c ≤ tid_bits →
  Z.testbit (TransactionTid.wrap (x + 2 ^ c)) i = Z.testbit x i.
Proof.
  intros Hi Hc. unfold TransactionTid.wrap.
  rewrite Z.mod_pow2_bits_low by lia.
  rewrite <- (Z.mod_pow2_bits_low (x + 2 ^ c) c i) by lia.
  replace (x + 2 ^ c) with (x + 1 * 2 ^ c) by lia. rewrite Z.mod_add.
  - apply Z.mod_pow2_bits_low. lia.
  - pose proof (Z.pow_pos_nonneg 2 c). lia.
Qed.

Lemma div_lor_low x m c :
  0 ≤ c → 0 ≤ m < 2 ^ c → Z.lor x m / 2 ^ c = x / 2 ^ c.
Proof.
  intros Hc Hm. rewrite <- !Z.shiftr_div_pow2 by lia.
  rewrite Z.shiftr_lor, (Z.shiftr_div_pow2 m) by lia.
  rewrite (Z.div_small m) by lia. apply Z.lor_0_r.
Qed.

Lemma div_ldiff_low x m c :
  0 ≤ c → 0 ≤ m < 2 ^ c → Z.ldiff x m / 2 ^ c = x / 2 ^ c.
Proof.
  intros Hc Hm. rewrite <- !Z.shiftr_div_pow2 by lia.
  rewrite Z.shiftr_ldiff, (Z.shiftr_div_pow2 m) by lia.
  rewrite (Z.div_small m) by lia. apply Z.ldiff_0_r.
Qed.


Lemma pow2_word i : 0 ≤ i < tid_bits → 0 ≤ 2 ^ i < 2 ^ tid_bits.
Proof.
  intros Hi. split.
  - apply Z.pow_nonneg. lia.
  - apply Z.pow_lt_mono_r; lia.
Qed.

Context (Hok : convention_ok).

Lemma sto_convention_is_ok : @convention_ok sto_convention.
Proof. constructor; vm_compute; try reflexivity; try (split; congruence); congruence. Qed.


Ltac word :=
  repeat first
    [ apply wrap_range
    | apply lor_word
    | apply ldiff_word
    | apply pow2_word
    | apply Z.pow_nonneg
    | lia ].

Ltac bits :=
  rewrite ?has_flag_testbit, ?is_locked_testbit by lia;
  rewrite ?testbit_ldiff_pow2, ?testbit_lor_pow2, ?testbit_add_pow2 by lia;
  repeat match goal with
         | |- context [?x =? ?y] => destruct (Z.eqb_spec x y); try lia
         end;
  rewrite ?orb_false_r, ?orb_true_r, ?andb_false_r, ?andb_true_r; simpl;
  try reflexivity.

Lemma put_version_eq old :
  put_version old =
  Z.ldiff (Z.lor (TransactionTid.wrap (old + increment_value)) valid_bit)
    ver_insert_bit.
Proof.
  unfold put_version, TransactionTid.add. cbv zeta. conv Hok.
  rewrite land_compl; [reflexivity|lia|].
  rewrite Eva. word.
Qed.

Lemma remove_version_eq old :
  remove_version old =
  Z.ldiff (Z.ldiff (TransactionTid.wrap (old + increment_value)) valid_bit)
    ver_insert_bit.
Proof.
  unfold remove_version, TransactionTid.add. cbv zeta. conv Hok.
  rewrite land_compl; [|lia|word].
  rewrite Z.ldiff_ldiff_l. reflexivity.
Qed.

Lemma install_remove_version_eq old :
  install_remove_version old = remove_version old.
Proof.
  rewrite remove_version_eq.
  unfold install_remove_version, TransactionTid.add. cbv zeta. conv Hok.
  rewrite (land_compl (TransactionTid.wrap _)); [|lia|word].
  rewrite land_compl; [reflexivity|lia|].
  rewrite Eva. word.
Qed.

Lemma unlock_eq v : 0 ≤ v < 2 ^ tid_bits → TransactionTid.unlock v = unlocked v.
Proof.
  intros Hv. unfold TransactionTid.unlock, unlocked. conv Hok.
  apply land_compl; lia.
Qed.


(** *** What each update does to the flag bits *)

Lemma put_version_word old :
  0 ≤ put_version old < 2 ^ tid_bits.
Proof.
  rewrite put_version_eq. conv Hok.
  rewrite Eva, Eins. word.
Qed.

Lemma put_version_valid old :
  has_flag (put_version old) valid_bit = true.
Proof.
  rewrite put_version_eq. conv Hok.
  rewrite Einc, Eva, Eins. bits.
Qed.

Lemma put_version_insert old :
  has_flag (put_version old) ver_insert_bit = false.
Proof.
  rewrite put_version_eq. conv Hok.
  rewrite Einc, Eva, Eins. bits.
Qed.

Lemma put_version_locked old :
  TransactionTid.is_locked (put_version old) = TransactionTid.is_locked old.
Proof.
  rewrite put_version_eq. conv Hok.
  rewrite Einc, Eva, Eins. bits.
Qed.

Lemma remove_version_word old :
  0 ≤ remove_version old < 2 ^ tid_bits.
Proof.
  rewrite remove_version_eq. conv Hok.
  rewrite Eva, Eins. word.
Qed.

Lemma remove_version_valid old :
  has_flag (remove_version old) valid_bit = false.
Proof.
  rewrite remove_version_eq. conv Hok.
  rewrite Einc, Eva, Eins. bits.
Qed.

Lemma remove_version_insert old :
  has_flag (remove_version old) ver_insert_bit = false.
Proof.
  rewrite remove_version_eq. conv Hok.
  rewrite Einc, Eva, Eins. bits.
Qed.

Lemma remove_version_locked old :
  TransactionTid.is_locked (remove_version old) = TransactionTid.is_locked old.
Proof.
  rewrite remove_version_eq. conv Hok.
  rewrite Einc, Eva, Eins. bits.
Qed.

Lemma add_increment_word old :
  0 ≤ TransactionTid.add old increment_value < 2 ^ tid_bits.
Proof. conv Hok. unfold TransactionTid.add. word. Qed.

Lemma add_increment_valid old :
  has_flag (TransactionTid.add old increment_value) valid_bit = has_flag old valid_bit.
Proof. conv Hok. unfold TransactionTid.add. rewrite Einc, Eva. bits. Qed.

Lemma add_increment_insert old :
  has_flag (TransactionTid.add old increment_value) ver_insert_bit
  = has_flag old ver_insert_bit.
Proof. conv Hok. unfold TransactionTid.add. rewrite Einc, Eins. bits. Qed.

Lemma add_increment_locked old :
  TransactionTid.is_locked (TransactionTid.add old increment_value)
  = TransactionTid.is_locked old.
Proof. conv Hok. unfold TransactionTid.add. rewrite Einc. bits. Qed.

Lemma lock_done v :
  TransactionTid.is_locked v = false →
  TransactionTid.lock v = Done (Z.lor v TransactionTid.lock_bit).
Proof. intros Hv. unfold TransactionTid.lock. rewrite Hv. reflexivity. Qed.

Lemma locked_word v :
  0 ≤ v < 2 ^ tid_bits → 0 ≤ Z.lor v TransactionTid.lock_bit < 2 ^ tid_bits.
Proof. intros Hv. conv Hok. word. Qed.

Lemma locked_valid v :
  has_flag (Z.lor v TransactionTid.lock_bit) valid_bit = has_flag v valid_bit.
Proof. conv Hok. rewrite Eva. bits. Qed.

Lemma locked_insert v :
  has_flag (Z.lor v TransactionTid.lock_bit) ver_insert_bit
  = has_flag v ver_insert_bit.
Proof. conv Hok. rewrite Eins. bits. Qed.

Lemma locked_is_locked v :
  TransactionTid.is_locked (Z.lor v TransactionTid.lock_bit) = true.
Proof. conv Hok. bits. Qed.

Lemma unlocked_word v :
  0 ≤ v < 2 ^ tid_bits → 0 ≤ unlocked v < 2 ^ tid_bits.
Proof. intros Hv. unfold unlocked. conv Hok. word. Qed.

Lemma unlocked_valid v : has_flag (unlocked v) valid_bit = has_flag v valid_bit.
Proof. unfold unlocked. conv Hok. rewrite Eva. bits. Qed.

Lemma unlocked_insert v :
  has_flag (unlocked v) ver_insert_bit = has_flag v ver_insert_bit.
Proof. unfold unlocked. conv Hok. rewrite Eins. bits. Qed.

Lemma unlocked_is_locked v : TransactionTid.is_locked (unlocked v) = false.
Proof. unfold unlocked. conv Hok. bits. Qed.

Lemma unlocked_id v : TransactionTid.is_locked v = false → unlocked v = v.
Proof.
  intros Hv. unfold unlocked. rewrite is_locked_testbit in Hv.
  apply Z.bits_inj'. intros n Hn. rewrite Z.ldiff_spec.
  change TransactionTid.lock_bit with (2 ^ 0). rewrite Z.pow2_bits_eqb by lia.
  destruct (Z.eqb_spec 0 n) as [<-|Hne].
  - rewrite Hv. reflexivity.
  - apply andb_true_r.
Qed.

Lemma unlocked_locked v : unlocked (Z.lor v TransactionTid.lock_bit) = unlocked v.
Proof.
  unfold unlocked. apply Z.bits_inj'. intros n Hn.
  rewrite !Z.ldiff_spec, Z.lor_spec.
  destruct (Z.testbit v n), (Z.testbit TransactionTid.lock_bit n); reflexivity.
Qed.

End bits.

Section more_bits.
Context `{StoConvention} (Hok : convention_ok).

Lemma lor_lock_bit v :
  TransactionTid.is_locked v = false → Z.lor v TransactionTid.lock_bit = v + 1.
Proof.
  intros Hv. unfold TransactionTid.is_locked in Hv.
  apply negb_false_iff, Z.eqb_eq in Hv.
  pose proof (Z.add_lor_land v TransactionTid.lock_bit) as Hs.
  rewrite Hv in Hs. unfold TransactionTid.lock_bit in *. lia.
Qed.

Lemma increment_value_pos : 0 < increment_value.
Proof.
  rewrite (increment_single Hok). apply Z.pow_pos_nonneg; [lia|].
  pose proof (valid_pos Hok). lia.
Qed.

Lemma increment_value_even : increment_value mod 2 = 0.
Proof.
  rewrite (increment_single Hok). pose proof (valid_pos Hok).
  replace (Z.log2 increment_value) with (Z.succ (Z.log2 increment_value - 1)) by lia.
  rewrite Z.pow_succ_r by lia. rewrite Z.mul_comm. apply Z.mod_mul. lia.
Qed.

Lemma increment_value_bound : 32 * increment_value ≤ 2 ^ tid_bits.
Proof.
  pose proof (increment_pos Hok). pose proof (valid_pos Hok).
  rewrite (increment_single Hok) at 1.
  change 32 with (2 ^ 5). rewrite <- Z.pow_add_r by lia.
  apply Z.pow_le_mono_r; lia.
Qed.

Lemma is_locked_even v : TransactionTid.is_locked v = false ↔ v mod 2 = 0.
Proof.
  rewrite is_locked_testbit, Z.bit0_eqb.
  pose proof (Z.mod_pos_bound v 2).
  destruct (Z.eqb_spec (v mod 2) 1); split; intros; try congruence; lia.
Qed.

Lemma node_version_unlocked k :
  TransactionTid.is_locked (increment_value * k) = false.
Proof.
  apply is_locked_even. pose proof increment_value_even as He.
  rewrite <- Z.mul_mod_idemp_l, He by lia. reflexivity.
Qed.

(** The version of a node after lines 190, 197 and 208. *)
Lemma bump_version v :
  0 ≤ v → TransactionTid.is_locked v = false →
  v + increment_value + 1 < 2 ^ tid_bits →
  TransactionTid.unlock
    (TransactionTid.set_version (Z.lor v TransactionTid.lock_bit)
       (TransactionTid.add (Z.lor v TransactionTid.lock_bit) increment_value))
  = v + increment_value.
Proof.
  intros Hv Hl Hb. pose proof increment_value_pos as Hp.
  unfold TransactionTid.set_version, TransactionTid.add.
  rewrite lor_lock_bit by assumption.
  rewrite wrap_small by lia.
  rewrite unlock_eq by (assumption || lia).
  pose proof (ldiff_land_sum (v + 1 + increment_value) TransactionTid.lock_bit) as Hs.
  unfold unlocked.
  assert (Z.land (v + 1 + increment_value) TransactionTid.lock_bit = 1); [|lia].
  change TransactionTid.lock_bit with (Z.ones 1). rewrite Z.land_ones by lia.
  apply is_locked_even in Hl. pose proof increment_value_even as He.
  change (2 ^ 1) with 2.
  rewrite <- Z.add_mod_idemp_r, He, Z.add_0_r by lia.
  rewrite <- Z.add_mod_idemp_l, Hl by lia. reflexivity.
Qed.

Lemma ver_insert_bit_word : 0 ≤ ver_insert_bit < 2 ^ tid_bits.
Proof.
  unfold ver_insert_bit. rewrite (insert_single Hok).
  pose proof (insert_pos Hok). pose proof (increment_pos Hok).
  apply pow2_word. lia.
Qed.

Lemma ver_insert_bit_state : leaf_state_ok ver_insert_bit.
Proof.
  unfold leaf_state_ok, ver_insert_bit. intros [_ Hv].
  pose proof (insert_pos Hok). pose proof (valid_pos Hok).
  pose proof (valid_insert_distinct Hok).
  rewrite (valid_single Hok), (insert_single Hok) in Hv.
  rewrite has_flag_testbit, Z.pow2_bits_false in Hv by lia. discriminate.
Qed.

Lemma ver_insert_bit_unlocked : TransactionTid.is_locked ver_insert_bit = false.
Proof.
  unfold ver_insert_bit. rewrite is_locked_testbit, (insert_single Hok).
  pose proof (insert_pos Hok). apply Z.pow2_bits_false. lia.
Qed.

End more_bits.

Section filled.

Lemma filled_replicate n : filled (replicate n None) = 0%nat.
Proof. induction n as [|n IH]; [reflexivity|]. exact IH. Qed.

Lemma filled_cons x cs :
  filled (x :: cs) = ((if x is Some _ then 1 else 0) + filled cs)%nat.
Proof. destruct x; reflexivity. Qed.

Lemma filled_le cs : (filled cs ≤ length cs)%nat.
Proof.
  induction cs as [|x cs IH]; [reflexivity|].
  rewrite filled_cons. destruct x; simpl; lia.
Qed.

Lemma filled_insert cs t c :
  cs !! t = Some None → filled (<[t := Some c]> cs) = S (filled cs).
Proof.
  revert t. induction cs as [|x cs IH]; intros [|t] Ht; try discriminate.
  - injection Ht as ->. reflexivity.
  - simpl in Ht. specialize (IH _ Ht).
    change (<[S t := Some c]> (x :: cs)) with (x :: <[t := Some c]> cs).
    rewrite !filled_cons, IH. lia.
Qed.

Lemma filled_mono cs cs' :
  length cs = length cs' →
  (∀ i x, cs !! i = Some (Some x) → cs' !! i = Some (Some x)) →
  (filled cs ≤ filled cs')%nat.
Proof.
  revert cs'. induction cs as [|y cs IH]; intros [|y' cs'] Hlen Hmono;
    try discriminate.
  - reflexivity.
  - rewrite !filled_cons.
    assert (filled cs ≤ filled cs')%nat.
    { apply IH; [simpl in Hlen; lia|].
      intros i z Hz. exact (Hmono (S i) z Hz). }
    destruct y as [y|]; [|destruct y'; simpl; lia].
    pose proof (Hmono 0%nat y eq_refl) as Hy. injection Hy as ->. simpl. lia.
Qed.

(** Filling one more slot, and emptying none, raises the count. *)
Lemma filled_grows cs cs' t c :
  length cs = length cs' →
  (∀ i x, cs !! i = Some (Some x) → cs' !! i = Some (Some x)) →
  cs !! t = Some None → cs' !! t = Some (Some c) →
  (filled cs < filled cs')%nat.
Proof.
  revert cs' t. induction cs as [|x cs IH]; intros [|x' cs'] t Hlen Hmono Ht Ht';
    try discriminate.
  rewrite !filled_cons.
  assert (Htl : ∀ i z, cs !! i = Some (Some z) → cs' !! i = Some (Some z)).
  { intros i z Hz. exact (Hmono (S i) z Hz). }
  assert (Hlen' : length cs = length cs') by (simpl in Hlen; lia).
  destruct t as [|t].
  - injection Ht as ->. injection Ht' as ->.
    pose proof (filled_mono cs cs' Hlen' Htl). simpl. lia.
  - pose proof (IH cs' t Hlen' Htl Ht Ht').
    destruct x as [x|]; [|destruct x'; simpl; lia].
    pose proof (Hmono 0%nat x eq_refl) as Hx. injection Hx as ->. simpl. lia.
Qed.

End filled.

(** ** Outcomes *)

Lemma bind_Done {A B} (m : res A) (f : A → res B) b :
  m ≫= f = Done b → ∃ a, m = Done a ∧ f a = Done b.
Proof. destruct m; simpl; intros Hm; try discriminate. eauto. Qed.

Lemma index_Done {A} (l : list A) i x : index l i = Done x ↔ l !! i = Some x.
Proof. unfold index. destruct (l !! i); split; congruence. Qed.

(** ** The store *)

Section store.
Context `{StoConvention}.
Context {K V : Type} `{KeyTransformer K} `{Payload V}.

Abbreviation store := (gmap ptr (cell V)).

Lemma as_node_Done (h : store) p n : as_node h p = Done n ↔ h !! p = Some (Node n).
Proof.
  unfold as_node. destruct (h !! p) as [[]|]; split; congruence.
Qed.

Lemma as_leaf_Done (h : store) p vv : as_leaf h p = Done vv ↔ h !! p = Some (Leaf vv).
Proof.
  unfold as_leaf. destruct (h !! p) as [[]|]; split; congruence.
Qed.

(** *** Paths *)

Lemma follow_app (h : store) cur p1 p2 :
  follow h cur (p1 ++ p2) = follow h cur p1 ≫= λ m, follow h m p2.
Proof.
  revert cur. induction p1 as [|t p1 IH]; intros cur; simpl; [reflexivity|].
  destruct (h !! cur) as [[n|]|]; try reflexivity.
  destruct (children n !! t) as [[c|]|]; try reflexivity. apply IH.
Qed.

Lemma follow_snoc (h : store) cur path t p :
  follow h cur (path ++ [t]) = Some p ↔
  ∃ m n, follow h cur path = Some m ∧ h !! m = Some (Node n) ∧
         children n !! t = Some (Some p).
Proof.
  rewrite follow_app. split.
  - intros Hf. destruct (follow h cur path) as [m|] eqn:Hm; [|discriminate].
    simpl in Hf. destruct (h !! m) as [[n|]|] eqn:Hn; try discriminate.
    destruct (children n !! t) as [[c|]|] eqn:Hc; try discriminate.
    exists m, n. repeat split; congruence.
  - intros (m & n & -> & Hn & Hc). simpl. rewrite Hn, Hc. reflexivity.
Qed.

(** Paths survive in an extension of the store. *)
Lemma follow_extends (h h' : store) cur path p :
  extends h h' → follow h cur path = Some p → follow h' cur path = Some p.
Proof.
  intros [Hnodes _]. revert cur. induction path as [|t path IH]; intros cur; simpl.
  - trivial.
  - destruct (h !! cur) as [[n|]|] eqn:Hn; try discriminate.
    destruct (children n !! t) as [[c|]|] eqn:Hc; try discriminate.
    destruct (Hnodes _ _ Hn) as (n' & -> & Hmono).
    rewrite (Hmono _ _ Hc). apply IH.
Qed.

Lemma extends_refl (h : store) : extends h h.
Proof. split; eauto. Qed.

Lemma extends_trans (h1 h2 h3 : store) :
  extends h1 h2 → extends h2 h3 → extends h1 h3.
Proof.
  intros [N1 L1] [N2 L2]. split.
  - intros p n Hn. destruct (N1 _ _ Hn) as (n' & Hn' & M1).
    destruct (N2 _ _ Hn') as (n'' & Hn'' & M2). eauto 6.
  - intros p vv Hl. destruct (L1 _ _ Hl) as (vv' & Hl'). eauto.
Qed.

(** Writing a leaf in place changes no path. *)
Lemma follow_leaf_update (h : store) p vv vv' cur path :
  h !! p = Some (Leaf vv) →
  follow (<[p := Leaf vv']> h) cur path = follow h cur path.
Proof.
  intros Hp. revert cur. induction path as [|t path IH]; intros cur; simpl.
  - reflexivity.
  - destruct (decide (p = cur)) as [->|Hne].
    + rewrite lookup_insert_eq, Hp. reflexivity.
    + rewrite lookup_insert_ne by assumption.
      destruct (h !! cur) as [[n|]|]; try reflexivity.
      destruct (children n !! t) as [[c|]|]; try reflexivity. apply IH.
Qed.

Lemma extends_leaf_update (h : store) p vv vv' :
  h !! p = Some (Leaf vv) → extends h (<[p := Leaf vv']> h).
Proof.
  intros Hp. split.
  - intros q n Hq. exists n. split; [|auto].
    rewrite lookup_insert_ne; [assumption|congruence].
  - intros q l Hq. destruct (decide (p = q)) as [->|Hne].
    + rewrite lookup_insert_eq. eauto.
    + rewrite lookup_insert_ne by assumption. eauto.
Qed.

Lemma tree_inv_leaf_update (h : store) p vv vv' :
  tree_inv h → h !! p = Some (Leaf vv) →
  0 ≤ vv_version vv' < 2 ^ tid_bits → leaf_state_ok (vv_version vv') →
  tree_inv (<[p := Leaf vv']> h).
Proof.
  intros Hinv Hp Hword Hstate. split.
  - intros q n. destruct (decide (p = q)) as [->|Hne].
    + rewrite lookup_insert_eq. discriminate.
    + rewrite lookup_insert_ne by assumption. apply (inv_node _ Hinv).
  - intros q l. destruct (decide (p = q)) as [->|Hne].
    + rewrite lookup_insert_eq. intros [= <-]. auto.
    + rewrite lookup_insert_ne by assumption. apply (inv_leaf _ Hinv).
  - intros path q. rewrite (follow_leaf_update _ _ _ _ _ _ Hp). intros Hf Hlen.
    destruct (inv_interior _ Hinv _ _ Hf Hlen) as [n Hn]. exists n.
    rewrite lookup_insert_ne; [assumption|congruence].
  - intros path q. rewrite (follow_leaf_update _ _ _ _ _ _ Hp). intros Hf Hlen.
    destruct (inv_frontier _ Hinv _ _ Hf Hlen) as [l Hl].
    destruct (decide (p = q)) as [->|Hne].
    + rewrite lookup_insert_eq. eauto.
    + rewrite lookup_insert_ne by assumption. eauto.
  - intros path1 path2 q. rewrite !(follow_leaf_update _ _ _ _ _ _ Hp).
    apply (inv_inj _ Hinv).
Qed.

End store.

(** ** Growing the tree by one cell *)

Section reach.
Context `{StoConvention}.
Context {K V : Type} `{KeyTransformer K} `{Payload V}.

Abbreviation store := (gmap ptr (cell V)).

(** No path runs through a leaf. *)
Lemma follow_length (h : store) path p :
  tree_inv h → follow h root_ptr path = Some p → (length path ≤ buf_size)%nat.
Proof.
  intros Hinv Hf. destruct (decide (length path ≤ buf_size)%nat) as [|Hgt]; [assumption|].
  exfalso. rewrite <- (take_drop buf_size path), follow_app in Hf.
  destruct (follow h root_ptr (take buf_size path)) as [m|] eqn:Hm; [|discriminate].
  destruct (inv_frontier h Hinv _ _ Hm) as [vv Hvv].
  { rewrite length_take. lia. }
  simpl in Hf. destruct (drop buf_size path) as [|x rest] eqn:Hd.
  - apply (f_equal length) in Hd. rewrite length_drop in Hd. simpl in Hd. lia.
  - simpl in Hf. rewrite Hvv in Hf. discriminate.
Qed.

(** Every cell on a path is allocated. *)
Lemma follow_alloc (h : store) path p :
  tree_inv h → follow h root_ptr path = Some p → is_Some (h !! p).
Proof.
  intros Hinv Hf. pose proof (follow_length _ _ _ Hinv Hf) as Hle.
  destruct (decide (length path = buf_size)) as [Heq|Hne].
  - destruct (inv_frontier h Hinv _ _ Hf Heq) as [vv ->]. eauto.
  - destruct (inv_interior h Hinv _ _ Hf) as [n ->]; [lia|eauto].
Qed.

End reach.

Section fill.
Context `{StoConvention}.
Context {K V : Type} `{KeyTransformer K} `{Payload V}.
Context (Hok : convention_ok).

Variables (h : gmap ptr (cell V)) (pre : list nat) (cur f : ptr) (n : tree_node)
  (t : nat) (tz : Z).
Hypothesis Hinv : tree_inv h.
Hypothesis Hpre : follow h root_ptr pre = Some cur.
Hypothesis Hlen : (length pre < buf_size)%nat.
Hypothesis Hn : h !! cur = Some (Node n).
Hypothesis Ht : children n !! t = Some None.
Hypothesis Hf : h !! f = None.

(** The node after the new cell has been published in slot [t]. *)
Let n' : tree_node :=
  mk_tree_node (<[t := Some f]> (children n)) (parent_index n) (parent n)
    (version n + increment_value) (value n).

Let h' : gmap ptr (cell V) :=
  <[cur := Node n']> (<[f := new_node (length pre) cur tz]> h).

Lemma fill_cur_ne : cur ≠ f.
Proof. intros ->. rewrite Hn in Hf. discriminate. Qed.

Lemma fill_lookup_f : h' !! f = Some (new_node (length pre) cur tz).
Proof.
  unfold h'. rewrite lookup_insert_ne by apply fill_cur_ne.
  apply lookup_insert_eq.
Qed.

Lemma fill_lookup_cur : h' !! cur = Some (Node n').
Proof. apply lookup_insert_eq. Qed.

Lemma fill_lookup_other p : p ≠ cur → p ≠ f → h' !! p = h !! p.
Proof.
  intros Hp1 Hp2. unfold h'. rewrite !lookup_insert_ne by congruence. reflexivity.
Qed.

Lemma fill_t_lt : (t < length (children n))%nat.
Proof. apply lookup_lt_Some in Ht. exact Ht. Qed.

Lemma fill_extends : extends h h'.
Proof.
  split.
  - intros p m Hm. destruct (decide (p = cur)) as [->|Hne].
    + exists n'. split; [apply fill_lookup_cur|].
      rewrite Hn in Hm. injection Hm as <-. intros i c Hi. simpl.
      rewrite list_lookup_insert_ne; [assumption|]. intros ->. congruence.
    + exists m. split; [|auto]. rewrite fill_lookup_other; [assumption..|].
      intros ->. congruence.
  - intros p vv Hp. exists vv. rewrite fill_lookup_other; [assumption| |];
      intros ->; congruence.
Qed.

Lemma fill_new_childless m x c :
  new_node (length pre) cur tz = Node m → children m !! x ≠ Some (Some c).
Proof.
  unfold new_node. destruct (decide _); [discriminate|].
  intros [= <-]. unfold new_tree_node. cbn [children].
  intros Hx. apply lookup_replicate in Hx as [Hx _].
  discriminate.
Qed.

Lemma fill_follow_new : follow h' root_ptr (pre ++ [t]) = Some f.
Proof.
  apply follow_snoc. exists cur, n'. split; [|split].
  - apply (follow_extends h); [apply fill_extends|assumption].
  - apply fill_lookup_cur.
  - simpl. apply list_lookup_insert_eq. apply fill_t_lt.
Qed.

(** A path of the new store is an old one, or the one to the new cell. *)
Lemma fill_follow_inv path p :
  follow h' root_ptr path = Some p →
  follow h root_ptr path = Some p ∨ (path = pre ++ [t] ∧ p = f).
Proof.
  revert p. induction path as [|x path IH] using rev_ind; intros p Hp.
  - left. exact Hp.
  - apply follow_snoc in Hp as (m & nm & Hm & Hnm & Hx).
    destruct (IH _ Hm) as [Hold|[-> ->]].
    + destruct (follow_alloc _ _ _ Hinv Hold) as [cm Hcm].
      assert (m ≠ f) by (intros ->; congruence).
      destruct (decide (m = cur)) as [->|Hne].
      * assert (path = pre) as -> by (eapply (inv_inj h Hinv); eassumption).
        rewrite fill_lookup_cur in Hnm. injection Hnm as <-. simpl in Hx.
        destruct (decide (x = t)) as [->|Hxt].
        -- rewrite list_lookup_insert_eq in Hx by apply fill_t_lt.
           injection Hx as <-. right. auto.
        -- rewrite list_lookup_insert_ne in Hx by congruence.
           left. apply follow_snoc. eauto.
      * rewrite fill_lookup_other in Hnm by assumption.
        left. apply follow_snoc. eauto.
    + exfalso. rewrite fill_lookup_f in Hnm. injection Hnm as Hnm.
      exact (fill_new_childless _ _ _ Hnm Hx).
Qed.

Lemma fill_version_ok :
  length (children n') = Z.to_nat fanout ∧
  version n' = increment_value * (1 + Z.of_nat (filled (children n'))).
Proof.
  destruct (inv_node h Hinv _ _ Hn) as [Hl Hv]. simpl. split.
  - rewrite length_insert. exact Hl.
  - rewrite (filled_insert _ _ _ Ht), Hv. lia.
Qed.

Lemma fill_tree_inv : tree_inv h'.
Proof.
  split.
  - intros p m Hm. destruct (decide (p = cur)) as [->|Hne].
    { rewrite fill_lookup_cur in Hm. injection Hm as <-. apply fill_version_ok. }
    destruct (decide (p = f)) as [->|Hnf].
    { rewrite fill_lookup_f in Hm. unfold new_node in Hm.
      destruct (decide _); [discriminate|]. injection Hm as <-.
      unfold new_tree_node. cbn [children version].
      rewrite length_replicate, filled_replicate. split; [reflexivity|lia]. }
    rewrite fill_lookup_other in Hm by assumption. exact (inv_node h Hinv _ _ Hm).
  - intros p vv Hp. destruct (decide (p = cur)) as [->|Hne].
    { rewrite fill_lookup_cur in Hp. discriminate. }
    destruct (decide (p = f)) as [->|Hnf].
    { rewrite fill_lookup_f in Hp. unfold new_node in Hp.
      destruct (decide _); [|discriminate]. injection Hp as <-. simpl.
      split; [apply (ver_insert_bit_word Hok)|apply (ver_insert_bit_state Hok)]. }
    rewrite fill_lookup_other in Hp by assumption. exact (inv_leaf h Hinv _ _ Hp).
  - intros path p Hp Hl. destruct (fill_follow_inv _ _ Hp) as [Hold|[-> ->]].
    + destruct (inv_interior h Hinv _ _ Hold Hl) as [m Hm].
      destruct (proj1 fill_extends _ _ Hm) as (m' & Hm' & _). eauto.
    + rewrite fill_lookup_f. unfold new_node.
      rewrite length_app in Hl. simpl in Hl.
      destruct (decide _); [lia|eauto].
  - intros path p Hp Hl. destruct (fill_follow_inv _ _ Hp) as [Hold|[-> ->]].
    + destruct (inv_frontier h Hinv _ _ Hold Hl) as [vv Hvv].
      exact (proj2 fill_extends _ _ Hvv).
    + rewrite fill_lookup_f. unfold new_node.
      rewrite length_app in Hl. simpl in Hl.
      destruct (decide _); [eauto|lia].
  - intros path1 path2 p Hp1 Hp2.
    destruct (fill_follow_inv _ _ Hp1) as [Ho1|[-> ->]];
      destruct (fill_follow_inv _ _ Hp2) as [Ho2|[-> E2]].
    + exact (inv_inj h Hinv _ _ _ Ho1 Ho2).
    + subst p. destruct (follow_alloc _ _ _ Hinv Ho1). congruence.
    + destruct (follow_alloc _ _ _ Hinv Ho2). congruence.
    + reflexivity.
Qed.

(** Leaves are left alone; a new leaf is in the insert state. *)
Lemma fill_leaves p vv :
  h' !! p = Some (Leaf vv) →
  h !! p = Some (Leaf vv) ∨
  (h !! p = None ∧ vv = mk_versioned_value ver_insert_bit default_value).
Proof.
  intros Hp. destruct (decide (p = cur)) as [->|Hne].
  { rewrite fill_lookup_cur in Hp. discriminate. }
  destruct (decide (p = f)) as [->|Hnf].
  - rewrite fill_lookup_f in Hp. unfold new_node in Hp.
    destruct (decide _); [|discriminate]. injection Hp as <-. right. auto.
  - rewrite fill_lookup_other in Hp by assumption. left. exact Hp.
Qed.

Lemma fill_leaves_kept p vv : h !! p = Some (Leaf vv) → h' !! p = Some (Leaf vv).
Proof.
  intros Hp. rewrite fill_lookup_other; [assumption| |]; intros ->; congruence.
Qed.

(** Lines 190-208 on a slot that is still empty. *)
Lemma fill_publish :
  publish cur t f (<[f := new_node (length pre) cur tz]> h) = Done h'.
Proof.
  unfold publish, as_node. rewrite lookup_insert_ne by (intros E; apply fill_cur_ne; auto).
  rewrite Hn. simpl.
  destruct (inv_node h Hinv _ _ Hn) as [Hl Hv].
  rewrite lock_done by (rewrite Hv; apply (node_version_unlocked Hok)).
  simpl. unfold index. rewrite Ht. simpl.
  unfold h', n', with_version, with_child. simpl.
  rewrite (bump_version Hok).
  - reflexivity.
  - rewrite Hv. pose proof (increment_value_pos Hok). nia.
  - rewrite Hv. apply (node_version_unlocked Hok).
  - pose proof (filled_le (children n)). rewrite Hl in *.
    pose proof (increment_value_bound Hok). pose proof (increment_value_pos Hok).
    rewrite Hv. change (Z.to_nat fanout) with 16%nat in *. nia.
Qed.

End fill.

(** ** [insert_nodes] *)

Section insert.
Context `{StoConvention}.
Context {K V : Type} `{KeyTransformer K} `{Payload V}.
Context (Hok : convention_ok).

Abbreviation store := (gmap ptr (cell V)).


Lemma ret_bind {A B} (a : A) (f : A → res B) : Done a ≫= f = f a.
Proof. reflexivity. Qed.

Lemma grows_refl (h : store) : grows h h.
Proof. split; [apply extends_refl|]. split; auto. Qed.

Lemma grows_trans (h1 h2 h3 : store) : grows h1 h2 → grows h2 h3 → grows h1 h3.
Proof.
  intros (E1 & K1 & N1) (E2 & K2 & N2). split; [|split].
  - eapply extends_trans; eassumption.
  - auto.
  - intros p vv Hp. destruct (N2 _ _ Hp) as [Hp2|[Hp2 ->]].
    + apply N1. exact Hp2.
    + right. split; [|reflexivity].
      destruct (h1 !! p) as [[m|l]|] eqn:Hp1; [| |reflexivity].
      * destruct (proj1 E1 _ _ Hp1) as (m' & Hm' & _). congruence.
      * destruct (proj2 E1 _ _ Hp1) as (l' & Hl'). congruence.
Qed.

Lemma fresh_unused (h : store) : h !! fresh (dom h) = None.
Proof. apply not_elem_of_dom. apply is_fresh. Qed.

Lemma take_path (t_key : list Z) i tz :
  t_key !! i = Some tz →
  map Z.to_nat (take (S i) t_key) = map Z.to_nat (take i t_key) ++ [Z.to_nat tz].
Proof.
  intros Hi. rewrite (take_S_r _ _ _ Hi), map_app. reflexivity.
Qed.

Lemma insert_nodes_loop_spec (t_key : list Z) n :
  length t_key = buf_size →
  Forall (λ x, 0 ≤ x < fanout) t_key →
  ∀ i cur (h : store),
    tree_inv h → (i + n = buf_size)%nat →
    follow h root_ptr (map Z.to_nat (take i t_key)) = Some cur →
    ∃ p h', insert_nodes_loop n i t_key cur h = Done (p, h') ∧
            tree_inv h' ∧ grows h h' ∧
            follow h' root_ptr (map Z.to_nat t_key) = Some p.
Proof.
  intros Hlen Hrange. induction n as [|n IH]; intros i cur h Hinv Hi Hcur.
  - exists cur, h. simpl. rewrite take_ge in Hcur by lia.
    split; [reflexivity|]. split; [assumption|]. split; [apply grows_refl|assumption].
  - assert (Hpl : length (map Z.to_nat (take i t_key)) = i).
    { rewrite length_map, length_take. lia. }
    destruct (inv_interior h Hinv _ _ Hcur) as [node Hnode]; [lia|].
    destruct (lookup_lt_is_Some_2 t_key i) as [tz Htz]; [lia|].
    assert (Htr : 0 ≤ tz < fanout).
    { rewrite Forall_lookup in Hrange. exact (Hrange _ _ Htz). }
    destruct (inv_node h Hinv _ _ Hnode) as [Hcl Hcv].
    destruct (lookup_lt_is_Some_2 (children node) (Z.to_nat tz)) as [c Hc]; [lia|].
    pose proof (proj2 (as_node_Done h cur node) Hnode) as Enode.
    pose proof (proj2 (index_Done t_key i tz) Htz) as Etz.
    pose proof (proj2 (index_Done _ _ _) Hc) as Ec.
    cbn [insert_nodes_loop]. rewrite Enode, ret_bind, Etz, ret_bind, Ec, ret_bind.
    destruct c as [c|].
    + rewrite ret_bind, Enode, ret_bind, Ec, ret_bind.
      apply (IH (S i) c h Hinv); [lia|].
      rewrite (take_path _ _ _ Htz). apply follow_snoc. eauto.
    + unfold alloc. pose proof (fresh_unused h) as Hfresh.
      set (f := fresh (dom h)) in *.
      set (pre := map Z.to_nat (take i t_key)) in *.
      assert (Hlt : (length pre < buf_size)%nat) by lia.
      pose proof (fill_publish Hok h pre cur f node (Z.to_nat tz) tz) as Hpub.
      pose proof (fill_tree_inv Hok h pre cur f node (Z.to_nat tz) tz) as Hinv'.
      pose proof (fill_follow_new h pre cur f node (Z.to_nat tz) tz) as Hnew.
      pose proof (fill_extends h pre cur f node (Z.to_nat tz) tz) as Hext.
      pose proof (fill_leaves h pre cur f node (Z.to_nat tz) tz) as Hlv.
      pose proof (fill_leaves_kept h pre cur f node (Z.to_nat tz) tz) as Hkept.
      feed Hpub. feed Hinv'. feed Hnew. feed Hext. feed Hlv. feed Hkept.
      rewrite Hpl in *. rewrite Hpub, ret_bind.
      match type of Hinv' with tree_inv ?x => set (h' := x) in * end.
      destruct (follow_snoc h' root_ptr pre (Z.to_nat tz) f) as [Hsn _].
      destruct (Hsn Hnew) as (m & nm & Hm & Hnm & Hcm).
      assert (m = cur) as ->.
      { pose proof (follow_extends _ _ _ _ _ Hext Hcur). congruence. }
      rewrite (proj2 (as_node_Done h' cur nm) Hnm), ret_bind.
      rewrite (proj2 (index_Done _ _ _) Hcm), ret_bind.
      destruct (IH (S i) f h' Hinv') as (p & h'' & Hrun & Hinv'' & Hg & Hp); [lia| |].
      { rewrite (take_path _ _ _ Htz). exact Hnew. }
      exists p, h''. split; [exact Hrun|]. split; [exact Hinv''|]. split; [|exact Hp].
      eapply grows_trans; [|exact Hg].
      split; [exact Hext|]. split; assumption.
Qed.


Context `{!KeyTransformerOk K}.

Lemma t_key_length (k : K) : length (t_key_of k) = buf_size.
Proof. apply transform_length. apply length_replicate. Qed.

Lemma t_key_range (k : K) : Forall (λ x, 0 ≤ x < fanout) (t_key_of k).
Proof.
  apply Forall_forall. intros x Hx.
  apply (transform_range k (replicate buf_size 0)); [apply length_replicate|exact Hx].
Qed.

Lemma path_of_length (k : K) : length (path_of k) = buf_size.
Proof. unfold path_of. rewrite length_map. apply t_key_length. Qed.

Lemma insert_nodes_spec (k : K) (h : store) :
  tree_inv h →
  ∃ p h', insert_nodes k h = Done (p, h') ∧ tree_inv h' ∧ grows h h' ∧
          follow h' root_ptr (path_of k) = Some p.
Proof.
  intros Hinv. unfold insert_nodes, path_of.
  apply (insert_nodes_loop_spec (t_key_of k) buf_size (t_key_length k)
           (t_key_range k) 0%nat root_ptr h Hinv); [lia|reflexivity].
Qed.

(** *** [get_value] *)

(** Where a descent ends: at the leaf of the key, or at the node whose slot
    for the next index is empty. *)
Lemma get_value_loop_spec (t_key : list Z) n :
  length t_key = buf_size →
  Forall (λ x, 0 ≤ x < fanout) t_key →
  ∀ i cur (h : store),
    tree_inv h → (i + n = buf_size)%nat →
    follow h root_ptr (map Z.to_nat (take i t_key)) = Some cur →
    (∃ p, get_value_loop n i t_key cur h = Done (true, p) ∧
          follow h root_ptr (map Z.to_nat t_key) = Some p) ∨
    (∃ q j tz nq, get_value_loop n i t_key cur h = Done (false, q) ∧
          (j < buf_size)%nat ∧
          follow h root_ptr (map Z.to_nat (take j t_key)) = Some q ∧
          h !! q = Some (Node nq) ∧ t_key !! j = Some tz ∧
          children nq !! Z.to_nat tz = Some None).
Proof.
  intros Hlen Hrange. induction n as [|n IH]; intros i cur h Hinv Hi Hcur.
  - left. exists cur. simpl. rewrite take_ge in Hcur by lia. auto.
  - assert (Hpl : length (map Z.to_nat (take i t_key)) = i).
    { rewrite length_map, length_take. lia. }
    destruct (inv_interior h Hinv _ _ Hcur) as [node Hnode]; [lia|].
    destruct (lookup_lt_is_Some_2 t_key i) as [tz Htz]; [lia|].
    assert (Htr : 0 ≤ tz < fanout).
    { rewrite Forall_lookup in Hrange. exact (Hrange _ _ Htz). }
    destruct (inv_node h Hinv _ _ Hnode) as [Hcl Hcv].
    destruct (lookup_lt_is_Some_2 (children node) (Z.to_nat tz)) as [c Hc]; [lia|].
    cbn [get_value_loop].
    rewrite (proj2 (as_node_Done h cur node) Hnode), ret_bind.
    rewrite (proj2 (index_Done t_key i tz) Htz), ret_bind.
    rewrite (proj2 (index_Done _ _ _) Hc), ret_bind.
    destruct c as [c|].
    + apply (IH (S i) c h Hinv); [lia|].
      rewrite (take_path _ _ _ Htz). apply follow_snoc. eauto.
    + right. exists cur, i, tz, node. repeat split; try assumption. lia.
Qed.

Lemma get_value_found (k : K) (h : store) p :
  tree_inv h → follow h root_ptr (path_of k) = Some p →
  get_value k h = Done (true, p).
Proof.
  intros Hinv Hp.
  destruct (get_value_loop_spec (t_key_of k) buf_size (t_key_length k)
              (t_key_range k) 0%nat root_ptr h Hinv) as
    [(p' & Hrun & Hp')|(q & j & tz & nq & Hrun & Hj & Hq & Hnq & Htz & Hc)];
    [lia|reflexivity| |].
  - unfold get_value. rewrite Hrun. unfold path_of in Hp. congruence.
  - exfalso. unfold path_of in Hp.
    rewrite <- (take_drop (S j) (t_key_of k)), map_app, follow_app in Hp.
    rewrite (take_path _ _ _ Htz) in Hp.
    destruct (follow h root_ptr (map Z.to_nat (take j (t_key_of k)) ++ [Z.to_nat tz]))
      as [m|] eqn:Hm; [|discriminate].
    apply follow_snoc in Hm as (m' & nm & Hm' & Hnm & Hcm). congruence.
Qed.

Lemma get_value_spec (k : K) (h : store) :
  tree_inv h →
  (∃ p, get_value k h = Done (true, p) ∧ follow h root_ptr (path_of k) = Some p) ∨
  (∃ q j tz nq, get_value k h = Done (false, q) ∧ (j < buf_size)%nat ∧
        follow h root_ptr (take j (path_of k)) = Some q ∧
        h !! q = Some (Node nq) ∧ t_key_of k !! j = Some tz ∧
        children nq !! Z.to_nat tz = Some None).
Proof.
  intros Hinv.
  destruct (get_value_loop_spec (t_key_of k) buf_size (t_key_length k)
              (t_key_range k) 0%nat root_ptr h Hinv) as
    [(p' & Hrun & Hp')|(q & j & tz & nq & Hrun & Hj & Hq & Hnq & Htz & Hc)];
    [lia|reflexivity| |].
  - left. eauto.
  - right. exists q, j, tz, nq. unfold path_of. rewrite firstn_map. auto 10.
Qed.

End insert.

(** ** One operation at a time *)

Section steps.
Context `{StoConvention}.
Context {K V : Type} `{KeyTransformer K} `{Payload V}.
Context (Hok : convention_ok) `{!KeyTransformerOk K}.

Abbreviation store := (gmap ptr (cell V)).

Lemma version_step_word v v' :
  0 ≤ v < 2 ^ tid_bits → version_step v v' → 0 ≤ v' < 2 ^ tid_bits.
Proof.
  intros Hv Hs. pose proof (locked_word Hok v Hv) as Hlw.
  destruct Hs; unfold TransactionTid.set_version.
  - rewrite (unlock_eq Hok) by apply (put_version_word Hok).
    apply (unlocked_word Hok), (put_version_word Hok).
  - rewrite (unlock_eq Hok) by apply (remove_version_word Hok).
    apply (unlocked_word Hok), (remove_version_word Hok).
  - assumption.
  - apply (put_version_word Hok).
  - rewrite (install_remove_version_eq Hok). apply (remove_version_word Hok).
  - apply (add_increment_word Hok).
  - rewrite (unlock_eq Hok) by assumption. apply (unlocked_word Hok). assumption.
Qed.

Lemma version_step_state v v' :
  0 ≤ v < 2 ^ tid_bits → leaf_state_ok v → version_step v v' → leaf_state_ok v'.
Proof.
  intros Hv Hst Hs. unfold leaf_state_ok in *.
  destruct Hs; unfold TransactionTid.set_version.
  - rewrite (unlock_eq Hok) by apply (put_version_word Hok).
    rewrite (unlocked_insert Hok), (put_version_insert Hok).
    intros [? _]. discriminate.
  - rewrite (unlock_eq Hok) by apply (remove_version_word Hok).
    rewrite (unlocked_insert Hok), (remove_version_insert Hok).
    intros [? _]. discriminate.
  - rewrite (locked_insert Hok), (locked_valid Hok). assumption.
  - rewrite (put_version_insert Hok). intros [? _]. discriminate.
  - rewrite (install_remove_version_eq Hok).
    rewrite (remove_version_insert Hok). intros [? _]. discriminate.
  - rewrite (add_increment_insert Hok), (add_increment_valid Hok). assumption.
  - rewrite (unlock_eq Hok) by assumption.
    rewrite (unlocked_insert Hok), (unlocked_valid Hok). assumption.
Qed.

Lemma lock_Done_inv v w :
  TransactionTid.lock v = Done w →
  TransactionTid.is_locked v = false ∧ w = Z.lor v TransactionTid.lock_bit.
Proof.
  unfold TransactionTid.lock. destruct (TransactionTid.is_locked v); [discriminate|].
  intros [= <-]. auto.
Qed.

(** Every operation grows the tree, and then rewrites at most one leaf. *)
Lemma step_shape (a : action) (h h' : store) :
  tree_inv h → step a h = Done h' →
  ∃ h1, tree_inv h1 ∧ grows h h1 ∧
    (h' = h1 ∨
     ∃ p vv vv', h1 !! p = Some (Leaf vv) ∧ h' = <[p := Leaf vv']> h1 ∧
                 version_step (vv_version vv) (vv_version vv')).
Proof.
  intros Hinv Hstep. destruct a as [k v|k|k|item|item|item]; simpl in Hstep.
  - destruct (insert_nodes_spec Hok k h Hinv) as (p & h1 & Hins & Hinv1 & Hg & Hp).
    exists h1. split; [assumption|]. split; [assumption|]. right.
    unfold put in Hstep. rewrite Hins, ret_bind in Hstep.
    apply bind_Done in Hstep as (l & Hl & Hstep). apply as_leaf_Done in Hl.
    apply bind_Done in Hstep as (w & Hw & Hstep).
    apply lock_Done_inv in Hw as [Hul ->]. injection Hstep as <-.
    exists p, l, (mk_versioned_value
      (TransactionTid.unlock (put_version (Z.lor (vv_version l) TransactionTid.lock_bit))) v).
    split; [assumption|]. split; [reflexivity|]. simpl. constructor. assumption.
  - exists h. split; [assumption|]. split; [apply grows_refl|].
    unfold remove in Hstep. apply bind_Done in Hstep as ([is_vv p] & Hgv & Hstep).
    destruct is_vv; simpl in Hstep.
    + right. apply bind_Done in Hstep as (l & Hl & Hstep). apply as_leaf_Done in Hl.
      apply bind_Done in Hstep as (w & Hw & Hstep).
      apply lock_Done_inv in Hw as [Hul ->]. injection Hstep as <-.
      exists p, l, (mk_versioned_value
        (TransactionTid.unlock (remove_version (Z.lor (vv_version l) TransactionTid.lock_bit)))
        (vv_value l)).
      split; [assumption|]. split; [reflexivity|]. simpl. constructor. assumption.
    + left. congruence.
  - destruct (insert_nodes_spec Hok k h Hinv) as (p & h1 & Hins & Hinv1 & Hg & Hp).
    rewrite Hins, ret_bind in Hstep. injection Hstep as <-.
    exists h1. auto.
  - exists h. split; [assumption|]. split; [apply grows_refl|]. right.
    unfold lock in Hstep.
    apply bind_Done in Hstep as (l & Hl & Hstep). apply as_leaf_Done in Hl.
    apply bind_Done in Hstep as (w & Hw & Hstep).
    apply lock_Done_inv in Hw as [Hul ->]. injection Hstep as <-.
    eexists _, l, _. split; [eassumption|]. split; [reflexivity|].
    simpl. constructor. assumption.
  - exists h. split; [assumption|]. split; [apply grows_refl|]. right.
    unfold install in Hstep.
    apply bind_Done in Hstep as (l & Hl & Hstep). apply as_leaf_Done in Hl.
    apply bind_Done in Hstep as ([new_ver val] & Hnv & Hstep).
    injection Hstep as <-.
    eexists _, l, _. split; [eassumption|]. split; [reflexivity|]. simpl.
    destruct (has_flag (flags item) item_put_bit).
    { apply bind_Done in Hnv as (w & _ & Hnv). injection Hnv as <- <-. constructor. }
    destruct (has_flag (flags item) item_remove_bit); injection Hnv as <- <-; constructor.
  - exists h. split; [assumption|]. split; [apply grows_refl|]. right.
    unfold unlock in Hstep.
    apply bind_Done in Hstep as (l & Hl & Hstep). apply as_leaf_Done in Hl.
    injection Hstep as <-.
    eexists _, l, _. split; [eassumption|]. split; [reflexivity|].
    simpl. constructor.
Qed.

Lemma grows_extends (h h' : store) : grows h h' → extends h h'.
Proof. intros [E _]. exact E. Qed.

Lemma step_tree_inv (a : action) (h h' : store) :
  tree_inv h → step a h = Done h' → tree_inv h' ∧ extends h h'.
Proof.
  intros Hinv Hstep.
  destruct (step_shape a h h' Hinv Hstep) as (h1 & Hinv1 & Hg & [->|Hupd]).
  - split; [assumption|apply grows_extends; assumption].
  - destruct Hupd as (p & vv & vv' & Hp & -> & Hvs).
    destruct (inv_leaf h1 Hinv1 _ _ Hp) as [Hw Hst]. split.
    + apply (tree_inv_leaf_update h1 p vv vv' Hinv1 Hp).
      * exact (version_step_word _ _ Hw Hvs).
      * exact (version_step_state _ _ Hw Hst Hvs).
    + eapply extends_trans; [apply grows_extends; eassumption|].
      eapply extends_leaf_update. eassumption.
Qed.

Lemma run_app (acts1 acts2 : list action) (h : store) :
  run (acts1 ++ acts2) h = run acts1 h ≫= run acts2.
Proof.
  revert h. induction acts1 as [|a acts1 IH]; intros h; simpl; [reflexivity|].
  destruct (step a h); simpl; auto.
Qed.

Lemma run_tree_inv (acts : list action) (h h' : store) :
  tree_inv h → run acts h = Done h' → tree_inv h' ∧ extends h h'.
Proof.
  revert h. induction acts as [|a acts IH]; intros h Hinv Hrun; simpl in Hrun.
  - injection Hrun as <-. split; [assumption|apply extends_refl].
  - apply bind_Done in Hrun as (h1 & Hstep & Hrun).
    destruct (step_tree_inv _ _ _ Hinv Hstep) as [Hinv1 He1].
    destruct (IH _ Hinv1 Hrun) as [Hinv' He']. split; [assumption|].
    eapply extends_trans; eassumption.
Qed.

Lemma empty_tree_inv : tree_inv (empty_tree (V := V)).
Proof.
  assert (Hfollow : ∀ path p, follow (empty_tree (V := V)) root_ptr path = Some p →
                              path = [] ∧ p = root_ptr).
  { intros [|t path] p; simpl.
    - intros [= <-]. auto.
    - unfold empty_tree. rewrite lookup_singleton_eq. unfold new_tree_node.
      cbn [children]. destruct (replicate _ _ !! t) as [[c|]|] eqn:E; try discriminate.
      apply lookup_replicate in E as [E _]. discriminate. }
  split.
  - intros p n Hp. unfold empty_tree in Hp.
    apply lookup_singleton_Some in Hp as [_ Hp]. injection Hp as <-.
    unfold new_tree_node. cbn [children version].
    rewrite length_replicate, filled_replicate. split; [reflexivity|lia].
  - intros p vv Hp. unfold empty_tree in Hp.
    apply lookup_singleton_Some in Hp as [_ Hp]. discriminate.
  - intros path p Hp _. apply Hfollow in Hp as [-> ->]. unfold empty_tree.
    rewrite lookup_singleton_eq. eauto.
  - intros path p Hp Hl. apply Hfollow in Hp as [-> ->]. simpl in Hl.
    pose proof (buf_size_pos (K := K)). lia.
  - intros path1 path2 p Hp1 Hp2.
    apply Hfollow in Hp1 as [-> _]. apply Hfollow in Hp2 as [-> _]. reflexivity.
Qed.

Lemma reachable_tree_inv (h : store) : reachable h → tree_inv h.
Proof.
  intros [acts Hrun]. exact (proj1 (run_tree_inv acts _ _ empty_tree_inv Hrun)).
Qed.

Lemma reachable_run (acts : list action) (h h' : store) :
  reachable h → run acts h = Done h' → reachable h'.
Proof.
  intros [acts0 Hrun0] Hrun. exists (acts0 ++ acts).
  rewrite run_app, Hrun0. exact Hrun.
Qed.

End steps.

(** ** The canonical transformer *)

Lemma default_transformer_ok : KeyTransformerOk Z.
Proof.
  split.
  - simpl. unfold sizeof_uint64. lia.
  - intros k buf Hb. simpl in *. rewrite transform_uint64_groups by exact Hb.
    apply groups_length.
  - intros k buf x Hb. simpl in *. rewrite transform_uint64_groups by exact Hb.
    apply groups_range.
Qed.

(** C6 — Key-transformer order preservation.  For the 64-bit instantiation
    [buf_size()] is 16; [transform(key, buf)] leaves 16 values in the buffer,
    each in [0, 16), the value at index [j] being the 4-bit group number
    [15 - j] of the key (most significant first); and for keys [a < b] the
    sequence of [a] is lexicographically less than the sequence of [b]. *)
Theorem default_transformer_order_preserving (a b : Z) (buf : list Z) :
  length buf = buf_size (K := Z) →
  0 ≤ a → a < b → b < 2 ^ 64 →
  buf_size (K := Z) = 16%nat ∧
  (∀ key : Z,
     length (transform key buf) = 16%nat ∧
     (∀ x, x ∈ transform key buf → 0 ≤ x < 16) ∧
     (∀ j : nat, (j < 16)%nat →
        transform key buf !! j = Some ((key / 16 ^ Z.of_nat (15 - j)) mod 16))) ∧
  lex_lt (transform a buf) (transform b buf).
Proof.
  intros Hb Ha Hab Hb64. change (buf_size (K := Z)) with 16%nat in *.
  split; [reflexivity|]. split.
  - intros key. simpl. rewrite transform_uint64_groups by exact Hb.
    split; [apply groups_length|]. split; [apply groups_range|].
    intros j Hj. rewrite groups_lookup by exact Hj. reflexivity.
  - simpl. rewrite !transform_uint64_groups by exact Hb.
    apply groups_lex. change (16 ^ Z.of_nat 16) with (2 ^ 64).
    rewrite !Z.mod_small by lia. exact Hab.
Qed.

Lemma default_transformer_order_preserving_witness :
  length (replicate 16 0) = buf_size (K := Z) ∧ 0 ≤ 0x1234 ∧ 0x1234 < 0xabcd ∧
  0xabcd < 2 ^ 64 ∧
  lex_lt (transform 0x1234 (replicate 16 0)) (transform 0xabcd (replicate 16 0)).
Proof.
  split; [reflexivity|]. split; [lia|]. split; [lia|]. split; [lia|].
  apply (default_transformer_order_preserving 0x1234 0xabcd (replicate 16 0));
    [reflexivity|lia|lia|lia].
Defined.

(** ** The claims about the tree *)

Section claims.
Context `{StoConvention}.
Context {K V : Type} `{KeyTransformer K} `{Payload V}.
Context (Hok : convention_ok) `{!KeyTransformerOk K}.

Abbreviation store := (gmap ptr (cell V)).

(** C7 — Leaf state-machine invariant.  In every store that a sequence of
    operations (insert_nodes, put, remove and the commit callbacks) can
    produce from the empty tree, no leaf has the insert bit and the valid bit
    of its version word set at the same time. *)
Theorem leaf_never_inserting_and_valid (h : store) (p : ptr) (vv : versioned_value V) :
  reachable h → h !! p = Some (Leaf vv) →
  ¬ (has_flag (vv_version vv) ver_insert_bit = true ∧
     has_flag (vv_version vv) valid_bit = true).
Proof.
  intros Hreach Hp. pose proof (reachable_tree_inv Hok h Hreach) as Hinv.
  exact (proj2 (inv_leaf h Hinv p vv Hp)).
Qed.

Lemma atomic_read_quiet fuel (h : store) p l :
  h !! p = Some (Leaf l) →
  atomic_read (S fuel) h p = Done (vv_value l, vv_version l).
Proof.
  intros Hp. cbn [atomic_read].
  rewrite (proj2 (as_leaf_Done h p l) Hp), !ret_bind, Z.eqb_refl. reflexivity.
Qed.

(** C2 — Non-transactional round-trip.  On a reachable store on which no
    writer holds a leaf lock, [put(k, v)] returns, and a [get(k, x)] that
    follows returns true with [x == v]. *)
Theorem put_get_round_trip (fuel : nat) (k : K) (v out : V) (h : store) :
  reachable h → quiescent h → (0 < fuel)%nat →
  ∃ h', put k v h = Done h' ∧ get fuel k out h' = Done (true, v).
Proof.
  intros Hreach Hq Hfuel. pose proof (reachable_tree_inv Hok h Hreach) as Hinv.
  destruct (insert_nodes_spec Hok k h Hinv) as (p & h1 & Hins & Hinv1 & Hg & Hp).
  destruct (inv_frontier h1 Hinv1 _ _ Hp (path_of_length k)) as [l Hl].
  destruct (inv_leaf h1 Hinv1 _ _ Hl) as [Hw _].
  assert (Hul : TransactionTid.is_locked (vv_version l) = false).
  { destruct Hg as (_ & _ & Hnew). destruct (Hnew _ _ Hl) as [Hold|[_ ->]].
    - exact (Hq _ _ Hold).
    - apply (ver_insert_bit_unlocked Hok). }
  set (ver := TransactionTid.unlock
                (put_version (Z.lor (vv_version l) TransactionTid.lock_bit))).
  exists (<[p := Leaf (mk_versioned_value ver v)]> h1). split.
  - unfold put. rewrite Hins, ret_bind.
    rewrite (proj2 (as_leaf_Done h1 p l) Hl), ret_bind.
    rewrite (lock_done _ Hul), ret_bind. reflexivity.
  - assert (Hinv' : tree_inv (<[p := Leaf (mk_versioned_value ver v)]> h1)).
    { apply (tree_inv_leaf_update h1 p l _ Hinv1 Hl); simpl.
      - apply (version_step_word Hok (vv_version l)); [assumption|].
        constructor. assumption.
      - apply (version_step_state Hok (vv_version l)); [assumption| |].
        + exact (proj2 (inv_leaf h1 Hinv1 _ _ Hl)).
        + constructor. assumption. }
    unfold get. rewrite (get_value_found k _ p Hinv').
    2:{ rewrite (follow_leaf_update h1 p l _ _ _ Hl). exact Hp. }
    rewrite ret_bind. cbn [negb].
    rewrite (proj2 (as_leaf_Done _ p _) (lookup_insert_eq h1 p _)), ret_bind.
    cbn [vv_version].
    assert (Hvalid : has_flag ver valid_bit = true).
    { unfold ver. rewrite (unlock_eq Hok) by apply (put_version_word Hok).
      rewrite (unlocked_valid Hok). apply (put_version_valid Hok). }
    rewrite Hvalid. cbn [negb].
    destruct fuel as [|fuel]; [lia|].
    rewrite (atomic_read_quiet fuel _ p _ (lookup_insert_eq h1 p _)).
    reflexivity.
Qed.


Lemma Sto_item_insert (txn : gmap ptr (TransItem V)) p item :
  Sto_item (<[p := item]> txn) p = item.
Proof. unfold Sto_item. rewrite lookup_insert_eq. reflexivity. Qed.

(** C3 — Transactional observed-own-writes.  Within one transaction, on a
    reachable store, [trans_put(k, v)] returns and a following
    [trans_get(k, x)] returns true with [x == v], the write staged in the
    item of the leaf. *)
Theorem trans_put_then_trans_get (fuel : nat) (k : K) (v out : V) (h : store)
    (txn : gmap ptr (TransItem V)) :
  reachable h →
  ∃ h' txn', trans_put k v h txn = Done (h', txn') ∧
             trans_get fuel k out h' txn' = Done (true, v, txn').
Proof.
  intros Hreach. pose proof (reachable_tree_inv Hok h Hreach) as Hinv.
  destruct (insert_nodes_spec Hok k h Hinv) as (p & h1 & Hins & Hinv1 & Hg & Hp).
  set (item := add_flags (add_write (Sto_item txn p) (PValue v)) item_put_bit).
  exists h1, (<[p := item]> txn). split.
  - unfold trans_put. rewrite Hins, ret_bind. reflexivity.
  - unfold trans_get. rewrite (get_value_found k h1 p Hinv1 Hp), ret_bind.
    cbn [negb]. rewrite Sto_item_insert.
    change (has_write item) with true. cbv iota.
    change (write_value item) with (Done v). rewrite ret_bind.
    rewrite insert_insert_eq. reflexivity.
Qed.

(** C10 — Within one transaction, for a key whose leaf exists,
    [trans_remove(k)] followed by [trans_get(k, x)] returns true: the item
    has a staged write, and the marker staged by [trans_remove] is handed
    out as the payload. *)
Theorem trans_remove_then_trans_get (fuel : nat) (k : K) (out : V) (h : store)
    (txn : gmap ptr (TransItem V)) (p : ptr) :
  get_value k h = Done (true, p) →
  ∃ txn', trans_remove k h txn = Done txn' ∧
          trans_get fuel k out h txn' = Done (true, from_marker true, txn').
Proof.
  intros Hgv.
  set (item := add_flags (add_write (Sto_item txn p) (PBool true)) item_remove_bit).
  exists (<[p := item]> txn). split.
  - unfold trans_remove. rewrite Hgv, ret_bind. reflexivity.
  - unfold trans_get. rewrite Hgv, ret_bind. cbn [negb].
    rewrite Sto_item_insert.
    change (has_write item) with true. cbv iota.
    change (write_value item) with (Done (from_marker true)). rewrite ret_bind.
    rewrite insert_insert_eq. reflexivity.
Qed.

(** With one store given three times the stepwise operations are the
    operations. *)
Lemma trans_get_at_same fuel (k : K) (out : V) (h : store)
    (txn : gmap ptr (TransItem V)) :
  trans_get_at fuel k out h h h txn = trans_get fuel k out h txn.
Proof. reflexivity. Qed.

Lemma trans_remove_at_same (k : K) (h : store) (txn : gmap ptr (TransItem V)) :
  trans_remove_at k h h txn = trans_remove k h txn.
Proof. reflexivity. Qed.



(** *** Phantoms *)

Lemma item_empty_bit_set fl : has_flag (Z.lor fl item_empty_bit) item_empty_bit = true.
Proof.
  unfold item_empty_bit. rewrite Z.shiftl_mul_pow2 by lia.
  rewrite (user0_single Hok), <- Z.pow_add_r by (try apply Z.log2_nonneg; lia).
  pose proof (Z.log2_nonneg user0_bit).
  rewrite has_flag_testbit, testbit_lor_pow2, Z.eqb_refl by lia.
  apply orb_true_r.
Qed.

Lemma node_versions_differ (m m' : nat) :
  (m < m' ≤ 16)%nat →
  TransactionTid.same_version (increment_value * (1 + Z.of_nat m'))
    (increment_value * (1 + Z.of_nat m)) = false.
Proof.
  intros Hm. unfold TransactionTid.same_version.
  rewrite !lor_lock_bit by apply (node_version_unlocked Hok).
  pose proof (increment_value_pos Hok). apply Z.eqb_neq. nia.
Qed.

(** Once the leaf of a key exists, the node that witnessed its absence has
    another version. *)
Lemma absent_witness_changes (k : K) (h h' : store) (q : ptr) :
  tree_inv h → tree_inv h' → extends h h' →
  get_value k h = Done (false, q) →
  is_Some (follow h' root_ptr (path_of k)) →
  ∃ nq nq', h !! q = Some (Node nq) ∧ h' !! q = Some (Node nq') ∧
            TransactionTid.same_version (version nq') (version nq) = false.
Proof.
  intros Hinv Hinv' Hext Hgv [p Hp].
  destruct (get_value_spec k h Hinv) as
    [(p0 & Hgv0 & _)|(q0 & j & tz & nq & Hgv0 & Hj & Hq & Hnq & Htz & Hc)];
    [congruence|].
  assert (q0 = q) as -> by congruence.
  assert (Hpath : take (S j) (path_of k) = take j (path_of k) ++ [Z.to_nat tz]).
  { apply take_S_r. unfold path_of. rewrite list_lookup_fmap_Some_2 with (x := tz).
    - reflexivity.
    - exact Htz. }
  rewrite <- (take_drop (S j) (path_of k)), follow_app, Hpath in Hp.
  destruct (follow h' root_ptr (take j (path_of k) ++ [Z.to_nat tz])) as [c|] eqn:Hc';
    [|discriminate].
  apply follow_snoc in Hc' as (m & nm & Hm & Hnm & Hcm).
  pose proof (follow_extends _ _ _ _ _ Hext Hq) as Hq'.
  assert (m = q) as -> by congruence.
  destruct (proj1 Hext _ _ Hnq) as (nq' & Hnq' & Hmono).
  assert (nm = nq') as -> by congruence.
  exists nq, nq'. split; [assumption|]. split; [assumption|].
  destruct (inv_node h Hinv _ _ Hnq) as [Hl Hv].
  destruct (inv_node h' Hinv' _ _ Hnq') as [Hl' Hv'].
  rewrite Hv, Hv'. apply node_versions_differ. split.
  - apply (filled_grows (children nq) (children nq') (Z.to_nat tz) c);
      [congruence|assumption..].
  - pose proof (filled_le (children nq')). rewrite Hl' in *.
    change (Z.to_nat fanout) with 16%nat in *. assumption.
Qed.

(** After [insert_nodes(k)] the leaf of [k] exists, for good. *)
Lemma inserted_stays (k : K) (acts1 acts2 : list action) (h h' : store) :
  tree_inv h →
  run (acts1 ++ InsertNodes k :: acts2) h = Done h' →
  tree_inv h' ∧ extends h h' ∧ is_Some (follow h' root_ptr (path_of k)).
Proof.
  intros Hinv Hrun. rewrite run_app in Hrun.
  apply bind_Done in Hrun as (h1 & Hrun1 & Hrun).
  destruct (run_tree_inv Hok _ _ _ Hinv Hrun1) as [Hinv1 Hext1].
  simpl in Hrun. apply bind_Done in Hrun as (h2 & Hstep & Hrun2).
  destruct (insert_nodes_spec Hok k h1 Hinv1) as (p & h2' & Hins & Hinv2 & Hg & Hp).
  rewrite Hins, ret_bind in Hstep. injection Hstep as <-.
  destruct (run_tree_inv Hok _ _ _ Hinv2 Hrun2) as [Hinv' Hext2].
  split; [assumption|]. split.
  - eapply extends_trans; [eassumption|].
    eapply extends_trans; [apply grows_extends; eassumption|eassumption].
  - exists p. exact (follow_extends _ _ _ _ _ Hext2 Hp).
Qed.

(** How far the phantom guard goes.  Let [trans_get(k)] or [trans_remove(k)]
    run as a whole while [k] has no leaf: the operation records the version
    of the interior node whose slot is empty in an item flagged [empty_bit]
    (and [trans_get] returns false).  If the threads then run any whole
    operations among which is the [insert_nodes(k)] of a [trans_put(k, _)],
    [check] on the item as that operation recorded it returns false.  This
    covers neither an insert that falls between the descent and the version
    read of the operation, nor an item that a later read of the transaction
    has recorded over. *)
Theorem absent_read_phantom_guard (fuel : nat) (k : K) (out : V) (h h' : store)
    (txn : gmap ptr (TransItem V)) (q : ptr) (acts1 acts2 : list action) :
  reachable h → transaction_ok txn →
  get_value k h = Done (false, q) →
  run (acts1 ++ InsertNodes k :: acts2) h = Done h' →
  ∃ item,
    trans_get fuel k out h txn = Done (false, out, <[q := item]> txn) ∧
    trans_remove k h txn = Done (<[q := item]> txn) ∧
    has_flag (flags item) item_empty_bit = true ∧
    (∃ nq, h !! q = Some (Node nq) ∧ rdata item = Some (version nq)) ∧
    check item h' = Done false.
Proof.
  intros Hreach Htxn Hgv Hrun. pose proof (reachable_tree_inv Hok h Hreach) as Hinv.
  destruct (inserted_stays k acts1 acts2 h h' Hinv Hrun) as (Hinv' & Hext & Hleaf).
  destruct (absent_witness_changes k h h' q Hinv Hinv' Hext Hgv Hleaf)
    as (nq & nq' & Hnq & Hnq' & Hdiff).
  set (item := add_flags (add_read (Sto_item txn q) (version nq)) item_empty_bit).
  assert (Hkey : key item = q).
  { unfold item, Sto_item. simpl. destruct (txn !! q) as [it|] eqn:Hit; simpl.
    - exact (Htxn _ _ Hit).
    - reflexivity. }
  assert (Hflag : has_flag (flags item) item_empty_bit = true)
    by apply item_empty_bit_set.
  exists item. split; [|split; [|split; [|split]]].
  - unfold trans_get. rewrite Hgv, ret_bind. cbn [negb].
    rewrite (proj2 (as_node_Done h q nq) Hnq), ret_bind. reflexivity.
  - unfold trans_remove. rewrite Hgv, ret_bind. cbn [negb].
    rewrite (proj2 (as_node_Done h q nq) Hnq), ret_bind. reflexivity.
  - exact Hflag.
  - exists nq. split; [assumption|reflexivity].
  - unfold check. rewrite Hflag.
    rewrite Hkey, (proj2 (as_node_Done h' q nq') Hnq'), ret_bind.
    change (read_value item) with (Done (version nq)). rewrite ret_bind, Hdiff.
    reflexivity.
Qed.

End claims.

(** ** The commit callback [install] *)

Section install.
Context `{StoConvention}.
Context {K V : Type} `{KeyTransformer K} `{Payload V}.
Context (Hok : convention_ok).

Abbreviation store := (gmap ptr (cell V)).


Lemma put_version_other old i :
  i ≠ Z.log2 valid_bit → i ≠ Z.log2 user_bit1 →
  Z.testbit (put_version old) i
  = Z.testbit (TransactionTid.add old increment_value) i.
Proof.
  intros Hi1 Hi2. rewrite (put_version_eq Hok). unfold TransactionTid.add. conv Hok.
  rewrite Eva, Eins at 1.
  rewrite testbit_ldiff_pow2, testbit_lor_pow2 by lia.
  destruct (Z.eqb_spec a i); [lia|]. destruct (Z.eqb_spec b i); [lia|].
  rewrite orb_false_r, andb_true_r. reflexivity.
Qed.

Lemma install_remove_version_other old i :
  i ≠ Z.log2 valid_bit → i ≠ Z.log2 user_bit1 →
  Z.testbit (install_remove_version old) i
  = Z.testbit (TransactionTid.add old increment_value) i.
Proof.
  intros Hi1 Hi2. rewrite (install_remove_version_eq Hok), (remove_version_eq Hok).
  unfold TransactionTid.add. conv Hok.
  rewrite Eva, Eins at 1.
  rewrite !testbit_ldiff_pow2 by lia.
  destruct (Z.eqb_spec a i); [lia|]. destruct (Z.eqb_spec b i); [lia|].
  rewrite !andb_true_r. reflexivity.
Qed.

(** What [install] does, read off its branches.  It computes
    [old + increment]; when the test of [put_bit] succeeds it sets the valid
    bit, clears the insert bit and writes the staged payload into the value
    cell; [remove_bit] is tested in the else branch only, where the valid and
    the insert bit are cleared; every other bit is the one of
    [old + increment]; the result is published as the version of the leaf.
    An item that carries both flags goes the first way. *)
Theorem install_semantics (item : TransItem V) (h : store) (vv : versioned_value V) :
  h !! key item = Some (Leaf vv) →
  let bumped := TransactionTid.add (vv_version vv) increment_value in
  let others new := ∀ i, i ≠ Z.log2 valid_bit → i ≠ Z.log2 user_bit1 →
                         Z.testbit new i = Z.testbit bumped i in
  (has_flag (flags item) item_put_bit = true →
   ∀ w, write_value item = Done w →
     ∃ new, install item h = Done (<[key item := Leaf (mk_versioned_value new w)]> h) ∧
            has_flag new valid_bit = true ∧ has_flag new ver_insert_bit = false ∧
            others new) ∧
  (has_flag (flags item) item_put_bit = false →
   has_flag (flags item) item_remove_bit = true →
     ∃ new, install item h
            = Done (<[key item := Leaf (mk_versioned_value new (vv_value vv))]> h) ∧
            has_flag new valid_bit = false ∧ has_flag new ver_insert_bit = false ∧
            others new) ∧
  (has_flag (flags item) item_put_bit = false →
   has_flag (flags item) item_remove_bit = false →
     install item h
     = Done (<[key item := Leaf (mk_versioned_value bumped (vv_value vv))]> h)).
Proof.
  intros Hl bumped others. unfold install.
  rewrite (proj2 (as_leaf_Done h _ vv) Hl), ret_bind. split; [|split].
  - intros Hput w Hw. rewrite Hput, Hw, !ret_bind.
    exists (put_version (vv_version vv)). split; [reflexivity|].
    split; [apply (put_version_valid Hok)|].
    split; [apply (put_version_insert Hok)|].
    intros i Hi1 Hi2. apply put_version_other; assumption.
  - intros Hput Hrem. rewrite Hput, Hrem, !ret_bind.
    exists (install_remove_version (vv_version vv)). split; [reflexivity|].
    rewrite (install_remove_version_eq Hok) at 1 2.
    split; [apply (remove_version_valid Hok)|].
    split; [apply (remove_version_insert Hok)|].
    intros i Hi1 Hi2. apply install_remove_version_other; assumption.
  - intros Hput Hrem. rewrite Hput, Hrem, !ret_bind. reflexivity.
Qed.

End install.

(** ** The increment field *)

Section counter.
Context `{StoConvention}.
Context {K V : Type} `{KeyTransformer K} `{Payload V}.
Context (Hok : convention_ok) `{!KeyTransformerOk K}.

Lemma counter_bounds v :
  increment_value * TransactionTid.counter v ≤ v
  < increment_value * (TransactionTid.counter v + 1).
Proof.
  pose proof (increment_value_pos Hok) as Hp. unfold TransactionTid.counter. split.
  - apply Z.mul_div_le. exact Hp.
  - replace (v / increment_value + 1) with (Z.succ (v / increment_value)) by lia.
    apply Z.mul_succ_div_gt. exact Hp.
Qed.

Lemma counter_low_mask_lor v m :
  0 ≤ m < increment_value →
  TransactionTid.counter (Z.lor v m) = TransactionTid.counter v.
Proof.
  intros Hm. unfold TransactionTid.counter.
  pose proof (valid_pos Hok) as Ha. pose proof (increment_single Hok) as Einc.
  set (c := Z.log2 increment_value) in *. clearbody c.
  rewrite Einc in Hm |- *. apply div_lor_low; lia.
Qed.

Lemma counter_low_mask_ldiff v m :
  0 ≤ m < increment_value →
  TransactionTid.counter (Z.ldiff v m) = TransactionTid.counter v.
Proof.
  intros Hm. unfold TransactionTid.counter.
  pose proof (valid_pos Hok) as Ha. pose proof (increment_single Hok) as Einc.
  set (c := Z.log2 increment_value) in *. clearbody c.
  rewrite Einc in Hm |- *. apply div_ldiff_low; lia.
Qed.

Lemma low_masks :
  0 ≤ TransactionTid.lock_bit < increment_value ∧
  0 ≤ valid_bit < increment_value ∧ 0 ≤ ver_insert_bit < increment_value.
Proof.
  pose proof (valid_pos Hok). pose proof (insert_pos Hok).
  unfold ver_insert_bit. change TransactionTid.lock_bit with (2 ^ 0).
  rewrite (valid_single Hok), (insert_single Hok), (increment_single Hok).
  repeat split; try (apply Z.pow_nonneg; lia); apply Z.pow_lt_mono_r; lia.
Qed.

Lemma counter_add v :
  0 ≤ v →
  (TransactionTid.counter v + 2) * increment_value ≤ 2 ^ tid_bits →
  TransactionTid.counter (TransactionTid.add v increment_value)
  = TransactionTid.counter v + 1.
Proof.
  intros Hv Hroom. pose proof (counter_bounds v) as Hb.
  pose proof (increment_value_pos Hok) as Hp.
  unfold TransactionTid.add. rewrite wrap_small by nia.
  unfold TransactionTid.counter.
  replace (v + increment_value) with (v + 1 * increment_value) by lia.
  apply Z.div_add. lia.
Qed.

Lemma counter_locked v :
  TransactionTid.counter (Z.lor v TransactionTid.lock_bit) = TransactionTid.counter v.
Proof. apply counter_low_mask_lor, low_masks. Qed.

Lemma counter_unlocked v : TransactionTid.counter (unlocked v) = TransactionTid.counter v.
Proof. apply counter_low_mask_ldiff, low_masks. Qed.

Lemma counter_put_version v :
  0 ≤ v →
  (TransactionTid.counter v + 2) * increment_value ≤ 2 ^ tid_bits →
  TransactionTid.counter (put_version v) = TransactionTid.counter v + 1.
Proof.
  intros Hv Hroom. rewrite (put_version_eq Hok).
  rewrite counter_low_mask_ldiff, counter_low_mask_lor by apply low_masks.
  apply counter_add; assumption.
Qed.

Lemma counter_remove_version v :
  0 ≤ v →
  (TransactionTid.counter v + 2) * increment_value ≤ 2 ^ tid_bits →
  TransactionTid.counter (remove_version v) = TransactionTid.counter v + 1.
Proof.
  intros Hv Hroom. rewrite (remove_version_eq Hok).
  rewrite !counter_low_mask_ldiff by apply low_masks.
  apply counter_add; assumption.
Qed.

(** An update either leaves the increment field alone or adds one to it. *)
Lemma version_step_counter v v' :
  0 ≤ v < 2 ^ tid_bits →
  (TransactionTid.counter v + 2) * increment_value ≤ 2 ^ tid_bits →
  version_step v v' →
  (TransactionTid.counter v' = TransactionTid.counter v ∧ unlocked v' = unlocked v) ∨
  TransactionTid.counter v' = TransactionTid.counter v + 1.
Proof.
  intros Hv Hroom Hs. pose proof (locked_word Hok v Hv) as Hlw.
  destruct Hs; unfold TransactionTid.set_version.
  - right. rewrite (unlock_eq Hok) by apply (put_version_word Hok).
    rewrite counter_unlocked, counter_put_version, counter_locked; [reflexivity|lia|].
    rewrite counter_locked. assumption.
  - right. rewrite (unlock_eq Hok) by apply (remove_version_word Hok).
    rewrite counter_unlocked, counter_remove_version, counter_locked; [reflexivity|lia|].
    rewrite counter_locked. assumption.
  - left. split; [apply counter_locked|apply unlocked_locked].
  - right. apply counter_put_version; [lia|assumption].
  - right. rewrite (install_remove_version_eq Hok).
    apply counter_remove_version; [lia|assumption].
  - right. apply counter_add; [lia|assumption].
  - left. rewrite (unlock_eq Hok) by assumption. split; [apply counter_unlocked|].
    apply unlocked_id. apply (unlocked_is_locked Hok).
Qed.

Lemma version_step_mono v v' :
  0 ≤ v < 2 ^ tid_bits →
  (TransactionTid.counter v + 2) * increment_value ≤ 2 ^ tid_bits →
  version_step v v' →
  unlocked v ≤ unlocked v' ∧
  TransactionTid.counter v ≤ TransactionTid.counter v' ≤ TransactionTid.counter v + 1.
Proof.
  intros Hv Hroom Hs.
  destruct (version_step_counter v v' Hv Hroom Hs) as [[Hc Hu]|Hc].
  - rewrite Hc, Hu. lia.
  - split; [|lia].
    pose proof (counter_bounds v) as Hb.
    pose proof (counter_bounds (unlocked v')) as Hb'.
    rewrite counter_unlocked, Hc in Hb'.
    pose proof (ldiff_bounds v TransactionTid.lock_bit (proj1 Hv)) as Hu.
    unfold unlocked at 1. unfold TransactionTid.lock_bit in *. lia.
Qed.

Abbreviation store := (gmap ptr (cell V)).

(** One operation on the store, seen from one leaf. *)
Lemma step_leaf (a : action) (h h' : store) p vv :
  tree_inv h → step a h = Done h' → h !! p = Some (Leaf vv) →
  ∃ vv', h' !! p = Some (Leaf vv') ∧
         (vv' = vv ∨ version_step (vv_version vv) (vv_version vv')).
Proof.
  intros Hinv Hstep Hp.
  destruct (step_shape Hok a h h' Hinv Hstep) as (h1 & Hinv1 & Hg & Hcase).
  destruct Hg as (_ & Hkept & _). pose proof (Hkept _ _ Hp) as Hp1.
  destruct Hcase as [->|(p0 & l & l' & Hl & -> & Hvs)].
  - exists vv. auto.
  - destruct (decide (p0 = p)) as [->|Hne].
    + exists l'. rewrite lookup_insert_eq. split; [reflexivity|].
      right. assert (l = vv) as -> by congruence. exact Hvs.
    + exists vv. rewrite lookup_insert_ne by assumption. auto.
Qed.

(** C8 (as amended) — Leaf version monotonicity.  Across any sequence of
    operations, the version word of a leaf, lock bit ignored, never decreases,
    as long as the increment field has room for one increment per operation
    of the sequence (the word does not wrap around). *)
Theorem leaf_version_monotone (acts : list action) (h h' : store) (p : ptr)
    (vv : versioned_value V) :
  reachable h → run acts h = Done h' → h !! p = Some (Leaf vv) →
  (TransactionTid.counter (vv_version vv) + Z.of_nat (length acts) + 1)
    * increment_value ≤ 2 ^ tid_bits →
  ∃ vv', h' !! p = Some (Leaf vv') ∧
         unlocked (vv_version vv) ≤ unlocked (vv_version vv').
Proof.
  intros Hreach Hrun Hp Hroom.
  pose proof (reachable_tree_inv Hok h Hreach) as Hinv. clear Hreach.
  assert (Hgoal : ∃ vv', h' !! p = Some (Leaf vv') ∧
            unlocked (vv_version vv) ≤ unlocked (vv_version vv') ∧
            TransactionTid.counter (vv_version vv')
            ≤ TransactionTid.counter (vv_version vv) + Z.of_nat (length acts)).
  { revert h vv Hinv Hrun Hp Hroom.
    induction acts as [|a acts IH]; intros h vv Hinv Hrun Hp Hroom; simpl in Hrun.
    - injection Hrun as <-. exists vv. simpl. split; [assumption|]. lia.
    - apply bind_Done in Hrun as (h1 & Hstep & Hrun).
      destruct (step_tree_inv Hok _ _ _ Hinv Hstep) as [Hinv1 _].
      destruct (step_leaf a h h1 p vv Hinv Hstep Hp) as (vv1 & Hp1 & Hcase).
      pose proof (increment_value_pos Hok) as Hpos.
      rewrite length_cons, Nat2Z.inj_succ in Hroom |- *.
      assert (Hone : unlocked (vv_version vv) ≤ unlocked (vv_version vv1) ∧
                TransactionTid.counter (vv_version vv)
                ≤ TransactionTid.counter (vv_version vv1)
                ≤ TransactionTid.counter (vv_version vv) + 1).
      { destruct Hcase as [->|Hvs]; [lia|].
        apply version_step_mono; [|nia|assumption].
        exact (proj1 (inv_leaf h Hinv _ _ Hp)). }
      destruct (IH h1 vv1 Hinv1 Hrun Hp1) as (vv' & Hp' & Hle & Hcnt); [nia|].
      exists vv'. split; [assumption|]. lia. }
  destruct Hgoal as (vv' & Hp' & Hle & _). eauto.
Qed.

End counter.

(** ** [remove] *)

Section remove.
Context `{StoConvention}.
Context {K V : Type} `{KeyTransformer K} `{Payload V}.
Context (Hok : convention_ok) `{!KeyTransformerOk K}.

Abbreviation store := (gmap ptr (cell V)).

Lemma similar_as_node (h h' : store) p :
  similar h h' → as_node h p = as_node h' p.
Proof.
  intros Hs. specialize (Hs p). unfold as_node.
  destruct (h !! p) as [[n|l]|], (h' !! p) as [[n'|l']|]; simpl in Hs;
    try contradiction; congruence.
Qed.

Lemma similar_get_value_loop (h h' : store) n i t_key cur :
  similar h h' →
  get_value_loop n i t_key cur h = get_value_loop n i t_key cur h'.
Proof.
  intros Hs. revert i cur. induction n as [|n IH]; intros i cur; [reflexivity|].
  cbn [get_value_loop]. rewrite (similar_as_node h h' cur Hs).
  destruct (as_node h' cur) as [node| | |]; try reflexivity. rewrite !ret_bind.
  destruct (index t_key i) as [t| | |]; try reflexivity. rewrite !ret_bind.
  destruct (index (children node) (Z.to_nat t)) as [[c|]| | |]; try reflexivity.
  rewrite !ret_bind. apply IH.
Qed.

Lemma atomic_read_value fuel (h : store) p :
  (atomic_read fuel h p ≫= λ '(val, _), Done (true, val))
  = match fuel with
    | O => Spin
    | S _ => l ← as_leaf h p; Done (true, vv_value l)
    end.
Proof.
  destruct fuel as [|fuel]; [reflexivity|]. cbn [atomic_read].
  destruct (as_leaf h p) as [l| | |]; try reflexivity.
  rewrite !ret_bind, Z.eqb_refl. reflexivity.
Qed.

(** [get] does not look at the increment field. *)
Lemma similar_get (h h' : store) fuel (k : K) (out : V) :
  similar h h' → get fuel k out h = get fuel k out h'.
Proof.
  intros Hs. unfold get, get_value.
  rewrite (similar_get_value_loop h h' _ _ _ _ Hs).
  destruct (get_value_loop _ _ _ _ h') as [[is_vv p]| | |]; try reflexivity.
  rewrite !ret_bind. destruct is_vv; [|reflexivity]. cbn [negb].
  rewrite !atomic_read_value.
  pose proof (Hs p) as Hp. unfold as_leaf.
  destruct (h !! p) as [[n|l]|], (h' !! p) as [[n'|l']|]; simpl in Hp;
    try contradiction; try reflexivity.
  destruct Hp as (Hval & _ & Hvalid & _). rewrite !ret_bind, Hvalid, Hval.
  reflexivity.
Qed.

Lemma similar_refl (h : store) : similar h h.
Proof.
  intros p. destruct (h !! p) as [[n|l]|]; simpl; auto.
Qed.

(** C9 — Remove idempotence.  On a reachable store on which no writer holds
    a leaf lock, [remove(k)] returns, and so does a second [remove(k)]; the
    second one frees and allocates nothing and changes no cell except for
    the increment field of the leaf of [k]; every [get] returns after two
    removes what it returns after one, and [get(k)] returns false. *)
Theorem remove_idempotent (k : K) (h : store) :
  reachable h → quiescent h →
  ∃ h1 h2, remove k h = Done h1 ∧ remove k h1 = Done h2 ∧
    dom h1 = dom h ∧ dom h2 = dom h1 ∧ similar h1 h2 ∧
    (∀ fuel (k' : K) out, get fuel k' out h2 = get fuel k' out h1) ∧
    (∀ fuel out, (0 < fuel)%nat →
       get fuel k out h1 = Done (false, out) ∧ get fuel k out h2 = Done (false, out)).
Proof.
  intros Hreach Hq. pose proof (reachable_tree_inv Hok h Hreach) as Hinv.
  destruct (get_value_spec k h Hinv) as
    [(p & Hgv & Hp)|(q & j & tz & nq & Hgv & _)].
  - destruct (inv_frontier h Hinv _ _ Hp (path_of_length k)) as [l Hl].
    destruct (inv_leaf h Hinv _ _ Hl) as [Hw Hst].
    pose proof (Hq _ _ Hl) as Hul.
    set (v1 := TransactionTid.unlock
                 (remove_version (Z.lor (vv_version l) TransactionTid.lock_bit))).
    set (l1 := mk_versioned_value v1 (vv_value l)).
    set (h1 := <[p := Leaf l1]> h).
    assert (Hstep1 : version_step (vv_version l) v1) by (constructor; assumption).
    assert (Hw1 : 0 ≤ v1 < 2 ^ tid_bits) by exact (version_step_word Hok _ _ Hw Hstep1).
    assert (Hinv1 : tree_inv h1).
    { apply (tree_inv_leaf_update h p l l1 Hinv Hl Hw1).
      exact (version_step_state Hok _ _ Hw Hst Hstep1). }
    assert (Hv1 : v1 = unlocked (remove_version
                      (Z.lor (vv_version l) TransactionTid.lock_bit))).
    { unfold v1. apply (unlock_eq Hok), (remove_version_word Hok). }
    assert (Hul1 : TransactionTid.is_locked v1 = false).
    { rewrite Hv1. apply (unlocked_is_locked Hok). }
    set (v2 := TransactionTid.unlock
                 (remove_version (Z.lor v1 TransactionTid.lock_bit))).
    set (l2 := mk_versioned_value v2 (vv_value l)).
    set (h2 := <[p := Leaf l2]> h1).
    assert (Hv2 : v2 = unlocked (remove_version (Z.lor v1 TransactionTid.lock_bit))).
    { unfold v2. apply (unlock_eq Hok), (remove_version_word Hok). }
    assert (Hl1 : h1 !! p = Some (Leaf l1)) by apply lookup_insert_eq.
    assert (Hgv1 : get_value k h1 = Done (true, p)).
    { apply (get_value_found k h1 p Hinv1).
      unfold h1. rewrite (follow_leaf_update h p l l1 _ _ Hl). exact Hp. }
    assert (Hsim : similar h1 h2).
    { intros p'. unfold h2. destruct (decide (p = p')) as [<-|Hne].
      - rewrite lookup_insert_eq, Hl1. simpl. split; [reflexivity|].
        rewrite Hv1 at 1 2 3. rewrite Hv2.
        rewrite !(unlocked_is_locked Hok), !(unlocked_valid Hok), !(unlocked_insert Hok).
        rewrite !(remove_version_valid Hok), !(remove_version_insert Hok). auto.
      - rewrite lookup_insert_ne by assumption. apply similar_refl. }
    assert (Hget1 : ∀ fuel out, (0 < fuel)%nat → get fuel k out h1 = Done (false, out)).
    { intros fuel out _. unfold get. rewrite Hgv1, ret_bind. cbn [negb].
      rewrite (proj2 (as_leaf_Done h1 p l1) Hl1), ret_bind. cbn [vv_version l1].
      rewrite Hv1, (unlocked_valid Hok), (remove_version_valid Hok). reflexivity. }
    exists h1, h2. split; [|split; [|split; [|split; [|split; [|split]]]]].
    + unfold remove. rewrite Hgv, ret_bind. cbn [negb].
      rewrite (proj2 (as_leaf_Done h p l) Hl), ret_bind.
      rewrite (lock_done _ Hul), ret_bind. reflexivity.
    + unfold remove. rewrite Hgv1, ret_bind. cbn [negb].
      rewrite (proj2 (as_leaf_Done h1 p l1) Hl1), ret_bind.
      cbn [vv_version vv_value l1].
      rewrite (lock_done _ Hul1), ret_bind. reflexivity.
    + unfold h1. apply dom_insert_lookup_L. eauto.
    + unfold h2. apply dom_insert_lookup_L. eauto.
    + exact Hsim.
    + intros fuel k' out. symmetry. apply similar_get. exact Hsim.
    + intros fuel out Hfuel. split; [apply Hget1; assumption|].
      rewrite <- (similar_get h1 h2 fuel k out Hsim). apply Hget1. assumption.
  - assert (Hrem : remove k h = Done h).
    { unfold remove. rewrite Hgv, ret_bind. reflexivity. }
    exists h, h. split; [assumption|]. split; [assumption|].
    split; [reflexivity|]. split; [reflexivity|]. split; [apply similar_refl|].
    split; [reflexivity|].
    intros fuel out _. unfold get. rewrite Hgv, ret_bind. auto.
Qed.

End remove.

(** ** Operations on a key that is in the tree *)

Section existing.
Context `{StoConvention}.
Context {K V : Type} `{KeyTransformer K} `{Payload V}.

Abbreviation store := (gmap ptr (cell V)).

(** On a path that is complete, [insert_nodes] changes nothing. *)
Lemma insert_nodes_loop_existing (t_key : list Z) n :
  ∀ i cur (h : store) p,
    (i + n = length t_key)%nat →
    follow h cur (map Z.to_nat (drop i t_key)) = Some p →
    insert_nodes_loop n i t_key cur h = Done (p, h).
Proof.
  induction n as [|n IH]; intros i cur h p Hi Hp.
  - rewrite drop_ge in Hp by lia. simpl in Hp. injection Hp as <-. reflexivity.
  - destruct (lookup_lt_is_Some_2 t_key i) as [tz Htz]; [lia|].
    rewrite (drop_S _ _ _ Htz) in Hp. simpl in Hp.
    destruct (h !! cur) as [[node|]|] eqn:Hnode; try discriminate.
    destruct (children node !! Z.to_nat tz) as [[c|]|] eqn:Hc; try discriminate.
    cbn [insert_nodes_loop].
    rewrite (proj2 (as_node_Done h cur node) Hnode), ret_bind.
    rewrite (proj2 (index_Done t_key i tz) Htz), ret_bind.
    rewrite (proj2 (index_Done _ _ _) Hc), !ret_bind.
    rewrite (proj2 (as_node_Done h cur node) Hnode), ret_bind.
    rewrite (proj2 (index_Done _ _ _) Hc), !ret_bind.
    apply IH; [lia|exact Hp].
Qed.

Lemma put_existing (k : K) (v : V) (h : store) p l :
  length (t_key_of k) = buf_size →
  follow h root_ptr (path_of k) = Some p → h !! p = Some (Leaf l) →
  TransactionTid.is_locked (vv_version l) = false →
  put k v h
  = Done (<[p := Leaf (mk_versioned_value
                        (TransactionTid.unlock
                           (put_version (Z.lor (vv_version l) TransactionTid.lock_bit)))
                        v)]> h).
Proof.
  intros Hlen Hp Hl Hul. unfold put, insert_nodes.
  rewrite (insert_nodes_loop_existing (t_key_of k) buf_size 0 root_ptr h p);
    [|lia|exact Hp].
  rewrite ret_bind, (proj2 (as_leaf_Done h p l) Hl), ret_bind.
  rewrite (lock_done _ Hul), ret_bind. reflexivity.
Qed.

End existing.

(** ** The claims at the sample instantiation *)

Section sample.
#[local] Existing Instance sto_convention.
#[local] Existing Instance Z_payload.
#[local] Existing Instance default_transformer_ok.

Abbreviation store := (gmap ptr (cell Z)).
Abbreviation history := (list (action (K := Z) (V := Z))).

Lemma reachable_tree_after (acts : history) h :
  run acts empty_tree = Done h → reachable (tree_after acts).
Proof. intros Hrun. exists acts. unfold tree_after. rewrite Hrun. reflexivity. Qed.

Lemma quiescent_cells (h : store) :
  map_Forall (λ _ c, match c with
                     | Leaf vv => TransactionTid.is_locked (vv_version vv) = false
                     | Node _ => True
                     end) h →
  quiescent h.
Proof. intros Hall p vv Hp. exact (Hall p (Leaf vv) Hp). Qed.

Lemma transaction_ok_empty : transaction_ok (V := Z) ∅.
Proof. intros p it Hp. rewrite lookup_empty in Hp. discriminate. Qed.

Lemma one_key_reachable : reachable one_key.
Proof. apply (reachable_tree_after _ one_key). vm_compute. reflexivity. Qed.

Lemma one_key_quiescent : quiescent one_key.
Proof.
  apply quiescent_cells. apply map_Forall_to_list.
  vm_compute. repeat constructor.
Qed.

Lemma absent_read_phantom_guard_witness :
  reachable (empty_tree (V := Z)) ∧ transaction_ok (V := Z) ∅ ∧
  get_value 5 (empty_tree (V := Z)) = Done (false, root_ptr) ∧
  run ([] ++ InsertNodes 5 :: []) empty_tree = Done (tree_after [InsertNodes 5]) ∧
  ∃ item,
    trans_get 1 5 0 empty_tree ∅ = Done (false, 0, <[root_ptr := item]> ∅) ∧
    trans_remove 5 empty_tree ∅ = Done (<[root_ptr := item]> ∅) ∧
    has_flag (flags item) item_empty_bit = true ∧
    (∃ nq, empty_tree (V := Z) !! root_ptr = Some (Node nq) ∧
           rdata item = Some (version nq)) ∧
    check item (tree_after [InsertNodes 5]) = Done false.
Proof.
  assert (Hr : reachable (empty_tree (V := Z))) by (exists []; reflexivity).
  assert (Hg : get_value 5 (empty_tree (V := Z)) = Done (false, root_ptr))
    by (vm_compute; reflexivity).
  assert (Hrun : run ([] ++ InsertNodes 5 :: []) empty_tree
                 = Done (tree_after [InsertNodes 5])) by (vm_compute; reflexivity).
  split; [exact Hr|]. split; [exact transaction_ok_empty|].
  split; [exact Hg|]. split; [exact Hrun|].
  exact (absent_read_phantom_guard sto_convention_is_ok 1 5 0 empty_tree
           (tree_after [InsertNodes 5]) ∅ root_ptr [] [] Hr transaction_ok_empty
           Hg Hrun).
Defined.

(** C1 — Absent-read phantom guard: the code lets a phantom through.  On the
    tree that holds key 5, keys 6 and 7 miss at the interior node at
    address 15.  First, a [trans_get(6)] whose descent (line 60) runs before
    another transaction's committed [trans_put(6, 7)] and whose version read
    (line 65) runs after it returns false and records the version the insert
    left behind; second, so does a [trans_remove(6)] with lines 219 and 225;
    third, a [trans_get(6)] that runs as a whole before the committed
    [trans_put(6, 7)], followed by a [trans_get(7)] of the same transaction
    after it, has its recorded version replaced by the new one.  Each time
    the transaction ends with the one item of node 15, flagged [empty_bit],
    [check] on it returns true, and key 6 is in the tree with payload 7. *)
Theorem absent_read_misses_insert :
  (h' ← committed_trans_put 6 7 one_key;
   '(b, _, txn) ← trans_get_at 1 6 0 one_key h' h' ∅;
   c ← check (Sto_item txn 15%nat) h';
   g ← get 1 6 0 h';
   mret (b, map_to_list txn, c, g))
  = Done (false, [(15%nat, mk_TransItem 15%nat item_empty_bit (Some 48) None)],
          true, (true, 7)) ∧
  (h' ← committed_trans_put 6 7 one_key;
   txn ← trans_remove_at 6 one_key h' ∅;
   c ← check (Sto_item txn 15%nat) h';
   g ← get 1 6 0 h';
   mret (map_to_list txn, c, g))
  = Done ([(15%nat, mk_TransItem 15%nat item_empty_bit (Some 48) None)],
          true, (true, 7)) ∧
  ('(b1, _, txn1) ← trans_get 1 6 0 one_key ∅;
   h' ← committed_trans_put 6 7 one_key;
   c1 ← check (Sto_item txn1 15%nat) h';
   '(b2, _, txn2) ← trans_get 1 7 0 h' txn1;
   c2 ← check (Sto_item txn2 15%nat) h';
   g ← get 1 6 0 h';
   mret (b1, map_to_list txn1, c1, b2, map_to_list txn2, c2, g))
  = Done (false, [(15%nat, mk_TransItem 15%nat item_empty_bit (Some 32) None)], false,
          false, [(15%nat, mk_TransItem 15%nat item_empty_bit (Some 48) None)], true,
          (true, 7)).
Proof. repeat split; vm_compute; reflexivity. Qed.


Lemma one_key_leaf : one_key !! 16%nat = Some (Leaf (mk_versioned_value 18 42)).
Proof. vm_compute. reflexivity. Qed.

Lemma one_key_get_value : get_value 5 one_key = Done (true, 16%nat).
Proof. vm_compute. reflexivity. Qed.

Lemma put_get_round_trip_witness :
  reachable one_key ∧ quiescent one_key ∧ (0 < 1)%nat ∧
  ∃ h', put 5 43 one_key = Done h' ∧ get 1 5 0 h' = Done (true, 43).
Proof.
  split; [exact one_key_reachable|]. split; [exact one_key_quiescent|].
  split; [lia|].
  apply (put_get_round_trip sto_convention_is_ok 1 5 43 0 one_key
           one_key_reachable one_key_quiescent). lia.
Defined.

Lemma trans_put_then_trans_get_witness :
  reachable one_key ∧
  ∃ h' txn', trans_put 7 43 one_key ∅ = Done (h', txn') ∧
             trans_get 1 7 0 h' txn' = Done (true, 43, txn').
Proof.
  split; [exact one_key_reachable|].
  exact (trans_put_then_trans_get sto_convention_is_ok 1 7 43 0 one_key ∅
           one_key_reachable).
Defined.

Lemma trans_remove_then_trans_get_witness :
  get_value 5 one_key = Done (true, 16%nat) ∧
  ∃ txn', trans_remove 5 one_key ∅ = Done txn' ∧
          trans_get 1 5 0 one_key txn' = Done (true, from_marker true, txn').
Proof.
  split; [exact one_key_get_value|].
  exact (trans_remove_then_trans_get 1 5 0 one_key ∅ 16%nat one_key_get_value).
Defined.



Lemma leaf_never_inserting_and_valid_witness :
  reachable one_key ∧ one_key !! 16%nat = Some (Leaf (mk_versioned_value 18 42)) ∧
  ¬ (has_flag 18 ver_insert_bit = true ∧ has_flag 18 valid_bit = true).
Proof.
  split; [exact one_key_reachable|]. split; [exact one_key_leaf|].
  exact (leaf_never_inserting_and_valid sto_convention_is_ok one_key 16%nat
           (mk_versioned_value 18 42) one_key_reachable one_key_leaf).
Defined.

Lemma remove_idempotent_witness :
  reachable one_key ∧ quiescent one_key ∧
  ∃ h1 h2, remove 5 one_key = Done h1 ∧ remove 5 h1 = Done h2 ∧
    dom h1 = dom one_key ∧ dom h2 = dom h1 ∧ similar h1 h2 ∧
    (∀ fuel (k' : Z) out, get fuel k' out h2 = get fuel k' out h1) ∧
    (∀ fuel out, (0 < fuel)%nat →
       get fuel 5 out h1 = Done (false, out) ∧ get fuel 5 out h2 = Done (false, out)).
Proof.
  split; [exact one_key_reachable|]. split; [exact one_key_quiescent|].
  exact (remove_idempotent sto_convention_is_ok 5 one_key
           one_key_reachable one_key_quiescent).
Defined.

Lemma leaf_version_monotone_witness :
  reachable one_key ∧
  run [Remove 5; Put 5 7] one_key = Done (tree_after [Put 5 42; Remove 5; Put 5 7]) ∧
  one_key !! 16%nat = Some (Leaf (mk_versioned_value 18 42)) ∧
  (TransactionTid.counter 18 + Z.of_nat (length [Remove 5; Put 5 7]) + 1)
    * increment_value ≤ 2 ^ tid_bits ∧
  ∃ vv', tree_after [Put 5 42; Remove 5; Put 5 7] !! 16%nat = Some (Leaf vv') ∧
         unlocked 18 ≤ unlocked (vv_version vv').
Proof.
  assert (Hrun : run [Remove 5; Put 5 7] one_key
                 = Done (tree_after [Put 5 42; Remove 5; Put 5 7]))
    by (vm_compute; reflexivity).
  assert (Hroom : (TransactionTid.counter 18
                   + Z.of_nat (length (A := action) [Remove 5; Put 5 7]) + 1)
                  * increment_value ≤ 2 ^ tid_bits) by (vm_compute; discriminate).
  split; [exact one_key_reachable|]. split; [exact Hrun|].
  split; [exact one_key_leaf|]. split; [exact Hroom|].
  exact (leaf_version_monotone sto_convention_is_ok [Remove 5; Put 5 7] one_key _
           16%nat (mk_versioned_value 18 42) one_key_reachable Hrun one_key_leaf
           Hroom).
Defined.

(** What a [put] does to the version of a leaf that is valid and unlocked. *)
Lemma put_version_sample m :
  0 ≤ m → m + 2 ≤ 2 ^ 60 →
  TransactionTid.unlock (put_version (Z.lor (16 * m + 2) TransactionTid.lock_bit))
  = 16 * (m + 1) + 2.
Proof.
  intros Hm Hb.
  assert (Hul : TransactionTid.is_locked (16 * m + 2) = false).
  { apply is_locked_even. rewrite Z.add_comm, Z.mul_comm.
    replace (2 + m * 16) with (2 + (m * 8) * 2) by lia.
    rewrite Z.mod_add by lia. reflexivity. }
  rewrite (lor_lock_bit _ Hul).
  rewrite (unlock_eq sto_convention_is_ok) by apply (put_version_word sto_convention_is_ok).
  rewrite (put_version_eq sto_convention_is_ok).
  unfold unlocked, ver_insert_bit. cbn [valid_bit user_bit1 increment_value sto_convention].
  rewrite wrap_small by (cbn [tid_bits sto_convention]; lia).
  set (y := 16 * m + 2 + 1 + 16).
  assert (Hy0 : Z.testbit y 0 = true).
  { rewrite Z.bit0_eqb. unfold y. replace (16 * m + 2 + 1 + 16) with (1 + (8 * m + 9) * 2) by lia.
    rewrite Z.mod_add by lia. reflexivity. }
  assert (Hy1 : Z.testbit y 1 = true).
  { apply Z.testbit_true; [lia|]. unfold y. change (2 ^ 1) with 2.
    replace (16 * m + 2 + 1 + 16) with (1 + (8 * m + 9) * 2) by lia.
    rewrite Z.div_add by lia. change (1 / 2) with 0.
    replace (0 + (8 * m + 9)) with (1 + (4 * m + 4) * 2) by lia.
    rewrite Z.mod_add by lia. reflexivity. }
  assert (Hy2 : Z.testbit y 2 = false).
  { apply Z.testbit_false; [lia|]. unfold y. change (2 ^ 2) with 4.
    replace (16 * m + 2 + 1 + 16) with (3 + (4 * m + 4) * 4) by lia.
    rewrite Z.div_add by lia. change (3 / 4) with 0.
    replace (0 + (4 * m + 4)) with (0 + (2 * m + 2) * 2) by lia.
    rewrite Z.mod_add by lia. reflexivity. }
  assert (E1 : Z.lor y 2 = y).
  { pose proof (Z.add_lor_land y 2) as Hs. change 2 with (2 ^ 1) in Hs at 2 3.
    rewrite land_pow2, Hy1 in Hs by lia. change (2 ^ 1) with 2 in Hs. lia. }
  assert (E2 : Z.ldiff y 4 = y).
  { pose proof (ldiff_land_sum y 4) as Hs. change 4 with (2 ^ 2) in Hs at 2.
    rewrite land_pow2, Hy2 in Hs by lia. lia. }
  assert (E3 : Z.ldiff y TransactionTid.lock_bit = y - 1).
  { pose proof (ldiff_land_sum y TransactionTid.lock_bit) as Hs.
    change TransactionTid.lock_bit with (2 ^ 0) in Hs at 2.
    rewrite land_pow2, Hy0 in Hs by lia. change (2 ^ 0) with 1 in Hs. lia. }
  rewrite E1, E2, E3. unfold y. lia.
Qed.

Lemma one_key_follow : follow one_key root_ptr (path_of (K := Z) 5) = Some 16%nat.
Proof. vm_compute. reflexivity. Qed.

(** [n] more [put]s on [one_key] leave the leaf with the increment field at
    [n + 1]. *)
Lemma one_key_puts (n : nat) :
  Z.of_nat n + 2 ≤ 2 ^ 60 →
  run (repeat (Put 5 42) n) one_key
  = Done (<[16%nat := Leaf (mk_versioned_value (16 * (Z.of_nat n + 1) + 2) 42)]> one_key).
Proof.
  induction n as [|n IH]; intros Hn.
  - cbn [repeat run]. change (16 * (Z.of_nat 0 + 1) + 2) with 18.
    rewrite insert_id; [reflexivity|exact one_key_leaf].
  - cbn [repeat]. rewrite repeat_cons, run_app, IH by lia. rewrite ret_bind.
    cbn [run step]. 
    rewrite (put_existing 5 42 _ 16%nat
               (mk_versioned_value (16 * (Z.of_nat n + 1) + 2) 42)).
    + rewrite ret_bind. cbn [vv_version].
      rewrite put_version_sample, insert_insert_eq by lia.
      do 4 f_equal. lia.
    + reflexivity.
    + rewrite (follow_leaf_update one_key 16%nat _ _ _ _ one_key_leaf).
      exact one_key_follow.
    + apply lookup_insert_eq.
    + cbn [vv_version]. apply is_locked_even.
      replace (16 * (Z.of_nat n + 1) + 2) with (0 + (8 * (Z.of_nat n + 1) + 1) * 2) by lia.
      rewrite Z.mod_add by lia. reflexivity.
Qed.

Lemma one_key_worn_after (n : nat) :
  Z.of_nat n = 2 ^ 60 - 2 → run (repeat (Put 5 42) n) one_key = Done one_key_worn.
Proof.
  intros Hn. rewrite one_key_puts by lia. rewrite Hn. reflexivity.
Qed.

(** The worn leaf is what [2^60 - 1] calls of [put(5, 42)] leave behind. *)
Lemma one_key_worn_reachable : reachable one_key_worn.
Proof.
  assert (Hpos : 0 ≤ 2 ^ 60 - 2) by lia.
  exact (reachable_run _ one_key one_key_worn one_key_reachable
           (one_key_worn_after (Z.to_nat (2 ^ 60 - 2)) (Z2Nat.id _ Hpos))).
Qed.

(** C8, as stated, fails when the increment field is full: on the tree that
    [2^60 - 1] calls of [put(5, 42)] leave behind, one more [put] wraps the
    version word of the leaf around, from [2^64 - 14] to [2]. *)
Lemma leaf_version_wraps_counterexample :
  reachable one_key_worn ∧
  one_key_worn !! 16%nat = Some (Leaf (mk_versioned_value (2 ^ 64 - 14) 42)) ∧
  ∃ h', run [Put 5 42] one_key_worn = Done h' ∧
        h' !! 16%nat = Some (Leaf (mk_versioned_value 2 42)) ∧
        unlocked 2 < unlocked (2 ^ 64 - 14).
Proof.
  split; [exact one_key_worn_reachable|].
  split; [vm_compute; reflexivity|].
  eexists. split; [vm_compute; reflexivity|].
  split; [vm_compute; reflexivity|]. vm_compute. reflexivity.
Qed.

(** A leaf held by a committing transaction, and an item that stages a
    remove and no put. *)
Lemma install_semantics_witness :
  let item := mk_TransItem 16%nat item_remove_bit None (Some (PBool true)) in
  let h := <[16%nat := Leaf (mk_versioned_value 19 42)]> one_key in
  h !! key item = Some (Leaf (mk_versioned_value 19 42)) ∧
  ∃ new, install item h
         = Done (<[key item := Leaf (mk_versioned_value new 42)]> h) ∧
         has_flag new valid_bit = false ∧ has_flag new ver_insert_bit = false.
Proof.
  intros item h.
  assert (Hl : h !! key item = Some (Leaf (mk_versioned_value 19 42)))
    by apply lookup_insert_eq.
  split; [exact Hl|].
  destruct (install_semantics sto_convention_is_ok item h _ Hl) as (_ & Hrem & _).
  destruct (Hrem eq_refl eq_refl) as (new & Hrun & Hv & Hi & _).
  exists new. auto.
Defined.

(** C4 — Install callback semantics: [install] misses a remove that follows
    a put of the same transaction.  After [trans_put(5, 42); trans_remove(5)]
    in one transaction on the empty tree the item of the leaf (address 16)
    carries [remove_bit], for which the valid bit is to be cleared, as
    [remove] and the [install] of a remove alone do; [trans_remove] has left
    [put_bit] set, [install] tests [remove_bit] in the else branch only, and
    so it sets the valid bit and writes the staged write, by now the marker
    of the remove, into the value cell: key 5 is present with payload 1. *)
Lemma install_both_flags_counterexample :
  ('(h, txn) ← trans_put 5 42 empty_tree ∅;
   txn ← trans_remove 5 h txn;
   let item := Sto_item txn 16%nat in
   h ← lock item h;
   h ← install item h;
   l ← as_leaf h (key item);
   mret (key item, has_flag (flags item) item_remove_bit,
         has_flag (vv_version l) valid_bit, vv_value l))
  = Done (16%nat, true, true, 1).
Proof. vm_compute. reflexivity. Qed.

(** The second [remove] of C9 is not a no-op on the store: it advances the
    increment field of the leaf once more. *)
Lemma remove_twice_versions :
  (h1 ← remove 5 one_key;
   h2 ← remove 5 h1;
   l1 ← as_leaf h1 16%nat;
   l2 ← as_leaf h2 16%nat;
   mret (vv_version l1, vv_version l2))
  = Done (32, 48).
Proof. vm_compute. reflexivity. Qed.

End sample.

(** * Further properties of the tree *)

(** ** Which paths [insert_nodes] adds *)

Section paths.
Context `{StoConvention}.
Context {K V : Type} `{KeyTransformer K} `{Payload V}.
Context (Hok : convention_ok) `{!KeyTransformerOk K}.

Abbreviation store := (gmap ptr (cell V)).

(** A path of the store after [insert_nodes] is an old one or runs along the
    key. *)
Lemma insert_nodes_loop_paths (t_key : list Z) n :
  length t_key = buf_size →
  Forall (λ x, 0 ≤ x < fanout) t_key →
  ∀ i cur (h : store) p h',
    tree_inv h → (i + n = buf_size)%nat →
    follow h root_ptr (map Z.to_nat (take i t_key)) = Some cur →
    insert_nodes_loop n i t_key cur h = Done (p, h') →
    (follow h root_ptr (map Z.to_nat t_key) = Some p ∨ h !! p = None) ∧
    ∀ path q, follow h' root_ptr path = Some q →
      follow h root_ptr path = Some q ∨
      ∃ j, path = map Z.to_nat (take j t_key).
Proof.
  intros Hlen Hrange. induction n as [|n IH]; intros i cur h p h' Hinv Hi Hcur Hrun.
  - simpl in Hrun. injection Hrun as <- <-. rewrite take_ge in Hcur by lia. auto.
  - assert (Hpl : length (map Z.to_nat (take i t_key)) = i).
    { rewrite length_map, length_take. lia. }
    destruct (inv_interior h Hinv _ _ Hcur) as [node Hnode]; [lia|].
    destruct (lookup_lt_is_Some_2 t_key i) as [tz Htz]; [lia|].
    assert (Htr : 0 ≤ tz < fanout).
    { rewrite Forall_lookup in Hrange. exact (Hrange _ _ Htz). }
    destruct (inv_node h Hinv _ _ Hnode) as [Hcl Hcv].
    destruct (lookup_lt_is_Some_2 (children node) (Z.to_nat tz)) as [c Hc]; [lia|].
    pose proof (proj2 (as_node_Done h cur node) Hnode) as Enode.
    pose proof (proj2 (index_Done t_key i tz) Htz) as Etz.
    pose proof (proj2 (index_Done _ _ _) Hc) as Ec.
    cbn [insert_nodes_loop] in Hrun.
    rewrite Enode, ret_bind, Etz, ret_bind, Ec, ret_bind in Hrun.
    destruct c as [c|].
    + rewrite ret_bind, Enode, ret_bind, Ec, ret_bind in Hrun.
      apply (IH (S i) c h p h' Hinv); [lia| |exact Hrun].
      rewrite (take_path _ _ _ Htz). apply follow_snoc. eauto.
    + unfold alloc in Hrun. pose proof (fresh_unused h) as Hfresh.
      set (f := fresh (dom h)) in *.
      set (pre := map Z.to_nat (take i t_key)) in *.
      assert (Hlt : (length pre < buf_size)%nat) by lia.
      pose proof (fill_publish Hok h pre cur f node (Z.to_nat tz) tz) as Hpub.
      pose proof (fill_tree_inv Hok h pre cur f node (Z.to_nat tz) tz) as Hinv'.
      pose proof (fill_follow_new h pre cur f node (Z.to_nat tz) tz) as Hnew.
      pose proof (fill_extends h pre cur f node (Z.to_nat tz) tz) as Hext.
      pose proof (fill_follow_inv h pre cur f node (Z.to_nat tz) tz) as Hconv.
      feed Hpub. feed Hinv'. feed Hnew. feed Hext. feed Hconv.
      rewrite Hpl in *. rewrite Hpub, ret_bind in Hrun.
      match type of Hinv' with tree_inv ?x => set (h1 := x) in * end.
      destruct (follow_snoc h1 root_ptr pre (Z.to_nat tz) f) as [Hsn _].
      destruct (Hsn Hnew) as (m & nm & Hm & Hnm & Hcm).
      assert (m = cur) as ->.
      { pose proof (follow_extends _ _ _ _ _ Hext Hcur). congruence. }
      rewrite (proj2 (as_node_Done h1 cur nm) Hnm), ret_bind in Hrun.
      rewrite (proj2 (index_Done _ _ _) Hcm), ret_bind in Hrun.
      destruct (IH (S i) f h1 p h' Hinv') as [Hres Hpaths]; [lia| |exact Hrun|].
      { rewrite (take_path _ _ _ Htz). exact Hnew. }
      split.
      * destruct Hres as [Hfull|Hnone].
        -- destruct (Hconv _ _ Hfull) as [Hold'|[_ ->]]; auto.
        -- right. destruct (h !! p) as [[m|l]|] eqn:Hp; [| |reflexivity].
           ++ destruct (proj1 Hext _ _ Hp) as (m' & Hm' & _). congruence.
           ++ destruct (proj2 Hext _ _ Hp) as (l' & Hl'). congruence.
      * intros path q Hq. destruct (Hpaths _ _ Hq) as [Hold|[j Hj]]; [|right; eauto].
        destruct (Hconv _ _ Hold) as [Hold'|[-> _]]; [auto|].
        right. exists (S i). rewrite (take_path _ _ _ Htz). reflexivity.
Qed.

Lemma insert_nodes_paths (k : K) (h h' : store) p :
  tree_inv h → insert_nodes k h = Done (p, h') →
  (follow h root_ptr (path_of k) = Some p ∨ h !! p = None) ∧
  ∀ k' q, follow h' root_ptr (path_of k') = Some q →
    follow h root_ptr (path_of k') = Some q ∨ path_of k' = path_of k.
Proof.
  intros Hinv Hrun.
  destruct (insert_nodes_loop_paths (t_key_of k) buf_size (t_key_length k)
              (t_key_range k) 0%nat root_ptr h p h' Hinv) as [Hres Hpaths];
    [lia|reflexivity|exact Hrun|].
  split; [exact Hres|]. intros k' q Hq.
  destruct (Hpaths _ _ Hq) as [Hold|[j Hj]].
  - auto.
  - right. assert (Hjl : (buf_size ≤ j)%nat).
    { apply (f_equal length) in Hj.
      rewrite path_of_length, length_map, length_take, t_key_length in Hj. lia. }
    rewrite Hj, take_ge by (rewrite t_key_length; lia). reflexivity.
Qed.

(** What [put] does, read off a call that returned. *)
Lemma put_shape (k : K) (v : V) (h h' : store) :
  tree_inv h → put k v h = Done h' →
  ∃ p h1 l, insert_nodes k h = Done (p, h1) ∧ tree_inv h1 ∧ grows h h1 ∧
    follow h1 root_ptr (path_of k) = Some p ∧ h1 !! p = Some (Leaf l) ∧
    TransactionTid.is_locked (vv_version l) = false ∧
    h' = <[p := Leaf (mk_versioned_value
                        (TransactionTid.unlock
                           (put_version (Z.lor (vv_version l) TransactionTid.lock_bit)))
                        v)]> h1.
Proof.
  intros Hinv Hrun.
  destruct (insert_nodes_spec Hok k h Hinv) as (p & h1 & Hins & Hinv1 & Hg & Hp).
  unfold put in Hrun. rewrite Hins, ret_bind in Hrun.
  apply bind_Done in Hrun as (l & Hl & Hrun). apply as_leaf_Done in Hl.
  apply bind_Done in Hrun as (w & Hw & Hrun).
  apply lock_Done_inv in Hw as [Hul ->]. injection Hrun as <-.
  exists p, h1, l. auto 10.
Qed.

(** What [remove] does, read off a call that returned. *)
Lemma remove_shape (k : K) (h h' : store) :
  tree_inv h → remove k h = Done h' →
  (∃ q, get_value k h = Done (false, q) ∧ h' = h) ∨
  (∃ p l, get_value k h = Done (true, p) ∧
     follow h root_ptr (path_of k) = Some p ∧ h !! p = Some (Leaf l) ∧
     TransactionTid.is_locked (vv_version l) = false ∧
     h' = <[p := Leaf (mk_versioned_value
                         (TransactionTid.unlock
                            (remove_version (Z.lor (vv_version l) TransactionTid.lock_bit)))
                         (vv_value l))]> h).
Proof.
  intros Hinv Hrun. unfold remove in Hrun.
  destruct (get_value_spec k h Hinv) as
    [(p & Hgv & Hp)|(q & j & tz & nq & Hgv & _)]; rewrite Hgv, ret_bind in Hrun.
  - right. cbn [negb] in Hrun.
    apply bind_Done in Hrun as (l & Hl & Hrun). apply as_leaf_Done in Hl.
    apply bind_Done in Hrun as (w & Hw & Hrun).
    apply lock_Done_inv in Hw as [Hul ->]. injection Hrun as <-.
    exists p, l. auto 10.
  - left. injection Hrun as <-. eauto.
Qed.

(** *** What [get] returns *)

Lemma get_at_leaf fuel (k : K) (out : V) (h : store) p l :
  tree_inv h → follow h root_ptr (path_of k) = Some p → h !! p = Some (Leaf l) →
  get fuel k out h
  = if has_flag (vv_version l) valid_bit
    then match fuel with O => Spin | S _ => Done (true, vv_value l) end
    else Done (false, out).
Proof.
  intros Hinv Hp Hl. unfold get.
  rewrite (get_value_found k h p Hinv Hp), ret_bind. cbn [negb].
  rewrite (proj2 (as_leaf_Done h p l) Hl), ret_bind.
  destruct (has_flag (vv_version l) valid_bit); cbn [negb]; [|reflexivity].
  destruct fuel as [|fuel]; [reflexivity|].
  rewrite (atomic_read_quiet fuel h p l Hl). reflexivity.
Qed.

Lemma get_absent fuel (k : K) (out : V) (h : store) q :
  get_value k h = Done (false, q) → get fuel k out h = Done (false, out).
Proof. intros Hgv. unfold get. rewrite Hgv. reflexivity. Qed.

End paths.

(** ** Shape and stability of the tree *)

Section shape.
Context `{StoConvention}.
Context {K V : Type} `{KeyTransformer K} `{Payload V}.
Context (Hok : convention_ok) `{!KeyTransformerOk K}.

Abbreviation store := (gmap ptr (cell V)).

(** X1 — In a reachable store a path from the root has at most [buf_size]
    steps; after fewer steps it is at an interior node with [fanout] slots,
    after [buf_size] steps at a leaf; and no cell is reached along two
    paths. *)
Theorem reachable_tree_shape (h : store) (path : list nat) (p : ptr) :
  reachable h → follow h root_ptr path = Some p →
  (length path ≤ buf_size)%nat ∧
  ((length path < buf_size)%nat →
     ∃ n, h !! p = Some (Node n) ∧ length (children n) = Z.to_nat fanout) ∧
  (length path = buf_size → ∃ vv, h !! p = Some (Leaf vv)) ∧
  (∀ path', follow h root_ptr path' = Some p → path' = path).
Proof.
  intros Hreach Hp. pose proof (reachable_tree_inv Hok h Hreach) as Hinv.
  split; [exact (follow_length h path p Hinv Hp)|]. split; [|split].
  - intros Hl. destruct (inv_interior h Hinv _ _ Hp Hl) as [n Hn].
    exists n. split; [exact Hn|]. exact (proj1 (inv_node h Hinv _ _ Hn)).
  - intros Hl. exact (inv_frontier h Hinv _ _ Hp Hl).
  - intros path' Hp'. exact (inv_inj h Hinv _ _ _ Hp' Hp).
Qed.

(** X2 — In a reachable store the version of an interior node is the
    increment times one plus the number of its filled slots: it starts at one
    increment and [insert_nodes] adds one per child it publishes.  The node
    lock is free, and the version is at most 17 increments. *)
Theorem node_version_counts_children (h : store) (p : ptr) (n : tree_node) :
  reachable h → h !! p = Some (Node n) →
  version n = increment_value * (1 + Z.of_nat (filled (children n))) ∧
  TransactionTid.is_locked (version n) = false ∧
  increment_value ≤ version n ≤ 17 * increment_value.
Proof.
  intros Hreach Hn. pose proof (reachable_tree_inv Hok h Hreach) as Hinv.
  destruct (inv_node h Hinv _ _ Hn) as [Hl Hv]. split; [exact Hv|]. split.
  - rewrite Hv. apply (node_version_unlocked Hok).
  - pose proof (filled_le (children n)) as Hf. rewrite Hl in Hf.
    change (Z.to_nat fanout) with 16%nat in Hf.
    pose proof (increment_value_pos Hok). rewrite Hv. nia.
Qed.

(** X3 — Nothing is ever taken out of the tree.  Across any history every
    cell stays allocated, a filled child slot keeps its child, and the leaf
    of a key stays at its address. *)
Theorem cells_are_stable (acts : list action) (h h' : store) :
  reachable h → run acts h = Done h' →
  dom h ⊆ dom h' ∧
  (∀ p n t c, h !! p = Some (Node n) → children n !! t = Some (Some c) →
     ∃ n', h' !! p = Some (Node n') ∧ children n' !! t = Some (Some c)) ∧
  (∀ (k : K) p, get_value k h = Done (true, p) → get_value k h' = Done (true, p)).
Proof.
  intros Hreach Hrun. pose proof (reachable_tree_inv Hok h Hreach) as Hinv.
  destruct (run_tree_inv Hok acts h h' Hinv Hrun) as [Hinv' Hext].
  split; [|split].
  - intros p Hp. apply elem_of_dom in Hp as [c Hc]. apply elem_of_dom.
    destruct c as [n|l].
    + destruct (proj1 Hext _ _ Hc) as (n' & -> & _). eauto.
    + destruct (proj2 Hext _ _ Hc) as (l' & ->). eauto.
  - intros p n t c Hn Hc. destruct (proj1 Hext _ _ Hn) as (n' & Hn' & Hmono).
    eauto.
  - intros k p Hgv.
    destruct (get_value_spec k h Hinv) as
      [(p0 & Hgv0 & Hp)|(q & j & tz & nq & Hgv0 & _)]; [|congruence].
    assert (p0 = p) as -> by congruence.
    apply (get_value_found k h' p Hinv'). exact (follow_extends _ _ _ _ _ Hext Hp).
Qed.

(** X4 — On a reachable store no operation runs into a null or wrongly
    typed pointer or an index out of range, and the ones that take no leaf
    lock return: [get_value], [insert_nodes], [get], [trans_put] and
    [trans_remove] return, and [trans_get] returns or aborts. *)
Theorem operations_are_safe (fuel : nat) (k : K) (v out : V) (h : store)
    (txn : gmap ptr (TransItem V)) :
  reachable h → (0 < fuel)%nat →
  (∃ r, get_value k h = Done r) ∧
  (∃ r, insert_nodes k h = Done r) ∧
  (∃ r, get fuel k out h = Done r) ∧
  (∃ r, trans_put k v h txn = Done r) ∧
  (∃ r, trans_remove k h txn = Done r) ∧
  (trans_get fuel k out h txn = Abort ∨ ∃ r, trans_get fuel k out h txn = Done r).
Proof.
  intros Hreach Hfuel. pose proof (reachable_tree_inv Hok h Hreach) as Hinv.
  destruct fuel as [|fuel]; [lia|].
  destruct (insert_nodes_spec Hok k h Hinv) as (pi & hi & Hins & _).
  assert (Hput : ∃ r, trans_put k v h txn = Done r).
  { unfold trans_put. rewrite Hins, ret_bind. eauto. }
  destruct (get_value_spec k h Hinv) as
    [(p & Hgv & Hp)|(q & j & tz & nq & Hgv & _ & _ & Hnq & _)].
  - destruct (inv_frontier h Hinv _ _ Hp (path_of_length k)) as [l Hl].
    split; [eauto|]. split; [eauto|]. split; [|split; [exact Hput|split]].
    + rewrite (get_at_leaf (S fuel) k out h p l Hinv Hp Hl).
      destruct (has_flag _ _); eauto.
    + unfold trans_remove. rewrite Hgv, ret_bind. cbn [negb]. eauto.
    + unfold trans_get. rewrite Hgv, ret_bind. cbn [negb].
      unfold has_write, write_value, has_read, read_value.
      destruct (wdata (Sto_item txn p)) as [[w|b]|] eqn:Hw.
      * rewrite bool_decide_eq_true_2 by eauto. right. eauto.
      * rewrite bool_decide_eq_true_2 by eauto. right. eauto.
      * rewrite bool_decide_eq_false_2 by (intros [? ?]; discriminate).
        rewrite (proj2 (as_leaf_Done h p l) Hl), ret_bind.
        destruct (rdata (Sto_item txn p)) as [r|] eqn:Hr.
        -- rewrite bool_decide_eq_true_2 by eauto. rewrite !ret_bind.
           destruct (TransactionTid.same_version r (vv_version l)); cbn [negb].
           ++ rewrite (atomic_read_quiet fuel h p l Hl), ret_bind. right. eauto.
           ++ left. reflexivity.
        -- rewrite bool_decide_eq_false_2 by (intros [? ?]; discriminate).
           rewrite ret_bind, (atomic_read_quiet fuel h p l Hl), ret_bind.
           right. eauto.
  - split; [eauto|]. split; [eauto|]. split; [|split; [exact Hput|split]].
    + rewrite (get_absent (S fuel) k out h q Hgv). eauto.
    + unfold trans_remove. rewrite Hgv, ret_bind. cbn [negb].
      rewrite (proj2 (as_node_Done h q nq) Hnq), ret_bind. eauto.
    + unfold trans_get. rewrite Hgv, ret_bind. cbn [negb].
      rewrite (proj2 (as_node_Done h q nq) Hnq), ret_bind. right. eauto.
Qed.

(** X5 — [insert_nodes] is idempotent: called again for the same key it
    returns the same leaf and leaves the store as it is (it allocates
    nothing and bumps no version). *)
Theorem insert_nodes_twice (k : K) (h : store) :
  reachable h →
  ∃ p h1, insert_nodes k h = Done (p, h1) ∧ insert_nodes k h1 = Done (p, h1).
Proof.
  intros Hreach. pose proof (reachable_tree_inv Hok h Hreach) as Hinv.
  destruct (insert_nodes_spec Hok k h Hinv) as (p & h1 & Hins & Hinv1 & _ & Hp).
  exists p, h1. split; [exact Hins|]. unfold insert_nodes.
  apply insert_nodes_loop_existing; [rewrite t_key_length; lia|exact Hp].
Qed.

Lemma fresh_leaf_not_valid : has_flag ver_insert_bit valid_bit = false.
Proof.
  pose proof (ver_insert_bit_state Hok) as Hst. unfold leaf_state_ok in Hst.
  destruct (has_flag ver_insert_bit valid_bit) eqn:E; [|reflexivity].
  exfalso. apply Hst. split; [|reflexivity].
  unfold ver_insert_bit. rewrite (insert_single Hok).
  pose proof (insert_pos Hok).
  rewrite has_flag_testbit by lia. apply Z.pow2_bits_true. lia.
Qed.

Lemma insert_nodes_get (k : K) (h h1 : store) p fuel (k' : K) (out : V) :
  tree_inv h → tree_inv h1 → grows h h1 → insert_nodes k h = Done (p, h1) →
  follow h1 root_ptr (path_of k) = Some p →
  get fuel k' out h1 = get fuel k' out h.
Proof.
  intros Hinv Hinv1 Hg Hins Hp.
  destruct (insert_nodes_paths Hok k h h1 p Hinv Hins) as [Hres Hpaths].
  destruct Hg as (Hext & Hkept & Hnew).
  destruct (get_value_spec k' h Hinv) as
    [(p' & Hgv & Hp')|(q & j & tz & nq & Hgv & _)].
  - destruct (inv_frontier h Hinv _ _ Hp' (path_of_length k')) as [l' Hl'].
    rewrite (get_at_leaf fuel k' out h p' l' Hinv Hp' Hl').
    apply (get_at_leaf fuel k' out h1 p' l' Hinv1).
    + exact (follow_extends _ _ _ _ _ Hext Hp').
    + exact (Hkept _ _ Hl').
  - rewrite (get_absent fuel k' out h q Hgv).
    destruct (get_value_spec k' h1 Hinv1) as
      [(p'' & Hgv1 & Hp'')|(q1 & j1 & tz1 & nq1 & Hgv1 & _)].
    + destruct (Hpaths _ _ Hp'') as [Hold|Hsame].
      { rewrite (get_value_found k' h p'' Hinv Hold) in Hgv. discriminate. }
      assert (p'' = p) as -> by congruence.
      destruct (inv_frontier h1 Hinv1 _ _ Hp (path_of_length k)) as [l Hl].
      rewrite (get_at_leaf fuel k' out h1 p l Hinv1 Hp'' Hl).
      destruct Hres as [Hfound|Hnone].
      { rewrite <- Hsame in Hfound.
        rewrite (get_value_found k' h p Hinv Hfound) in Hgv. discriminate. }
      destruct (Hnew _ _ Hl) as [Hold|[_ ->]]; [congruence|].
      cbn [vv_version]. rewrite fresh_leaf_not_valid. reflexivity.
    + apply (get_absent fuel k' out h1 q1 Hgv1).
Qed.

(** X6 — The structural part of a [trans_put] shows to no reader: after
    [insert_nodes(k)] every [get] returns what it returned before; a key
    whose leaf was only allocated, not installed, is still absent. *)
Theorem insert_nodes_is_invisible (k : K) (h : store) :
  reachable h →
  ∃ p h1, insert_nodes k h = Done (p, h1) ∧
    ∀ fuel (k' : K) out, get fuel k' out h1 = get fuel k' out h.
Proof.
  intros Hreach. pose proof (reachable_tree_inv Hok h Hreach) as Hinv.
  destruct (insert_nodes_spec Hok k h Hinv) as (p & h1 & Hins & Hinv1 & Hg & Hp).
  exists p, h1. split; [exact Hins|]. intros fuel k' out.
  exact (insert_nodes_get k h h1 p fuel k' out Hinv Hinv1 Hg Hins Hp).
Qed.

Lemma as_node_leaf_update (h : store) p l l' cur :
  h !! p = Some (Leaf l) → as_node (<[p := Leaf l']> h) cur = as_node h cur.
Proof.
  intros Hl. unfold as_node. destruct (decide (p = cur)) as [->|Hne].
  - rewrite lookup_insert_eq, Hl. reflexivity.
  - rewrite lookup_insert_ne by assumption. reflexivity.
Qed.

Lemma get_value_leaf_update (h : store) p l l' (k : K) :
  h !! p = Some (Leaf l) → get_value k (<[p := Leaf l']> h) = get_value k h.
Proof.
  intros Hl. unfold get_value. generalize (t_key_of k) root_ptr 0%nat.
  induction buf_size as [|n IH]; intros t_key cur i; [reflexivity|].
  cbn [get_value_loop]. rewrite (as_node_leaf_update h p l l' cur Hl).
  destruct (as_node h cur) as [node| | |]; try reflexivity. rewrite !ret_bind.
  destruct (index t_key i) as [t| | |]; try reflexivity. rewrite !ret_bind.
  destruct (index (children node) (Z.to_nat t)) as [[c|]| | |]; try reflexivity.
  rewrite !ret_bind. apply IH.
Qed.

(** A write to the leaf of one key does not show in a [get] along another
    path. *)
Lemma get_leaf_update (h : store) p l l' (k k' : K) fuel out :
  tree_inv h → follow h root_ptr (path_of k) = Some p → h !! p = Some (Leaf l) →
  path_of k' ≠ path_of k →
  get fuel k' out (<[p := Leaf l']> h) = get fuel k' out h.
Proof.
  intros Hinv Hp Hl Hne. unfold get. rewrite (get_value_leaf_update h p l l' k' Hl).
  destruct (get_value_spec k' h Hinv) as
    [(p' & Hgv & Hp')|(q & j & tz & nq & Hgv & _)]; rewrite Hgv, !ret_bind;
    [|reflexivity].
  cbn [negb]. assert (Hpp : p ≠ p').
  { intros ->. apply Hne. exact (inv_inj h Hinv _ _ _ Hp' Hp). }
  unfold as_leaf. rewrite lookup_insert_ne by assumption.
  destruct (h !! p') as [[n'|l0]|]; try reflexivity. rewrite !ret_bind.
  destruct (has_flag (vv_version l0) valid_bit); cbn [negb]; [|reflexivity].
  rewrite !atomic_read_value. unfold as_leaf.
  rewrite lookup_insert_ne by assumption. reflexivity.
Qed.

(** X7 — [put(k, v)] is local to its key: a [get] for a key with another
    index sequence returns what it returned before. *)
Theorem put_leaves_other_keys (fuel : nat) (k k' : K) (v out : V) (h h' : store) :
  reachable h → put k v h = Done h' → path_of k' ≠ path_of k →
  get fuel k' out h' = get fuel k' out h.
Proof.
  intros Hreach Hput Hne. pose proof (reachable_tree_inv Hok h Hreach) as Hinv.
  destruct (put_shape Hok k v h h' Hinv Hput)
    as (p & h1 & l & Hins & Hinv1 & Hg & Hp & Hl & _ & ->).
  rewrite (get_leaf_update h1 p l _ k k' fuel out Hinv1 Hp Hl Hne).
  exact (insert_nodes_get k h h1 p fuel k' out Hinv Hinv1 Hg Hins Hp).
Qed.

(** X8 — [remove(k)] is local to its key: a [get] for a key with another
    index sequence returns what it returned before. *)
Theorem remove_leaves_other_keys (fuel : nat) (k k' : K) (out : V) (h h' : store) :
  reachable h → remove k h = Done h' → path_of k' ≠ path_of k →
  get fuel k' out h' = get fuel k' out h.
Proof.
  intros Hreach Hrem Hne. pose proof (reachable_tree_inv Hok h Hreach) as Hinv.
  destruct (remove_shape k h h' Hinv Hrem)
    as [(q & _ & ->)|(p & l & _ & Hp & Hl & _ & ->)]; [reflexivity|].
  exact (get_leaf_update h p l _ k k' fuel out Hinv Hp Hl Hne).
Qed.

End shape.

(** ** Item flags and version changes *)

Section flags.
Context `{StoConvention} (Hok : convention_ok).

Lemma item_bits :
  item_put_bit = 2 ^ Z.log2 user0_bit ∧
  item_remove_bit = 2 ^ (Z.log2 user0_bit + 1) ∧
  item_empty_bit = 2 ^ (Z.log2 user0_bit + 2) ∧ 0 ≤ Z.log2 user0_bit.
Proof.
  pose proof (Z.log2_nonneg user0_bit) as Hu.
  unfold item_put_bit, item_remove_bit, item_empty_bit.
  rewrite !Z.shiftl_mul_pow2 by lia.
  pose proof (user0_single Hok) as E. set (u := Z.log2 user0_bit) in *. clearbody u.
  rewrite E, !Z.pow_add_r by lia. repeat split; lia.
Qed.

Lemma item_put_bit_set fl : has_flag (Z.lor fl item_put_bit) item_put_bit = true.
Proof.
  destruct item_bits as (-> & _ & _ & Hu).
  rewrite has_flag_testbit, testbit_lor_pow2, Z.eqb_refl by lia. apply orb_true_r.
Qed.

Lemma item_remove_bit_set fl :
  has_flag (Z.lor fl item_remove_bit) item_remove_bit = true.
Proof.
  destruct item_bits as (_ & -> & _ & Hu).
  rewrite has_flag_testbit, testbit_lor_pow2, Z.eqb_refl by lia. apply orb_true_r.
Qed.

Lemma item_remove_bit_keeps_put fl :
  has_flag (Z.lor fl item_remove_bit) item_put_bit = has_flag fl item_put_bit.
Proof.
  destruct item_bits as (-> & -> & _ & Hu).
  rewrite !has_flag_testbit, testbit_lor_pow2 by lia.
  destruct (Z.eqb_spec (Z.log2 user0_bit + 1) (Z.log2 user0_bit)); [lia|].
  apply orb_false_r.
Qed.

Lemma has_flag_zero bit : has_flag 0 bit = false.
Proof. unfold has_flag. rewrite Z.land_0_l. reflexivity. Qed.

(** Adding the increment changes the increment field, also when the word
    wraps around. *)
Lemma counter_add_changes v :
  0 ≤ v < 2 ^ tid_bits →
  TransactionTid.counter (TransactionTid.add v increment_value)
  ≠ TransactionTid.counter v.
Proof.
  intros Hv. pose proof (increment_value_pos Hok) as Hp.
  pose proof (increment_value_bound Hok) as Hb.
  pose proof (increment_pos Hok) as Hc. pose proof (valid_pos Hok) as Ha.
  pose proof (increment_single Hok) as Einc.
  set (c := Z.log2 increment_value) in *. clearbody c.
  assert (Hsplit : 2 ^ tid_bits = 2 ^ (tid_bits - c) * increment_value).
  { rewrite Einc, <- Z.pow_add_r by lia. f_equal. lia. }
  assert (Hm : 32 ≤ 2 ^ (tid_bits - c)) by nia.
  unfold TransactionTid.counter, TransactionTid.add, TransactionTid.wrap.
  destruct (Z_lt_le_dec (v + increment_value) (2 ^ tid_bits)) as [Hlt|Hge].
  - rewrite Z.mod_small by lia.
    replace (v + increment_value) with (v + 1 * increment_value) by lia.
    rewrite Z.div_add by lia. lia.
  - assert (E : (v + increment_value) mod 2 ^ tid_bits
                = v + (1 - 2 ^ (tid_bits - c)) * increment_value).
    { symmetry. apply Z.mod_unique_pos with (q := 1); lia. }
    rewrite E, Z.div_add by lia. lia.
Qed.

Lemma same_version_counter x y :
  TransactionTid.same_version x y = true →
  TransactionTid.counter x = TransactionTid.counter y.
Proof.
  unfold TransactionTid.same_version. intros E. apply Z.eqb_eq in E.
  rewrite <- (counter_locked Hok x), <- (counter_locked Hok y), E. reflexivity.
Qed.

Lemma same_version_sym x y :
  TransactionTid.same_version x y = TransactionTid.same_version y x.
Proof. unfold TransactionTid.same_version. apply Z.eqb_sym. Qed.

Lemma same_version_refl x : TransactionTid.same_version x x = true.
Proof. unfold TransactionTid.same_version. apply Z.eqb_refl. Qed.

Lemma same_version_locked x :
  TransactionTid.same_version (Z.lor x TransactionTid.lock_bit) x = true.
Proof.
  unfold TransactionTid.same_version. rewrite <- Z.lor_assoc, Z.lor_diag.
  apply Z.eqb_refl.
Qed.

Lemma counter_put_version_add v :
  TransactionTid.counter (put_version v)
  = TransactionTid.counter (TransactionTid.add v increment_value).
Proof.
  rewrite (put_version_eq Hok).
  rewrite (counter_low_mask_ldiff Hok), (counter_low_mask_lor Hok)
    by apply (low_masks Hok).
  reflexivity.
Qed.

Lemma counter_remove_version_add v :
  TransactionTid.counter (remove_version v)
  = TransactionTid.counter (TransactionTid.add v increment_value).
Proof.
  rewrite (remove_version_eq Hok).
  rewrite !(counter_low_mask_ldiff Hok) by apply (low_masks Hok).
  reflexivity.
Qed.

(** A version word after a write is not the same version as before it. *)
Lemma written_version_differs v v' :
  0 ≤ v < 2 ^ tid_bits →
  TransactionTid.counter v'
  = TransactionTid.counter (TransactionTid.add v increment_value) →
  TransactionTid.same_version v' v = false.
Proof.
  intros Hv Hc. destruct (TransactionTid.same_version v' v) eqn:E; [|reflexivity].
  exfalso. apply same_version_counter in E.
  apply (counter_add_changes v Hv). congruence.
Qed.

Lemma put_leaf_version_differs v :
  0 ≤ v < 2 ^ tid_bits →
  TransactionTid.same_version
    (TransactionTid.unlock (put_version (Z.lor v TransactionTid.lock_bit))) v = false.
Proof.
  intros Hv. pose proof (locked_word Hok v Hv) as Hlw.
  rewrite (unlock_eq Hok) by apply (put_version_word Hok).
  destruct (TransactionTid.same_version _ v) eqn:E; [|reflexivity]. exfalso.
  apply same_version_counter in E.
  rewrite (counter_unlocked Hok), counter_put_version_add in E.
  apply (counter_add_changes _ Hlw). rewrite (counter_locked Hok). exact E.
Qed.

Lemma remove_leaf_version_differs v :
  0 ≤ v < 2 ^ tid_bits →
  TransactionTid.same_version
    (TransactionTid.unlock (remove_version (Z.lor v TransactionTid.lock_bit))) v = false.
Proof.
  intros Hv. pose proof (locked_word Hok v Hv) as Hlw.
  rewrite (unlock_eq Hok) by apply (remove_version_word Hok).
  destruct (TransactionTid.same_version _ v) eqn:E; [|reflexivity]. exfalso.
  apply same_version_counter in E.
  rewrite (counter_unlocked Hok), counter_remove_version_add in E.
  apply (counter_add_changes _ Hlw). rewrite (counter_locked Hok). exact E.
Qed.

End flags.

(** ** Transactions against the store *)

Section transactions.
Context `{StoConvention}.
Context {K V : Type} `{KeyTransformer K} `{Payload V}.
Context (Hok : convention_ok) `{!KeyTransformerOk K}.

Abbreviation store := (gmap ptr (cell V)).
Abbreviation transaction := (gmap ptr (TransItem V)).

Lemma Sto_item_key (txn : transaction) p :
  transaction_ok txn → key (Sto_item txn p) = p.
Proof.
  intros Htxn. unfold Sto_item. destruct (txn !! p) as [it|] eqn:Hit; simpl.
  - exact (Htxn _ _ Hit).
  - reflexivity.
Qed.

(** X9 — Committing a [trans_put] is a [put]: the callbacks [lock],
    [install] and [unlock], run on the item that [trans_put(k, v)] staged,
    leave the store that [put(k, v)] leaves, whatever the transaction had
    staged for the key before. *)
Theorem committed_trans_put_is_put (k : K) (v : V) (h : store) (txn : transaction) :
  reachable h → transaction_ok txn →
  ∃ p h1 txn1 item,
    trans_put k v h txn = Done (h1, txn1) ∧ txn1 !! p = Some item ∧
    (h2 ← lock item h1; h3 ← install item h2; unlock item h3) = put k v h.
Proof.
  intros Hreach Htxn. pose proof (reachable_tree_inv Hok h Hreach) as Hinv.
  destruct (insert_nodes_spec Hok k h Hinv) as (p & h1 & Hins & Hinv1 & Hg & Hp).
  destruct (inv_frontier h1 Hinv1 _ _ Hp (path_of_length k)) as [l Hl].
  set (item := add_flags (add_write (Sto_item txn p) (PValue v)) item_put_bit).
  assert (Hkey : key item = p) by exact (Sto_item_key txn p Htxn).
  exists p, h1, (<[p := item]> txn), item.
  split; [unfold trans_put; rewrite Hins, ret_bind; reflexivity|].
  split; [apply lookup_insert_eq|].
  unfold put. rewrite Hins, ret_bind, (proj2 (as_leaf_Done h1 p l) Hl), ret_bind.
  unfold lock. rewrite Hkey, (proj2 (as_leaf_Done h1 p l) Hl), ret_bind.
  destruct (TransactionTid.lock (vv_version l)) as [w| | |] eqn:Hw; try reflexivity.
  rewrite !ret_bind. unfold install. rewrite Hkey.
  rewrite (proj2 (as_leaf_Done _ p _) (lookup_insert_eq h1 p _)), ret_bind.
  assert (Hflag : has_flag (flags item) item_put_bit = true)
    by apply (item_put_bit_set Hok).
  rewrite Hflag. change (write_value item) with (Done v). rewrite !ret_bind.
  unfold unlock. rewrite Hkey.
  rewrite (proj2 (as_leaf_Done _ p _) (lookup_insert_eq _ p _)), ret_bind.
  cbn [vv_version vv_value]. unfold TransactionTid.set_version.
  rewrite !insert_insert_eq. reflexivity.
Qed.

(** X10 — Committing a [trans_remove] of a key that has a leaf is a
    [remove], provided the transaction staged no put for the key: [lock],
    [install] and [unlock] on the item leave the store that [remove(k)]
    leaves. *)
Theorem committed_trans_remove_is_remove (k : K) (h : store) (txn : transaction)
    (p : ptr) :
  transaction_ok txn → get_value k h = Done (true, p) →
  has_flag (flags (Sto_item txn p)) item_put_bit = false →
  ∃ txn1 item,
    trans_remove k h txn = Done txn1 ∧ txn1 !! p = Some item ∧
    (h2 ← lock item h; h3 ← install item h2; unlock item h3) = remove k h.
Proof.
  intros Htxn Hgv Hnoput.
  set (item := add_flags (add_write (Sto_item txn p) (PBool true)) item_remove_bit).
  assert (Hkey : key item = p) by exact (Sto_item_key txn p Htxn).
  exists (<[p := item]> txn), item.
  split; [unfold trans_remove; rewrite Hgv, ret_bind; reflexivity|].
  split; [apply lookup_insert_eq|].
  unfold remove. rewrite Hgv, ret_bind. cbn [negb].
  unfold lock. rewrite Hkey.
  destruct (as_leaf h p) as [l| | |] eqn:Hl; try reflexivity. rewrite !ret_bind.
  destruct (TransactionTid.lock (vv_version l)) as [w| | |] eqn:Hw; try reflexivity.
  rewrite !ret_bind. unfold install. rewrite Hkey.
  rewrite (proj2 (as_leaf_Done _ p _) (lookup_insert_eq h p _)), ret_bind.
  assert (Hput : has_flag (flags item) item_put_bit = false).
  { unfold item. cbn [flags add_flags add_write].
    rewrite (item_remove_bit_keeps_put Hok). exact Hnoput. }
  assert (Hrem : has_flag (flags item) item_remove_bit = true)
    by apply (item_remove_bit_set Hok).
  rewrite Hput, Hrem, !ret_bind.
  unfold unlock. rewrite Hkey.
  rewrite (proj2 (as_leaf_Done _ p _) (lookup_insert_eq _ p _)), ret_bind.
  cbn [vv_version vv_value]. unfold TransactionTid.set_version.
  rewrite !insert_insert_eq, (install_remove_version_eq Hok). reflexivity.
Qed.

(** The version of the leaf of [k] after a write is not the same version as
    before. *)
Lemma write_changes_version (k : K) (h h' : store) p l (a : action) :
  tree_inv h → follow h root_ptr (path_of k) = Some p → h !! p = Some (Leaf l) →
  writes_leaf k p a → step a h = Done h' →
  ∃ l', h' !! p = Some (Leaf l') ∧
        TransactionTid.same_version (vv_version l') (vv_version l) = false.
Proof.
  intros Hinv Hp Hl Hw Hstep.
  destruct (inv_leaf h Hinv _ _ Hl) as [Hword _].
  destruct Hw as [[v ->]|[->|(item & -> & Hkey)]]; simpl in Hstep.
  - destruct (put_shape Hok k v h h' Hinv Hstep)
      as (p1 & h1 & l1 & _ & _ & Hg & Hp1 & Hl1 & _ & ->).
    destruct Hg as (Hext & Hkept & _).
    assert (p1 = p) as -> by (pose proof (follow_extends _ _ _ _ _ Hext Hp); congruence).
    assert (l1 = l) as -> by (pose proof (Hkept _ _ Hl); congruence).
    eexists. split; [apply lookup_insert_eq|]. cbn [vv_version].
    apply (put_leaf_version_differs Hok). exact Hword.
  - destruct (remove_shape k h h' Hinv Hstep)
      as [(q & Hgv & _)|(p1 & l1 & _ & Hp1 & Hl1 & _ & ->)].
    { rewrite (get_value_found k h p Hinv Hp) in Hgv. discriminate. }
    assert (p1 = p) as -> by congruence. assert (l1 = l) as -> by congruence.
    eexists. split; [apply lookup_insert_eq|]. cbn [vv_version].
    apply (remove_leaf_version_differs Hok). exact Hword.
  - unfold install in Hstep. rewrite Hkey in Hstep.
    rewrite (proj2 (as_leaf_Done h p l) Hl), ret_bind in Hstep.
    apply bind_Done in Hstep as ([new val] & Hnew & Hstep). injection Hstep as <-.
    eexists. split; [apply lookup_insert_eq|]. cbn [vv_version].
    unfold TransactionTid.set_version.
    apply (written_version_differs Hok); [exact Hword|].
    destruct (has_flag (flags item) item_put_bit).
    { apply bind_Done in Hnew as (w & _ & Hnew). injection Hnew as <- <-.
      apply (counter_put_version_add Hok). }
    destruct (has_flag (flags item) item_remove_bit); injection Hnew as <- <-.
    + rewrite (install_remove_version_eq Hok). apply (counter_remove_version_add Hok).
    + reflexivity.
Qed.

Lemma same_version_unlocked x y :
  unlocked x = unlocked y → TransactionTid.same_version x y = true.
Proof.
  intros E. unfold TransactionTid.same_version. apply Z.eqb_eq.
  apply Z.bits_inj'. intros n Hn. rewrite !Z.lor_spec.
  assert (En : Z.testbit (unlocked x) n = Z.testbit (unlocked y) n) by (rewrite E; reflexivity).
  unfold unlocked in En. rewrite !Z.ldiff_spec in En.
  destruct (Z.testbit TransactionTid.lock_bit n); simpl in En |- *.
  - rewrite !orb_true_r. reflexivity.
  - rewrite !andb_true_r in En. rewrite !orb_false_r. exact En.
Qed.

(** Across a history the increment field of a leaf moves up, by at most one
    per operation, as long as it has room. *)
Lemma leaf_counter_run (acts : list action) (h h' : store) p l :
  tree_inv h → run acts h = Done h' → h !! p = Some (Leaf l) →
  (TransactionTid.counter (vv_version l) + Z.of_nat (length acts) + 1)
    * increment_value ≤ 2 ^ tid_bits →
  ∃ l', h' !! p = Some (Leaf l') ∧
        TransactionTid.counter (vv_version l)
        ≤ TransactionTid.counter (vv_version l')
        ≤ TransactionTid.counter (vv_version l) + Z.of_nat (length acts).
Proof.
  revert h l. induction acts as [|a acts IH]; intros h l Hinv Hrun Hl Hroom;
    simpl in Hrun.
  - injection Hrun as <-. exists l. simpl. split; [assumption|]. lia.
  - apply bind_Done in Hrun as (h1 & Hstep & Hrun).
    destruct (step_tree_inv Hok _ _ _ Hinv Hstep) as [Hinv1 _].
    destruct (step_leaf Hok a h h1 p l Hinv Hstep Hl) as (l1 & Hl1 & Hcase).
    pose proof (increment_value_pos Hok) as Hpos.
    rewrite length_cons, Nat2Z.inj_succ in Hroom |- *.
    assert (Hone : TransactionTid.counter (vv_version l)
                   ≤ TransactionTid.counter (vv_version l1)
                   ≤ TransactionTid.counter (vv_version l) + 1).
    { destruct Hcase as [->|Hvs]; [lia|].
      apply (version_step_mono Hok); [|nia|assumption].
      exact (proj1 (inv_leaf h Hinv _ _ Hl)). }
    destruct (IH h1 l1 Hinv1 Hrun Hl1) as (l' & Hl' & Hcnt); [nia|].
    exists l'. split; [assumption|]. lia.
Qed.

(** A write to the leaf of [k] adds one to its increment field, as long as
    the field has room. *)
Lemma write_bumps_counter (k : K) (h h' : store) p l (a : action) :
  tree_inv h → follow h root_ptr (path_of k) = Some p → h !! p = Some (Leaf l) →
  writes_leaf k p a → step a h = Done h' →
  (TransactionTid.counter (vv_version l) + 2) * increment_value ≤ 2 ^ tid_bits →
  ∃ l', h' !! p = Some (Leaf l') ∧
        TransactionTid.counter (vv_version l')
        = TransactionTid.counter (vv_version l) + 1.
Proof.
  intros Hinv Hp Hl Hw Hstep Hroom.
  destruct (write_changes_version k h h' p l a Hinv Hp Hl Hw Hstep)
    as (l' & Hl' & Hdiff).
  destruct (step_leaf Hok a h h' p l Hinv Hstep Hl) as (l1 & Hl1 & Hcase).
  assert (l1 = l') as -> by congruence. exists l'. split; [assumption|].
  destruct Hcase as [->|Hvs].
  { rewrite same_version_refl in Hdiff. discriminate. }
  destruct (version_step_counter Hok _ _ (proj1 (inv_leaf h Hinv _ _ Hl)) Hroom Hvs)
    as [[_ Hu]|Hc]; [|exact Hc].
  rewrite (same_version_unlocked _ _ Hu) in Hdiff. discriminate.
Qed.

(** After a history that writes the leaf of [k], the version of the leaf is
    not the same version as before, as long as the increment field has room
    for the history. *)
Lemma leaf_written_run (k : K) (acts : list action) (h h' : store) p l :
  tree_inv h → follow h root_ptr (path_of k) = Some p → h !! p = Some (Leaf l) →
  run acts h = Done h' →
  (TransactionTid.counter (vv_version l) + Z.of_nat (length acts) + 1)
    * increment_value ≤ 2 ^ tid_bits →
  Exists (writes_leaf k p) acts →
  ∃ l', h' !! p = Some (Leaf l') ∧
        TransactionTid.same_version (vv_version l') (vv_version l) = false.
Proof.
  intros Hinv Hp Hl Hrun Hroom Hex.
  apply Exists_exists in Hex as (a & Ha & Hw).
  apply list_elem_of_split in Ha as (acts1 & acts2 & ->).
  rewrite run_app in Hrun. apply bind_Done in Hrun as (h1 & Hrun1 & Hrun).
  simpl in Hrun. apply bind_Done in Hrun as (h2 & Hstep & Hrun2).
  rewrite length_app, length_cons, Nat2Z.inj_add, Nat2Z.inj_succ in Hroom.
  pose proof (increment_value_pos Hok) as Hpos.
  destruct (run_tree_inv Hok _ _ _ Hinv Hrun1) as [Hinv1 Hext1].
  destruct (leaf_counter_run acts1 h h1 p l Hinv Hrun1 Hl) as (l1 & Hl1 & Hc1); [nia|].
  pose proof (follow_extends _ _ _ _ _ Hext1 Hp) as Hp1.
  destruct (step_tree_inv Hok _ _ _ Hinv1 Hstep) as [Hinv2 _].
  destruct (write_bumps_counter k h1 h2 p l1 a Hinv1 Hp1 Hl1 Hw Hstep)
    as (l2 & Hl2 & Hc2); [nia|].
  destruct (leaf_counter_run acts2 h2 h' p l2 Hinv2 Hrun2 Hl2) as (l' & Hl' & Hc'); [nia|].
  exists l'. split; [assumption|].
  destruct (TransactionTid.same_version (vv_version l') (vv_version l)) eqn:E;
    [|reflexivity].
  apply (same_version_counter Hok) in E. lia.
Qed.

(** X11 — Read validation.  Let [trans_get(k)], run as a whole, be the first
    access of a transaction to a key that has a leaf.  It returns and records
    the leaf version; [check] on the item returns true while the leaf is as
    it was, also once some committer has locked it; and after any history of
    whole operations among which is a [put(k, _)], a [remove(k)] or an
    [install] on the leaf, [check] returns false, as long as the increment
    field of the leaf has room for one increment per operation of the
    history. *)
Theorem check_detects_a_write (fuel : nat) (k : K) (out : V) (h h' : store)
    (txn : transaction) (p : ptr) (l : versioned_value V) (acts : list action) :
  reachable h → (0 < fuel)%nat →
  get_value k h = Done (true, p) → h !! p = Some (Leaf l) → txn !! p = None →
  run acts h = Done h' →
  (TransactionTid.counter (vv_version l) + Z.of_nat (length acts) + 1)
    * increment_value ≤ 2 ^ tid_bits →
  ∃ b val item,
    trans_get fuel k out h txn = Done (b, val, <[p := item]> txn) ∧
    check item h = Done true ∧
    (∀ item' h1, key item' = p → lock item' h = Done h1 → check item h1 = Done true) ∧
    (Exists (writes_leaf k p) acts → check item h' = Done false).
Proof.
  intros Hreach Hfuel Hgv Hl Hfresh Hrun Hroom.
  pose proof (reachable_tree_inv Hok h Hreach) as Hinv.
  destruct (get_value_spec k h Hinv) as
    [(p0 & Hgv0 & Hp)|(q & j & tz & nq & Hgv0 & _)]; [|congruence].
  assert (p0 = p) as -> by congruence.
  destruct fuel as [|fuel]; [lia|].
  set (item := add_read (Sto_item txn p) (vv_version l)).
  assert (Hitem : item = mk_TransItem p 0 (Some (vv_version l)) None).
  { unfold item, Sto_item. rewrite Hfresh. reflexivity. }
  exists (has_flag (vv_version l) valid_bit), (vv_value l), item.
  assert (Hcheck : ∀ h1 l1, h1 !! p = Some (Leaf l1) →
            check item h1
            = Done (TransactionTid.same_version (vv_version l1) (vv_version l))).
  { intros h1 l1 Hl1. unfold check. rewrite Hitem. cbn [flags key].
    rewrite has_flag_zero, (proj2 (as_leaf_Done h1 p l1) Hl1), ret_bind.
    reflexivity. }
  split; [|split; [|split]].
  - unfold trans_get. rewrite Hgv, ret_bind. cbn [negb].
    unfold Sto_item at 1 2. rewrite Hfresh. cbn [default].
    change (has_write (mk_TransItem p 0 None None)) with false.
    change (has_read (mk_TransItem p 0 None None)) with false. cbv iota.
    rewrite (proj2 (as_leaf_Done h p l) Hl), !ret_bind.
    rewrite (atomic_read_quiet fuel h p l Hl), ret_bind.
    unfold item, Sto_item. rewrite Hfresh. reflexivity.
  - rewrite (Hcheck h l Hl), same_version_refl. reflexivity.
  - intros item' h1 Hkey Hlock. unfold lock in Hlock. rewrite Hkey in Hlock.
    rewrite (proj2 (as_leaf_Done h p l) Hl), ret_bind in Hlock.
    apply bind_Done in Hlock as (w & Hw & Hlock).
    apply lock_Done_inv in Hw as [_ ->]. injection Hlock as <-.
    rewrite (Hcheck _ _ (lookup_insert_eq h p _)). cbn [vv_version].
    rewrite same_version_locked. reflexivity.
  - intros Hex.
    destruct (leaf_written_run k acts h h' p l Hinv Hp Hl Hrun Hroom Hex)
      as (l' & Hl' & Hdiff).
    rewrite (Hcheck h' l' Hl'), Hdiff. reflexivity.
Qed.

(** X12 — Reads of one transaction repeat or abort.  Let [trans_get(k)], run
    as a whole, be the first access of a transaction to a key that has a
    leaf.  A second [trans_get(k)] on the same store returns what the first
    returned and leaves the transaction as it is; and after any history of
    whole operations among which is a [put(k, _)], a [remove(k)] or an
    [install] on the leaf, the second [trans_get(k)] aborts the transaction,
    as long as the increment field of the leaf has room for one increment per
    operation of the history. *)
Theorem trans_get_repeats_or_aborts (fuel : nat) (k : K) (out out' : V)
    (h h' : store) (txn : transaction) (p : ptr) (l : versioned_value V)
    (acts : list action) :
  reachable h → (0 < fuel)%nat →
  get_value k h = Done (true, p) → h !! p = Some (Leaf l) → txn !! p = None →
  run acts h = Done h' →
  (TransactionTid.counter (vv_version l) + Z.of_nat (length acts) + 1)
    * increment_value ≤ 2 ^ tid_bits →
  ∃ b val txn1,
    trans_get fuel k out h txn = Done (b, val, txn1) ∧
    trans_get fuel k out' h txn1 = Done (b, val, txn1) ∧
    (Exists (writes_leaf k p) acts → trans_get fuel k out' h' txn1 = Abort).
Proof.
  intros Hreach Hfuel Hgv Hl Hfresh Hrun Hroom.
  pose proof (reachable_tree_inv Hok h Hreach) as Hinv.
  destruct (get_value_spec k h Hinv) as
    [(p0 & Hgv0 & Hp)|(q & j & tz & nq & Hgv0 & _)]; [|congruence].
  assert (p0 = p) as -> by congruence.
  destruct fuel as [|fuel]; [lia|].
  set (item := mk_TransItem (V := V) p 0 (Some (vv_version l)) None).
  exists (has_flag (vv_version l) valid_bit), (vv_value l), (<[p := item]> txn).
  assert (Hsecond : ∀ h1 l1, get_value k h1 = Done (true, p) →
            h1 !! p = Some (Leaf l1) →
            trans_get (S fuel) k out' h1 (<[p := item]> txn)
            = if TransactionTid.same_version (vv_version l) (vv_version l1)
              then Done (has_flag (vv_version l1) valid_bit, vv_value l1,
                         <[p := add_read item (vv_version l1)]> (<[p := item]> txn))
              else Abort).
  { intros h1 l1 Hgv1 Hl1. unfold trans_get. rewrite Hgv1, ret_bind. cbn [negb].
    rewrite Sto_item_insert.
    change (has_write item) with false. change (has_read item) with true. cbv iota.
    rewrite (proj2 (as_leaf_Done h1 p l1) Hl1), ret_bind.
    change (read_value item) with (Done (vv_version l)). rewrite !ret_bind.
    destruct (TransactionTid.same_version (vv_version l) (vv_version l1));
      cbn [negb]; [|reflexivity].
    rewrite (atomic_read_quiet fuel h1 p l1 Hl1), ret_bind. reflexivity. }
  split; [|split].
  - unfold trans_get. rewrite Hgv, ret_bind. cbn [negb].
    unfold Sto_item at 1 2. rewrite Hfresh. cbn [default].
    change (has_write (mk_TransItem p 0 None None)) with false.
    change (has_read (mk_TransItem p 0 None None)) with false. cbv iota.
    rewrite (proj2 (as_leaf_Done h p l) Hl), !ret_bind.
    rewrite (atomic_read_quiet fuel h p l Hl), ret_bind.
    unfold Sto_item. rewrite Hfresh. reflexivity.
  - rewrite (Hsecond h l Hgv Hl), same_version_refl, insert_insert_eq. reflexivity.
  - intros Hex.
    destruct (leaf_written_run k acts h h' p l Hinv Hp Hl Hrun Hroom Hex)
      as (l' & Hl' & Hdiff).
    destruct (run_tree_inv Hok acts h h' Hinv Hrun) as [Hinv' Hext].
    rewrite (Hsecond h' l').
    + rewrite same_version_sym, Hdiff. reflexivity.
    + apply (get_value_found k h' p Hinv'). exact (follow_extends _ _ _ _ _ Hext Hp).
    + exact Hl'.
Qed.

(** X13 — Within one transaction the last staged write wins: after
    [trans_put(k, a); trans_put(k, b)] a [trans_get(k)] returns [b], and the
    second [trans_put] leaves the store as the first left it. *)
Theorem last_staged_write_wins (fuel : nat) (k : K) (a b out : V) (h : store)
    (txn : transaction) :
  reachable h →
  ∃ h1 txn1 txn2,
    trans_put k a h txn = Done (h1, txn1) ∧
    trans_put k b h1 txn1 = Done (h1, txn2) ∧
    trans_get fuel k out h1 txn2 = Done (true, b, txn2).
Proof.
  intros Hreach. pose proof (reachable_tree_inv Hok h Hreach) as Hinv.
  destruct (insert_nodes_spec Hok k h Hinv) as (p & h1 & Hins & Hinv1 & _ & Hp).
  assert (Hins1 : insert_nodes k h1 = Done (p, h1)).
  { unfold insert_nodes.
    apply insert_nodes_loop_existing; [rewrite t_key_length; lia|exact Hp]. }
  set (item1 := add_flags (add_write (Sto_item txn p) (PValue a)) item_put_bit).
  set (item2 := add_flags (add_write item1 (PValue b)) item_put_bit).
  exists h1, (<[p := item1]> txn), (<[p := item2]> (<[p := item1]> txn)).
  split; [unfold trans_put; rewrite Hins, ret_bind; reflexivity|]. split.
  - unfold trans_put. rewrite Hins1, ret_bind, Sto_item_insert. reflexivity.
  - unfold trans_get. rewrite (get_value_found k h1 p Hinv1 Hp), ret_bind.
    cbn [negb]. rewrite Sto_item_insert.
    change (has_write item2) with true. cbv iota.
    change (write_value item2) with (Done b). rewrite ret_bind.
    rewrite (insert_insert_eq (<[p := item1]> txn)). reflexivity.
Qed.

End transactions.

(** ** Locks, the empty tree, removed keys *)

Section locks.
Context `{StoConvention}.
Context {K V : Type} `{KeyTransformer K} `{Payload V}.
Context (Hok : convention_ok) `{!KeyTransformerOk K}.

Abbreviation store := (gmap ptr (cell V)).
Abbreviation transaction := (gmap ptr (TransItem V)).

Lemma unlock_is_unlocked v :
  0 ≤ v < 2 ^ tid_bits → TransactionTid.is_locked (TransactionTid.unlock v) = false.
Proof.
  intros Hv. rewrite (unlock_eq Hok) by assumption. apply (unlocked_is_locked Hok).
Qed.

Lemma quiescent_leaf_update (h : store) p v val :
  quiescent h → TransactionTid.is_locked v = false →
  quiescent (<[p := Leaf (mk_versioned_value v val)]> h).
Proof.
  intros Hq Hv q l. destruct (decide (p = q)) as [->|Hne].
  - rewrite lookup_insert_eq. intros [= <-]. exact Hv.
  - rewrite lookup_insert_ne by assumption. apply Hq.
Qed.

Lemma quiescent_grows (h h1 : store) : quiescent h → grows h h1 → quiescent h1.
Proof.
  intros Hq (_ & _ & Hnew) p l Hl. destruct (Hnew _ _ Hl) as [Hold|[_ ->]].
  - exact (Hq _ _ Hold).
  - apply (ver_insert_bit_unlocked Hok).
Qed.

(** X14 — Writers give their lock back.  On a reachable store with no leaf
    lock held, [put], [remove] and [insert_nodes] leave no leaf lock held,
    and neither does the commit of an item, [lock] then [install] then
    [unlock]. *)
Theorem writers_release_their_lock (acts : list action) (h h' : store) :
  reachable h → quiescent h →
  ((∃ k v, acts = [Put k v]) ∨ (∃ k, acts = [Remove k]) ∨
   (∃ k, acts = [InsertNodes k]) ∨
   (∃ item, acts = [Lock item; Install item; Unlock item])) →
  run acts h = Done h' → quiescent h'.
Proof.
  intros Hreach Hq Hacts Hrun. pose proof (reachable_tree_inv Hok h Hreach) as Hinv.
  destruct Hacts as [(k & v & ->)|[(k & ->)|[(k & ->)|(item & ->)]]];
    simpl in Hrun.
  - apply bind_Done in Hrun as (h1 & Hput & Hrun). injection Hrun as <-.
    destruct (put_shape Hok k v h h1 Hinv Hput)
      as (p & h0 & l & _ & _ & Hg & _ & _ & _ & ->).
    apply quiescent_leaf_update; [exact (quiescent_grows h h0 Hq Hg)|].
    apply unlock_is_unlocked, (put_version_word Hok).
  - apply bind_Done in Hrun as (h1 & Hrem & Hrun). injection Hrun as <-.
    destruct (remove_shape k h h1 Hinv Hrem)
      as [(q & _ & ->)|(p & l & _ & _ & _ & _ & ->)]; [exact Hq|].
    apply quiescent_leaf_update; [exact Hq|].
    apply unlock_is_unlocked, (remove_version_word Hok).
  - apply bind_Done in Hrun as (h1 & Hins & Hrun). injection Hrun as <-.
    destruct (insert_nodes_spec Hok k h Hinv) as (p & h0 & Hins0 & _ & Hg & _).
    rewrite Hins0, ret_bind in Hins. injection Hins as <-.
    exact (quiescent_grows h h0 Hq Hg).
  - apply bind_Done in Hrun as (h1 & Hlock & Hrun).
    apply bind_Done in Hrun as (h2 & Hinst & Hrun).
    apply bind_Done in Hrun as (h3 & Hunl & Hrun). injection Hrun as <-.
    destruct (step_tree_inv Hok (Lock item) h h1 Hinv Hlock) as [Hinv1 _].
    destruct (step_tree_inv Hok (Install item) h1 h2 Hinv1 Hinst) as [Hinv2 _].
    unfold lock in Hlock. apply bind_Done in Hlock as (l & Hl & Hlock).
    apply bind_Done in Hlock as (w & Hw & Hlock). injection Hlock as <-.
    unfold install in Hinst. apply bind_Done in Hinst as (l1 & Hl1 & Hinst).
    apply bind_Done in Hinst as ([new val] & _ & Hinst). injection Hinst as <-.
    unfold unlock in Hunl. apply bind_Done in Hunl as (l2 & Hl2 & Hunl).
    injection Hunl as <-. apply as_leaf_Done in Hl2.
    rewrite !insert_insert_eq. apply quiescent_leaf_update; [exact Hq|].
    apply unlock_is_unlocked. exact (proj1 (inv_leaf _ Hinv2 _ _ Hl2)).
Qed.

Lemma follow_empty_tree (path : list nat) p :
  follow (empty_tree (V := V)) root_ptr path = Some p → path = [] ∧ p = root_ptr.
Proof.
  destruct path as [|t path]; simpl.
  - intros [= <-]. auto.
  - unfold empty_tree. rewrite lookup_singleton_eq. unfold new_tree_node.
    cbn [children]. destruct (replicate _ _ !! t) as [[c|]|] eqn:E; try discriminate.
    apply lookup_replicate in E as [E _]. discriminate.
Qed.

(** X15 — The empty tree holds no key: [get_value] stops at the root,
    [get] returns false and leaves the output as it is, [remove] changes
    nothing, and [trans_get] returns false and records the root. *)
Theorem empty_tree_has_no_key (fuel : nat) (k : K) (out : V) :
  get_value k (empty_tree (V := V)) = Done (false, root_ptr) ∧
  get fuel k out empty_tree = Done (false, out) ∧
  remove k (empty_tree (V := V)) = Done empty_tree ∧
  ∃ item, trans_get fuel k out empty_tree ∅ = Done (false, out, {[root_ptr := item]}) ∧
          rdata item = Some increment_value.
Proof.
  pose proof (empty_tree_inv (K := K) (V := V)) as Hinv.
  assert (Hgv : get_value k (empty_tree (V := V)) = Done (false, root_ptr)).
  { destruct (get_value_spec k empty_tree Hinv) as
      [(p & _ & Hp)|(q & j & tz & nq & Hgv & _ & Hq & _)].
    - apply follow_empty_tree in Hp as [Hp _].
      apply (f_equal length) in Hp. rewrite path_of_length in Hp.
      pose proof (buf_size_pos (K := K)). simpl in Hp. lia.
    - apply follow_empty_tree in Hq as [_ ->]. exact Hgv. }
  split; [exact Hgv|]. split; [exact (get_absent fuel k out _ _ Hgv)|]. split.
  - unfold remove. rewrite Hgv. reflexivity.
  - eexists. split.
    + unfold trans_get. rewrite Hgv, ret_bind. cbn [negb].
      unfold as_node, empty_tree. rewrite lookup_singleton_eq, ret_bind.
      rewrite insert_empty. reflexivity.
    + reflexivity.
Qed.

(** X16 — A removed key and the output parameter.  After [put(k, v)] and
    [remove(k)], [get(k, x)] returns false and leaves [x] as it is, while the
    first [trans_get(k, x)] of a transaction returns false and has stored the
    removed payload [v] in [x]. *)
Theorem removed_key_payload (fuel : nat) (k : K) (v out : V) (h : store)
    (txn : transaction) :
  reachable h → quiescent h → (0 < fuel)%nat →
  ∃ h1 h2 p,
    put k v h = Done h1 ∧ remove k h1 = Done h2 ∧
    get_value k h2 = Done (true, p) ∧
    get fuel k out h2 = Done (false, out) ∧
    (txn !! p = None →
     ∃ txn', trans_get fuel k out h2 txn = Done (false, v, txn')).
Proof.
  intros Hreach Hq Hfuel. pose proof (reachable_tree_inv Hok h Hreach) as Hinv.
  destruct (insert_nodes_spec Hok k h Hinv) as (p & h0 & Hins & Hinv0 & Hg & Hp).
  destruct (inv_frontier h0 Hinv0 _ _ Hp (path_of_length k)) as [l Hl].
  pose proof (quiescent_grows h h0 Hq Hg _ _ Hl) as Hul.
  set (v1 := TransactionTid.unlock
               (put_version (Z.lor (vv_version l) TransactionTid.lock_bit))).
  set (h1 := <[p := Leaf (mk_versioned_value v1 v)]> h0).
  assert (Hput : put k v h = Done h1).
  { unfold put. rewrite Hins, ret_bind, (proj2 (as_leaf_Done h0 p l) Hl), ret_bind.
    rewrite (lock_done _ Hul), ret_bind. reflexivity. }
  assert (Hinv1 : tree_inv h1).
  { exact (proj1 (step_tree_inv Hok (Put k v) h h1 Hinv Hput)). }
  assert (Hp1 : follow h1 root_ptr (path_of k) = Some p).
  { unfold h1. rewrite (follow_leaf_update h0 p l _ _ _ Hl). exact Hp. }
  assert (Hl1 : h1 !! p = Some (Leaf (mk_versioned_value v1 v)))
    by apply lookup_insert_eq.
  assert (Hul1 : TransactionTid.is_locked v1 = false).
  { apply unlock_is_unlocked, (put_version_word Hok). }
  set (v2 := TransactionTid.unlock (remove_version (Z.lor v1 TransactionTid.lock_bit))).
  set (h2 := <[p := Leaf (mk_versioned_value v2 v)]> h1).
  assert (Hrem : remove k h1 = Done h2).
  { unfold remove. rewrite (get_value_found k h1 p Hinv1 Hp1), ret_bind. cbn [negb].
    rewrite (proj2 (as_leaf_Done h1 p _) Hl1), ret_bind. cbn [vv_version vv_value].
    rewrite (lock_done _ Hul1), ret_bind. reflexivity. }
  assert (Hinv2 : tree_inv h2).
  { exact (proj1 (step_tree_inv Hok (Remove k) h1 h2 Hinv1 Hrem)). }
  assert (Hp2 : follow h2 root_ptr (path_of k) = Some p).
  { unfold h2. rewrite (follow_leaf_update h1 p _ _ _ _ Hl1). exact Hp1. }
  assert (Hl2 : h2 !! p = Some (Leaf (mk_versioned_value v2 v)))
    by apply lookup_insert_eq.
  assert (Hinvalid : has_flag v2 valid_bit = false).
  { unfold v2. rewrite (unlock_eq Hok) by apply (remove_version_word Hok).
    rewrite (unlocked_valid Hok). apply (remove_version_valid Hok). }
  pose proof (get_value_found k h2 p Hinv2 Hp2) as Hgv2.
  exists h1, h2, p. split; [exact Hput|]. split; [exact Hrem|].
  split; [exact Hgv2|]. split.
  - rewrite (get_at_leaf fuel k out h2 p _ Hinv2 Hp2 Hl2). cbn [vv_version].
    rewrite Hinvalid. reflexivity.
  - intros Hfresh. destruct fuel as [|fuel]; [lia|]. eexists.
    unfold trans_get. rewrite Hgv2, ret_bind. cbn [negb].
    assert (Hitem : Sto_item txn p = mk_TransItem p 0 None None).
    { unfold Sto_item. rewrite Hfresh. reflexivity. }
    rewrite Hitem.
    change (has_write (mk_TransItem p 0 None None)) with false.
    change (has_read (mk_TransItem p 0 None None)) with false. cbv iota.
    rewrite (proj2 (as_leaf_Done h2 p _) Hl2), !ret_bind.
    rewrite (atomic_read_quiet fuel h2 p _ Hl2), ret_bind.
    cbn [vv_version vv_value]. rewrite Hinvalid. reflexivity.
Qed.

(** X17 — False conflicts.  When two keys without leaves miss at the same
    interior node, the [insert_nodes] for one of them makes [check] fail for
    the transaction that read the absence of the other, although that key is
    as absent as before. *)
Theorem unrelated_insert_fails_check (fuel : nat) (k k' : K) (out : V) (h : store)
    (txn : transaction) (q : ptr) :
  reachable h → transaction_ok txn →
  get_value k h = Done (false, q) → get_value k' h = Done (false, q) →
  path_of k' ≠ path_of k →
  ∃ item p' h',
    trans_get fuel k out h txn = Done (false, out, <[q := item]> txn) ∧
    check item h = Done true ∧
    insert_nodes k' h = Done (p', h') ∧
    get fuel k out h' = Done (false, out) ∧
    check item h' = Done false.
Proof.
  intros Hreach Htxn Hgv Hgv' Hne.
  pose proof (reachable_tree_inv Hok h Hreach) as Hinv.
  destruct (insert_nodes_spec Hok k' h Hinv) as (p' & h' & Hins & Hinv' & Hg & Hp').
  assert (Hrun : run ([] ++ InsertNodes k' :: []) h = Done h').
  { simpl. rewrite Hins. reflexivity. }
  destruct (absent_witness_changes Hok k' h h' q Hinv Hinv' (grows_extends _ _ Hg)
              Hgv' (ex_intro _ p' Hp')) as (nq & nq' & Hnq & Hnq' & Hdiff).
  set (item := add_flags (add_read (Sto_item txn q) (version nq)) item_empty_bit).
  assert (Hkey : key item = q) by exact (Sto_item_key txn q Htxn).
  assert (Hflag : has_flag (flags item) item_empty_bit = true)
    by apply (item_empty_bit_set Hok).
  exists item, p', h'. split; [|split; [|split; [|split]]].
  - unfold trans_get. rewrite Hgv, ret_bind. cbn [negb].
    rewrite (proj2 (as_node_Done h q nq) Hnq), ret_bind. reflexivity.
  - unfold check. rewrite Hflag, Hkey, (proj2 (as_node_Done h q nq) Hnq), ret_bind.
    change (read_value item) with (Done (version nq)).
    rewrite ret_bind, same_version_refl. reflexivity.
  - exact Hins.
  - rewrite (insert_nodes_get Hok k' h h' p' fuel k out Hinv Hinv' Hg Hins Hp').
    exact (get_absent fuel k out h q Hgv).
  - unfold check. rewrite Hflag, Hkey, (proj2 (as_node_Done h' q nq') Hnq'), ret_bind.
    change (read_value item) with (Done (version nq)).
    rewrite ret_bind, Hdiff. reflexivity.
Qed.

End locks.

(** ** A read that overlaps a [put] *)

Section overlap.
Context `{StoConvention}.
Context {K V : Type} `{KeyTransformer K} `{Payload V}.
Context (Hok : convention_ok) `{!KeyTransformerOk K}.

Abbreviation store := (gmap ptr (cell V)).
Abbreviation transaction := (gmap ptr (TransItem V)).

(** [put] is its two halves, one after the other. *)
Lemma put_in_two_steps (k : K) (v : V) (h : store) :
  ('(p, h1) ← put_version_stored k h; put_value_stored p v h1) = put k v h.
Proof.
  unfold put_version_stored, put.
  destruct (insert_nodes k h) as [[p h0]| | |]; try reflexivity. rewrite !ret_bind.
  destruct (as_leaf h0 p) as [l| | |]; try reflexivity. rewrite !ret_bind.
  destruct (TransactionTid.lock (vv_version l)) as [w| | |]; try reflexivity.
  rewrite !ret_bind. unfold put_value_stored.
  rewrite (proj2 (as_leaf_Done _ p _) (lookup_insert_eq h0 p _)), ret_bind.
  cbn [vv_version]. rewrite insert_insert_eq. reflexivity.
Qed.

Lemma same_version_unlock v :
  0 ≤ v < 2 ^ tid_bits →
  TransactionTid.same_version (TransactionTid.unlock v) v = true.
Proof.
  intros Hv. rewrite (unlock_eq Hok) by assumption.
  apply same_version_unlocked.
  unfold unlocked. apply Z.bits_inj'. intros n Hn. rewrite !Z.ldiff_spec.
  destruct (Z.testbit v n), (Z.testbit TransactionTid.lock_bit n); reflexivity.
Qed.

(** X19 — A read that overlaps a [put] is not detected.  [put(k, v)] stores
    the new version of the leaf (line 159) before the payload (line 160), and
    the snapshot of a reader does not look at the lock bit.  A transaction
    whose first [trans_get(k)] runs between the two lines returns true with
    the payload the leaf had before the [put] (the default payload, when the
    [put] has just created the leaf) and records the new version; once the
    [put] has ended, [check] on the item returns true, although [get(k)] and
    a second [trans_get(k)] of the transaction now return [v]. *)
Theorem overlapping_read_passes_check (fuel : nat) (k : K) (v out : V) (h : store)
    (txn : transaction) :
  reachable h → quiescent h → (0 < fuel)%nat →
  ∃ p h1 h2 l,
    put_version_stored k h = Done (p, h1) ∧
    put_value_stored p v h1 = Done h2 ∧
    put k v h = Done h2 ∧
    h1 !! p = Some (Leaf l) ∧
    (∀ l0, h !! p = Some (Leaf l0) → vv_value l = vv_value l0) ∧
    (h !! p = None → vv_value l = default_value) ∧
    (txn !! p = None →
     ∃ item txn',
       trans_get fuel k out h1 txn = Done (true, vv_value l, <[p := item]> txn) ∧
       check item h2 = Done true ∧
       get fuel k out h2 = Done (true, v) ∧
       trans_get fuel k out h2 (<[p := item]> txn) = Done (true, v, txn')).
Proof.
  intros Hreach Hq Hfuel. pose proof (reachable_tree_inv Hok h Hreach) as Hinv.
  destruct fuel as [|fuel]; [lia|].
  destruct (insert_nodes_spec Hok k h Hinv) as (p & h0 & Hins & Hinv0 & Hg & Hp).
  destruct (inv_frontier h0 Hinv0 _ _ Hp (path_of_length k)) as [l0 Hl0].
  pose proof (quiescent_grows Hok h h0 Hq Hg _ _ Hl0) as Hul.
  set (ver := put_version (Z.lor (vv_version l0) TransactionTid.lock_bit)).
  set (l := mk_versioned_value ver (vv_value l0)).
  set (h1 := <[p := Leaf l]> h0).
  set (h2 := <[p := Leaf (mk_versioned_value (TransactionTid.unlock ver) v)]> h0).
  assert (Hword : 0 ≤ ver < 2 ^ tid_bits) by apply (put_version_word Hok).
  assert (Hvalid : has_flag ver valid_bit = true) by apply (put_version_valid Hok).
  assert (Hfirst : put_version_stored k h = Done (p, h1)).
  { unfold put_version_stored.
    rewrite Hins, ret_bind, (proj2 (as_leaf_Done h0 p l0) Hl0), ret_bind.
    rewrite (lock_done _ Hul), ret_bind. reflexivity. }
  assert (Hl1 : h1 !! p = Some (Leaf l)) by apply lookup_insert_eq.
  assert (Hsecond : put_value_stored p v h1 = Done h2).
  { unfold put_value_stored. rewrite (proj2 (as_leaf_Done h1 p l) Hl1), ret_bind.
    unfold h1, h2. rewrite insert_insert_eq. reflexivity. }
  assert (Hput : put k v h = Done h2).
  { rewrite <- put_in_two_steps, Hfirst, ret_bind. exact Hsecond. }
  assert (Hinv2 : tree_inv h2).
  { exact (proj1 (step_tree_inv Hok (Put k v) h h2 Hinv Hput)). }
  assert (Hp2 : follow h2 root_ptr (path_of k) = Some p).
  { unfold h2. rewrite (follow_leaf_update h0 p l0 _ _ _ Hl0). exact Hp. }
  assert (Hl2 : h2 !! p
                = Some (Leaf (mk_versioned_value (TransactionTid.unlock ver) v)))
    by apply lookup_insert_eq.
  assert (Hvalid2 : has_flag (TransactionTid.unlock ver) valid_bit = true).
  { rewrite (unlock_eq Hok), (unlocked_valid Hok) by assumption. exact Hvalid. }
  assert (Hgv1 : get_value k h1 = Done (true, p)).
  { unfold h1. rewrite (get_value_leaf_update h0 p l0 l k Hl0).
    exact (get_value_found k h0 p Hinv0 Hp). }
  exists p, h1, h2, l. split; [exact Hfirst|]. split; [exact Hsecond|].
  split; [exact Hput|]. split; [exact Hl1|].
  destruct Hg as (_ & Hkept & Hnew). split; [|split].
  - intros l' Hl'. pose proof (Hkept _ _ Hl') as Hl''.
    assert (l0 = l') as -> by congruence. reflexivity.
  - intros Hnone. destruct (Hnew _ _ Hl0) as [Hold|[_ ->]]; [congruence|].
    reflexivity.
  - intros Hfresh.
    assert (Hitem : Sto_item txn p = mk_TransItem p 0 None None).
    { unfold Sto_item. rewrite Hfresh. reflexivity. }
    set (item := mk_TransItem (V := V) p 0 (Some ver) None).
    exists item. eexists. split; [|split; [|split]].
    + unfold trans_get. rewrite Hgv1, ret_bind. cbn [negb]. rewrite Hitem.
      change (has_write (mk_TransItem p 0 None None)) with false.
      change (has_read (mk_TransItem p 0 None None)) with false. cbv iota.
      rewrite (proj2 (as_leaf_Done h1 p l) Hl1), !ret_bind.
      rewrite (atomic_read_quiet fuel h1 p l Hl1), ret_bind.
      cbn [vv_version vv_value l]. rewrite Hvalid. reflexivity.
    + unfold check. cbn [flags key item].
      rewrite has_flag_zero, (proj2 (as_leaf_Done h2 p _) Hl2), ret_bind.
      change (read_value item) with (Done ver). rewrite ret_bind.
      cbn [vv_version]. rewrite (same_version_unlock ver Hword). reflexivity.
    + rewrite (get_at_leaf (S fuel) k out h2 p _ Hinv2 Hp2 Hl2). cbn [vv_version vv_value].
      rewrite Hvalid2. reflexivity.
    + unfold trans_get. rewrite (get_value_found k h2 p Hinv2 Hp2), ret_bind.
      cbn [negb]. rewrite Sto_item_insert.
      change (has_write item) with false. change (has_read item) with true. cbv iota.
      rewrite (proj2 (as_leaf_Done h2 p _) Hl2), ret_bind.
      change (read_value item) with (Done ver). rewrite !ret_bind.
      cbn [vv_version]. rewrite same_version_sym, (same_version_unlock ver Hword).
      cbn [negb]. rewrite (atomic_read_quiet fuel h2 p _ Hl2), ret_bind.
      cbn [vv_version vv_value]. rewrite Hvalid2. reflexivity.
Qed.

End overlap.

(** ** The canonical transformer, once more *)

Lemma lex_lt_irrefl xs : ¬ lex_lt xs xs.
Proof.
  induction xs as [|x xs IH]; simpl; [tauto|]. intros [Hlt|[_ Hxs]]; [lia|auto].
Qed.

Lemma to_nat_path_inj (xs ys : list Z) :
  Forall (λ x, 0 ≤ x) xs → Forall (λ x, 0 ≤ x) ys →
  map Z.to_nat xs = map Z.to_nat ys → xs = ys.
Proof.
  intros Hxs. revert ys. induction Hxs as [|x xs Hx Hxs IH]; intros ys Hys Heq.
  - destruct ys; [reflexivity|discriminate].
  - destruct Hys as [|y ys Hy Hys]; [discriminate|].
    simpl in Heq. injection Heq as Hxy Hrest.
    f_equal; [lia|]. apply IH; assumption.
Qed.

(** X18 — The 64-bit transformer is injective: two keys below [2^64] with
    the same index sequence are the same key, so that distinct keys have
    distinct leaves. *)
Theorem default_transformer_injective (a b : Z) (buf : list Z) :
  length buf = buf_size (K := Z) →
  0 ≤ a < 2 ^ 64 → 0 ≤ b < 2 ^ 64 →
  (transform a buf = transform b buf → a = b) ∧
  (path_of a = path_of b → a = b).
Proof.
  intros Hb Ha Hbb.
  assert (Hinj : ∀ buf', length buf' = 16%nat →
            transform a buf' = transform b buf' → a = b).
  { intros buf' Hb' Heq. simpl in Heq.
    rewrite !transform_uint64_groups in Heq by exact Hb'.
    destruct (Z.lt_trichotomy a b) as [Hlt|[Heq'|Hgt]]; [|exact Heq'|]; exfalso.
    - apply (lex_lt_irrefl (groups 16 b)). rewrite <- Heq at 1.
      apply groups_lex. change (16 ^ Z.of_nat 16) with (2 ^ 64).
      rewrite !Z.mod_small by lia. exact Hlt.
    - apply (lex_lt_irrefl (groups 16 a)). rewrite Heq at 1.
      apply groups_lex. change (16 ^ Z.of_nat 16) with (2 ^ 64).
      rewrite !Z.mod_small by lia. exact Hgt. }
  split; [exact (Hinj buf Hb)|].
  intros Hpath. apply (Hinj (replicate 16 0) eq_refl).
  unfold path_of in Hpath. apply to_nat_path_inj in Hpath; [exact Hpath| |].
  - eapply Forall_impl; [apply (t_key_range (KeyTransformerOk0 := default_transformer_ok) a)|].
    simpl. intros x Hx. lia.
  - eapply Forall_impl; [apply (t_key_range (KeyTransformerOk0 := default_transformer_ok) b)|].
    simpl. intros x Hx. lia.
Qed.

(** ** The further properties at the sample instantiation *)

Section more_samples.
#[local] Existing Instance sto_convention.
#[local] Existing Instance Z_payload.
#[local] Existing Instance default_transformer_ok.

Abbreviation store := (gmap ptr (cell Z)).
Abbreviation history := (list (action (K := Z) (V := Z))).

Lemma two_keys_reachable : reachable (tree_after [Put 5 42; Put 6 7]).
Proof. apply (reachable_tree_after _ (tree_after [Put 5 42; Put 6 7])). vm_compute. reflexivity. Qed.

Lemma paths_5_6 : path_of (K := Z) 5 ≠ path_of (K := Z) 6.
Proof. intros E. vm_compute in E. discriminate. Qed.

Lemma paths_6_5 : path_of (K := Z) 6 ≠ path_of (K := Z) 5.
Proof. intros E. vm_compute in E. discriminate. Qed.

Lemma paths_7_6 : path_of (K := Z) 7 ≠ path_of (K := Z) 6.
Proof. intros E. vm_compute in E. discriminate. Qed.

Lemma one_key_remove :
  run [Remove 5] one_key = Done (tree_after [Put 5 42; Remove 5]).
Proof. vm_compute. reflexivity. Qed.

Lemma reachable_tree_shape_witness :
  reachable one_key ∧
  follow one_key root_ptr (path_of (K := Z) 5%Z) = Some 16%nat ∧
  (length (path_of (K := Z) 5%Z) ≤ buf_size (K := Z))%nat ∧
  ((length (path_of (K := Z) 5%Z) < buf_size (K := Z))%nat →
     ∃ n, one_key !! 16%nat = Some (Node n) ∧
          length (children n) = Z.to_nat fanout) ∧
  (length (path_of (K := Z) 5%Z) = buf_size (K := Z) →
     ∃ vv, one_key !! 16%nat = Some (Leaf vv)) ∧
  (∀ path', follow one_key root_ptr path' = Some 16%nat → path' = path_of (K := Z) 5%Z).
Proof.
  split; [exact one_key_reachable|]. split; [exact one_key_follow|].
  exact (reachable_tree_shape sto_convention_is_ok one_key (path_of (K := Z) 5) 16%nat
           one_key_reachable one_key_follow).
Defined.

Lemma node_version_counts_children_witness :
  reachable one_key ∧
  ∃ n, one_key !! root_ptr = Some (Node n) ∧
       version n = increment_value * (1 + Z.of_nat (filled (children n))) ∧
       TransactionTid.is_locked (version n) = false ∧
       increment_value ≤ version n ≤ 17 * increment_value.
Proof.
  split; [exact one_key_reachable|].
  assert (Hn : one_key !! root_ptr
               = Some (Node (V := Z) (mk_tree_node (<[0%nat := Some 1%nat]> (replicate 16 None))
                               0 None 32 None))) by (vm_compute; reflexivity).
  eexists. split; [exact Hn|].
  exact (node_version_counts_children sto_convention_is_ok one_key root_ptr _
           one_key_reachable Hn).
Defined.

Lemma cells_are_stable_witness :
  reachable one_key ∧
  run [Remove 5] one_key = Done (tree_after [Put 5 42; Remove 5]) ∧
  dom one_key ⊆ dom (tree_after [Put 5 42; Remove 5]) ∧
  (∀ p n t c, one_key !! p = Some (Node n) → children n !! t = Some (Some c) →
     ∃ n', tree_after [Put 5 42; Remove 5] !! p = Some (Node n') ∧
           children n' !! t = Some (Some c)) ∧
  (∀ (k : Z) p, get_value k one_key = Done (true, p) →
     get_value k (tree_after [Put 5 42; Remove 5]) = Done (true, p)).
Proof.
  split; [exact one_key_reachable|]. split; [exact one_key_remove|].
  exact (cells_are_stable sto_convention_is_ok [Remove 5] one_key _
           one_key_reachable one_key_remove).
Defined.

Lemma operations_are_safe_witness :
  reachable one_key ∧ (0 < 1)%nat ∧
  (∃ r, get_value 5 one_key = Done r) ∧
  (∃ r, insert_nodes 5 one_key = Done r) ∧
  (∃ r, get 1 5 0 one_key = Done r) ∧
  (∃ r, trans_put 5 7 one_key ∅ = Done r) ∧
  (∃ r, trans_remove 5 one_key ∅ = Done r) ∧
  (trans_get 1 5 0 one_key ∅ = Abort ∨ ∃ r, trans_get 1 5 0 one_key ∅ = Done r).
Proof.
  split; [exact one_key_reachable|]. split; [lia|].
  apply (operations_are_safe sto_convention_is_ok 1 5 7 0 one_key ∅
           one_key_reachable). lia.
Defined.

Lemma insert_nodes_twice_witness :
  reachable one_key ∧
  ∃ p h1, insert_nodes 6 one_key = Done (p, h1) ∧ insert_nodes 6 h1 = Done (p, h1).
Proof.
  split; [exact one_key_reachable|].
  exact (insert_nodes_twice sto_convention_is_ok 6 one_key one_key_reachable).
Defined.

Lemma insert_nodes_is_invisible_witness :
  reachable one_key ∧
  ∃ p h1, insert_nodes 6 one_key = Done (p, h1) ∧
    ∀ fuel (k' : Z) out, get fuel k' out h1 = get fuel k' out one_key.
Proof.
  split; [exact one_key_reachable|].
  exact (insert_nodes_is_invisible sto_convention_is_ok 6 one_key one_key_reachable).
Defined.

Lemma put_leaves_other_keys_witness :
  reachable one_key ∧
  put 6 7 one_key = Done (tree_after [Put 5 42; Put 6 7]) ∧
  path_of (K := Z) 5 ≠ path_of (K := Z) 6 ∧
  get 1 5 0 (tree_after [Put 5 42; Put 6 7]) = get 1 5 0 one_key.
Proof.
  assert (Hput : put 6 7 one_key = Done (tree_after [Put 5 42; Put 6 7]))
    by (vm_compute; reflexivity).
  split; [exact one_key_reachable|]. split; [exact Hput|]. split; [exact paths_5_6|].
  exact (put_leaves_other_keys sto_convention_is_ok 1 6 5 7 0 one_key _
           one_key_reachable Hput paths_5_6).
Defined.

Lemma remove_leaves_other_keys_witness :
  reachable (tree_after [Put 5 42; Put 6 7]) ∧
  remove 5 (tree_after [Put 5 42; Put 6 7])
  = Done (tree_after [Put 5 42; Put 6 7; Remove 5]) ∧
  path_of (K := Z) 6 ≠ path_of (K := Z) 5 ∧
  get 1 6 0 (tree_after [Put 5 42; Put 6 7; Remove 5])
  = get 1 6 0 (tree_after [Put 5 42; Put 6 7]).
Proof.
  assert (Hrem : remove 5 (tree_after [Put 5 42; Put 6 7])
                 = Done (tree_after [Put 5 42; Put 6 7; Remove 5]))
    by (vm_compute; reflexivity).
  split; [exact two_keys_reachable|]. split; [exact Hrem|]. split; [exact paths_6_5|].
  exact (remove_leaves_other_keys sto_convention_is_ok 1 5 6 0 _ _
           two_keys_reachable Hrem paths_6_5).
Defined.

Lemma committed_trans_put_is_put_witness :
  reachable one_key ∧ transaction_ok (V := Z) ∅ ∧
  ∃ p h1 txn1 item,
    trans_put 5 7 one_key ∅ = Done (h1, txn1) ∧ txn1 !! p = Some item ∧
    (h2 ← lock item h1; h3 ← install item h2; unlock item h3) = put 5 7 one_key.
Proof.
  split; [exact one_key_reachable|]. split; [exact transaction_ok_empty|].
  exact (committed_trans_put_is_put sto_convention_is_ok 5 7 one_key ∅
           one_key_reachable transaction_ok_empty).
Defined.

Lemma committed_trans_remove_is_remove_witness :
  transaction_ok (V := Z) ∅ ∧ get_value 5 one_key = Done (true, 16%nat) ∧
  has_flag (flags (Sto_item (V := Z) ∅ 16%nat)) item_put_bit = false ∧
  ∃ txn1 item,
    trans_remove 5 one_key ∅ = Done txn1 ∧ txn1 !! 16%nat = Some item ∧
    (h2 ← lock item one_key; h3 ← install item h2; unlock item h3) = remove 5 one_key.
Proof.
  assert (Hflag : has_flag (flags (Sto_item (V := Z) ∅ 16%nat)) item_put_bit = false)
    by reflexivity.
  split; [exact transaction_ok_empty|]. split; [exact one_key_get_value|].
  split; [exact Hflag|].
  exact (committed_trans_remove_is_remove sto_convention_is_ok 5 one_key ∅ 16%nat
           transaction_ok_empty one_key_get_value Hflag).
Defined.

Lemma one_key_rewritten :
  run [Remove 5; Put 5 7] one_key = Done (tree_after [Put 5 42; Remove 5; Put 5 7]).
Proof. vm_compute. reflexivity. Qed.

Lemma one_key_room :
  (TransactionTid.counter 18 + Z.of_nat (length (A := action) [Remove 5; Put 5 7]) + 1)
    * increment_value ≤ 2 ^ tid_bits.
Proof. vm_compute. discriminate. Qed.

Lemma one_key_writes : Exists (writes_leaf 5 16%nat) [Remove 5; Put 5 7].
Proof. apply Exists_cons_hd. right. left. reflexivity. Qed.

Lemma check_detects_a_write_witness :
  reachable one_key ∧ (0 < 1)%nat ∧ get_value 5 one_key = Done (true, 16%nat) ∧
  one_key !! 16%nat = Some (Leaf (mk_versioned_value 18 42)) ∧
  (∅ : gmap ptr (TransItem Z)) !! 16%nat = None ∧
  run [Remove 5; Put 5 7] one_key = Done (tree_after [Put 5 42; Remove 5; Put 5 7]) ∧
  (TransactionTid.counter 18 + Z.of_nat (length (A := action) [Remove 5; Put 5 7]) + 1)
    * increment_value ≤ 2 ^ tid_bits ∧
  ∃ b val item,
    trans_get 1 5 0 one_key ∅ = Done (b, val, <[16%nat := item]> ∅) ∧
    check item one_key = Done true ∧
    (∀ item' h1, key item' = 16%nat → lock item' one_key = Done h1 →
       check item h1 = Done true) ∧
    Exists (writes_leaf 5 16%nat) [Remove 5; Put 5 7] ∧
    check item (tree_after [Put 5 42; Remove 5; Put 5 7]) = Done false.
Proof.
  assert (Hf : (0 < 1)%nat) by lia.
  split; [exact one_key_reachable|]. split; [exact Hf|].
  split; [exact one_key_get_value|].
  split; [exact one_key_leaf|]. split; [apply lookup_empty|].
  split; [exact one_key_rewritten|]. split; [exact one_key_room|].
  destruct (check_detects_a_write sto_convention_is_ok 1 5 0 one_key _ ∅ 16%nat
              (mk_versioned_value 18 42) [Remove 5; Put 5 7] one_key_reachable
              Hf one_key_get_value one_key_leaf (lookup_empty _) one_key_rewritten
              one_key_room) as (b & val & item & Hget & Hsame & Hlock & Hwrite).
  exists b, val, item. split; [exact Hget|]. split; [exact Hsame|].
  split; [exact Hlock|]. split; [exact one_key_writes|].
  exact (Hwrite one_key_writes).
Defined.

Lemma trans_get_repeats_or_aborts_witness :
  reachable one_key ∧ (0 < 1)%nat ∧ get_value 5 one_key = Done (true, 16%nat) ∧
  one_key !! 16%nat = Some (Leaf (mk_versioned_value 18 42)) ∧
  (∅ : gmap ptr (TransItem Z)) !! 16%nat = None ∧
  run [Remove 5; Put 5 7] one_key = Done (tree_after [Put 5 42; Remove 5; Put 5 7]) ∧
  (TransactionTid.counter 18 + Z.of_nat (length (A := action) [Remove 5; Put 5 7]) + 1)
    * increment_value ≤ 2 ^ tid_bits ∧
  ∃ b val txn1,
    trans_get 1 5 0 one_key ∅ = Done (b, val, txn1) ∧
    trans_get 1 5 9 one_key txn1 = Done (b, val, txn1) ∧
    Exists (writes_leaf 5 16%nat) [Remove 5; Put 5 7] ∧
    trans_get 1 5 9 (tree_after [Put 5 42; Remove 5; Put 5 7]) txn1 = Abort.
Proof.
  assert (Hf : (0 < 1)%nat) by lia.
  split; [exact one_key_reachable|]. split; [exact Hf|].
  split; [exact one_key_get_value|].
  split; [exact one_key_leaf|]. split; [apply lookup_empty|].
  split; [exact one_key_rewritten|]. split; [exact one_key_room|].
  destruct (trans_get_repeats_or_aborts sto_convention_is_ok 1 5 0 9 one_key _ ∅
              16%nat (mk_versioned_value 18 42) [Remove 5; Put 5 7]
              one_key_reachable Hf one_key_get_value one_key_leaf (lookup_empty _)
              one_key_rewritten one_key_room) as (b & val & txn1 & Hget & Hagain & Hwrite).
  exists b, val, txn1. split; [exact Hget|]. split; [exact Hagain|].
  split; [exact one_key_writes|]. exact (Hwrite one_key_writes).
Defined.

Lemma last_staged_write_wins_witness :
  reachable one_key ∧
  ∃ h1 txn1 txn2,
    trans_put 5 1 one_key ∅ = Done (h1, txn1) ∧
    trans_put 5 2 h1 txn1 = Done (h1, txn2) ∧
    trans_get 1 5 0 h1 txn2 = Done (true, 2, txn2).
Proof.
  split; [exact one_key_reachable|].
  exact (last_staged_write_wins sto_convention_is_ok 1 5 1 2 0 one_key ∅
           one_key_reachable).
Defined.

Lemma writers_release_their_lock_witness :
  reachable one_key ∧ quiescent one_key ∧
  run [Remove 5] one_key = Done (tree_after [Put 5 42; Remove 5]) ∧
  quiescent (tree_after [Put 5 42; Remove 5]).
Proof.
  split; [exact one_key_reachable|]. split; [exact one_key_quiescent|].
  split; [exact one_key_remove|].
  apply (writers_release_their_lock sto_convention_is_ok [Remove 5] one_key _
           one_key_reachable one_key_quiescent); [|exact one_key_remove].
  right. left. exists 5. reflexivity.
Defined.

Lemma empty_tree_has_no_key_witness :
  get_value 5 (empty_tree (V := Z)) = Done (false, root_ptr) ∧
  get 1 5 0 empty_tree = Done (false, 0) ∧
  remove 5 (empty_tree (V := Z)) = Done empty_tree ∧
  ∃ item, trans_get 1 5 0 empty_tree ∅ = Done (false, 0, {[root_ptr := item]}) ∧
          rdata item = Some increment_value.
Proof. exact (empty_tree_has_no_key 1 5 0). Defined.

Lemma removed_key_payload_witness :
  reachable one_key ∧ quiescent one_key ∧ (0 < 1)%nat ∧
  ∃ h1 h2 p,
    put 5 7 one_key = Done h1 ∧ remove 5 h1 = Done h2 ∧
    get_value 5 h2 = Done (true, p) ∧
    get 1 5 0 h2 = Done (false, 0) ∧
    ((∅ : gmap ptr (TransItem Z)) !! p = None →
     ∃ txn', trans_get 1 5 0 h2 ∅ = Done (false, 7, txn')).
Proof.
  split; [exact one_key_reachable|]. split; [exact one_key_quiescent|].
  split; [lia|].
  apply (removed_key_payload sto_convention_is_ok 1 5 7 0 one_key ∅
           one_key_reachable one_key_quiescent). lia.
Defined.

Lemma unrelated_insert_fails_check_witness :
  reachable one_key ∧ transaction_ok (V := Z) ∅ ∧
  get_value 6 one_key = Done (false, 15%nat) ∧
  get_value 7 one_key = Done (false, 15%nat) ∧
  path_of (K := Z) 7 ≠ path_of (K := Z) 6 ∧
  ∃ item p' h',
    trans_get 1 6 0 one_key ∅ = Done (false, 0, <[15%nat := item]> ∅) ∧
    check item one_key = Done true ∧
    insert_nodes 7 one_key = Done (p', h') ∧
    get 1 6 0 h' = Done (false, 0) ∧
    check item h' = Done false.
Proof.
  assert (H6 : get_value 6 one_key = Done (false, 15%nat)) by (vm_compute; reflexivity).
  assert (H7 : get_value 7 one_key = Done (false, 15%nat)) by (vm_compute; reflexivity).
  split; [exact one_key_reachable|]. split; [exact transaction_ok_empty|].
  split; [exact H6|]. split; [exact H7|]. split; [exact paths_7_6|].
  exact (unrelated_insert_fails_check sto_convention_is_ok 1 6 7 0 one_key ∅ 15%nat
           one_key_reachable transaction_ok_empty H6 H7 paths_7_6).
Defined.

Lemma Done_pair_inj {A B : Type} (a a' : A) (b b' : B) :
  Done (a, b) = Done (a', b') → a = a' ∧ b = b'.
Proof. intros E. injection E as -> ->. auto. Qed.

Lemma Done_inj {A : Type} (a a' : A) : Done a = Done a' → a = a'.
Proof. intros E. injection E as ->. reflexivity. Qed.

Lemma overlapping_read_passes_check_witness :
  reachable one_key ∧ quiescent one_key ∧ (0 < 1)%nat ∧
  put_version_stored 5 one_key
  = Done (16%nat, <[16%nat := Leaf (mk_versioned_value 35 42)]> one_key) ∧
  put 5 9 one_key = Done (tree_after [Put 5 42; Put 5 9]) ∧
  ∃ item txn',
    trans_get 1 5 0 (<[16%nat := Leaf (mk_versioned_value 35 42)]> one_key) ∅
    = Done (true, 42, <[16%nat := item]> ∅) ∧
    check item (tree_after [Put 5 42; Put 5 9]) = Done true ∧
    get 1 5 0 (tree_after [Put 5 42; Put 5 9]) = Done (true, 9) ∧
    trans_get 1 5 0 (tree_after [Put 5 42; Put 5 9]) (<[16%nat := item]> ∅)
    = Done (true, 9, txn').
Proof.
  assert (Hf : (0 < 1)%nat) by lia.
  assert (Hhalf : put_version_stored 5 one_key
                  = Done (16%nat, <[16%nat := Leaf (mk_versioned_value 35 42)]> one_key))
    by (vm_compute; reflexivity).
  assert (Hwhole : put 5 9 one_key = Done (tree_after [Put 5 42; Put 5 9]))
    by (vm_compute; reflexivity).
  split; [exact one_key_reachable|]. split; [exact one_key_quiescent|].
  split; [exact Hf|]. split; [exact Hhalf|]. split; [exact Hwhole|].
  destruct (overlapping_read_passes_check sto_convention_is_ok 1 5 9 0 one_key ∅
              one_key_reachable one_key_quiescent Hf)
    as (p & h1 & h2 & l & Hfirst & _ & Hput & Hl & _ & _ & Hread).
  rewrite Hhalf in Hfirst. apply Done_pair_inj in Hfirst as [<- <-].
  rewrite Hwhole in Hput. apply Done_inj in Hput as <-.
  rewrite lookup_insert_eq in Hl.
  apply (inj Some), (f_equal (λ c, match c with Leaf x => x | Node _ => l end)) in Hl.
  subst l.
  destruct (Hread (lookup_empty _)) as (item & txn' & Hget & Hcheck & Hnow & Hagain).
  exists item, txn'. split; [exact Hget|]. split; [exact Hcheck|].
  split; [exact Hnow|exact Hagain].
Defined.

Lemma default_transformer_injective_witness :
  length (replicate 16 0) = buf_size (K := Z) ∧
  0 ≤ 5 < 2 ^ 64 ∧ 0 ≤ 6 < 2 ^ 64 ∧
  (transform 5 (replicate 16 0) = transform 6 (replicate 16 0) → 5 = 6) ∧
  (path_of (K := Z) 5 = path_of (K := Z) 6 → 5 = 6).
Proof.
  split; [reflexivity|]. split; [lia|]. split; [lia|].
  apply (default_transformer_injective 5 6 (replicate 16 0)); [reflexivity|lia|lia].
Defined.

End more_samples.
